(** * Kid3DStudio: scene graph, history stack and boolean engine

    A shallow embedding of [src/types.ts], [src/utils/booleanOperations.ts],
    the application component (history, scene-graph commands) and the
    [SceneNode] renderer component, with the properties of the specification
    stated over it.

    Conventions.
    - A JavaScript number held in a transform field ([position], [rotation],
      [scale], [pivot]) is a real number ([R]); vertex buffers, which the code
      tests with [Number.isFinite], hold a [number] that may be non-finite.
    - three.js and three-csg-ts are libraries outside the repository.  Their
      affine algebra ([Matrix4.compose], [Quaternion.setFromEuler],
      [Vector3.applyMatrix4], [BufferGeometry.translate], [BoxGeometry]) is
      written out; what the properties never inspect (curved primitives, the
      mesh combinator, matrix decomposition) is a field of [External].
    - [generateId] ([src/utils/idGenerator], absent from the sources) is the
      stream [gen]: the [k]-th call returns [gen k]; the application state
      counts the calls made so far. *)

From Stdlib Require Import Reals Lra List String Ascii Bool Arith Lia.
From Stdlib Require Import Permutation.
From Stdlib Require Decimal DecimalString DecimalNat.
Import ListNotations.

(* ================================================================== *)
(** * Numbers, vectors and affine matrices *)
(* ================================================================== *)

Module Num.

(** A buffer entry: a finite value, or one of NaN, +Infinity, -Infinity. *)
Inductive number : Type :=
| Fin (x : R)
| NonFinite.

(** [Number.isFinite] *)
Definition isFinite (n : number) : bool :=
  match n with
  | Fin _ => true
  | NonFinite => false
  end.

(** The value read back from a buffer entry already known to be finite. *)
Definition value (n : number) : R :=
  match n with
  | Fin x => x
  | NonFinite => 0
  end.

End Num.
Export Num.

Local Open Scope R_scope.

Record Vector3 : Type := vec3 { vx : R; vy : R; vz : R }.

Record Quaternion : Type := quat { qx : R; qy : R; qz : R; qw : R }.

(** The upper three rows of a three.js [Matrix4]; every matrix the program
    builds comes from [compose] and has (0, 0, 0, 1) as its fourth row. *)
Record Matrix4 : Type := mat4 {
  n11 : R; n12 : R; n13 : R; n14 : R;
  n21 : R; n22 : R; n23 : R; n24 : R;
  n31 : R; n32 : R; n33 : R; n34 : R
}.

Definition vadd (a b : Vector3) : Vector3 :=
  vec3 (vx a + vx b) (vy a + vy b) (vz a + vz b).

Definition vsub (a b : Vector3) : Vector3 :=
  vec3 (vx a - vx b) (vy a - vy b) (vz a - vz b).

Definition vzero : Vector3 := vec3 0 0 0.
Definition vone : Vector3 := vec3 1 1 1.

(** [Quaternion.setFromEuler], order XYZ (the default of [Euler]). *)
Definition setFromEuler (e : Vector3) : Quaternion :=
  let c1 := cos (vx e / 2) in
  let c2 := cos (vy e / 2) in
  let c3 := cos (vz e / 2) in
  let s1 := sin (vx e / 2) in
  let s2 := sin (vy e / 2) in
  let s3 := sin (vz e / 2) in
  quat (s1 * c2 * c3 + c1 * s2 * s3)
       (c1 * s2 * c3 - s1 * c2 * s3)
       (c1 * c2 * s3 + s1 * s2 * c3)
       (c1 * c2 * c3 - s1 * s2 * s3).

Definition qidentity : Quaternion := quat 0 0 0 1.

(** [Matrix4.compose (position, quaternion, scale)] *)
Definition compose (p : Vector3) (q : Quaternion) (s : Vector3) : Matrix4 :=
  let x := qx q in let y := qy q in let z := qz q in let w := qw q in
  let x2 := x + x in let y2 := y + y in let z2 := z + z in
  let xx := x * x2 in let xy := x * y2 in let xz := x * z2 in
  let yy := y * y2 in let yz := y * z2 in let zz := z * z2 in
  let wx := w * x2 in let wy := w * y2 in let wz := w * z2 in
  let sx := vx s in let sy := vy s in let sz := vz s in
  mat4 ((1 - (yy + zz)) * sx) ((xy - wz) * sy) ((xz + wy) * sz) (vx p)
       ((xy + wz) * sx) ((1 - (xx + zz)) * sy) ((yz - wx) * sz) (vy p)
       ((xz - wy) * sx) ((yz + wx) * sy) ((1 - (xx + yy)) * sz) (vz p).

(** [Matrix4.multiplyMatrices a b] on matrices with fourth row (0,0,0,1). *)
Definition multiplyMatrices (a b : Matrix4) : Matrix4 :=
  mat4 (n11 a * n11 b + n12 a * n21 b + n13 a * n31 b)
       (n11 a * n12 b + n12 a * n22 b + n13 a * n32 b)
       (n11 a * n13 b + n12 a * n23 b + n13 a * n33 b)
       (n11 a * n14 b + n12 a * n24 b + n13 a * n34 b + n14 a)
       (n21 a * n11 b + n22 a * n21 b + n23 a * n31 b)
       (n21 a * n12 b + n22 a * n22 b + n23 a * n32 b)
       (n21 a * n13 b + n22 a * n23 b + n23 a * n33 b)
       (n21 a * n14 b + n22 a * n24 b + n23 a * n34 b + n24 a)
       (n31 a * n11 b + n32 a * n21 b + n33 a * n31 b)
       (n31 a * n12 b + n32 a * n22 b + n33 a * n32 b)
       (n31 a * n13 b + n32 a * n23 b + n33 a * n33 b)
       (n31 a * n14 b + n32 a * n24 b + n33 a * n34 b + n34 a).

(** [childMatrix.premultiply (m)] is [m * childMatrix]. *)
Definition premultiply (child m : Matrix4) : Matrix4 := multiplyMatrices m child.

(** [Vector3.applyMatrix4]: the perspective divisor is 1 on these matrices. *)
Definition applyMatrix4 (m : Matrix4) (v : Vector3) : Vector3 :=
  vec3 (n11 m * vx v + n12 m * vy v + n13 m * vz v + n14 m)
       (n21 m * vx v + n22 m * vy v + n23 m * vz v + n24 m)
       (n31 m * vx v + n32 m * vy v + n33 m * vz v + n34 m).

(** [Matrix4.determinant] with fourth row (0,0,0,1). *)
Definition determinant (m : Matrix4) : R :=
  n11 m * (n22 m * n33 m - n23 m * n32 m)
  - n12 m * (n21 m * n33 m - n23 m * n31 m)
  + n13 m * (n21 m * n32 m - n22 m * n31 m).

(* ================================================================== *)
(** * Buffer geometries *)
(* ================================================================== *)

(** A [THREE.BufferGeometry], reduced to what the program reads: the flat
    array of its [position] attribute, three entries per vertex. *)
Record BufferGeometry : Type := mkGeometry {
  attributes_position : option (list number)
}.

(** [validateGeometry] of [BooleanOperationSystem]. *)
Definition validateGeometry (geometry : BufferGeometry) : bool :=
  match attributes_position geometry with
  | None => false
  | Some positions =>
      if (List.length positions <? 9)%nat then false
      else forallb isFinite positions
  end.

(** The vertices of a flat buffer: [count = floor (length / 3)]. *)
Fixpoint vertices (positions : list number) : list Vector3 :=
  match positions with
  | x :: y :: z :: rest => vec3 (value x) (value y) (value z) :: vertices rest
  | _ => []
  end.

(** [BufferAttribute.applyMatrix4]: each complete vertex triple is read into
    a vector, transformed and written back.  The transformation sums all
    three coordinates (with zero weights where the matrix has zeros), so one
    non-finite coordinate makes the whole vertex non-finite.  Trailing entries
    that form no vertex are left as they are. *)
Fixpoint mapVertices (f : Vector3 -> Vector3) (positions : list number)
  : list number :=
  match positions with
  | Fin x :: Fin y :: Fin z :: rest =>
      let v := f (vec3 x y z) in
      Fin (vx v) :: Fin (vy v) :: Fin (vz v) :: mapVertices f rest
  | _ :: _ :: _ :: rest =>
      NonFinite :: NonFinite :: NonFinite :: mapVertices f rest
  | rest => rest
  end.

(** [BufferGeometry.translate (x, y, z)] *)
Definition translate (t : Vector3) (g : BufferGeometry) : BufferGeometry :=
  mkGeometry (option_map (mapVertices (fun v => vadd v t)) (attributes_position g)).

(** [BufferGeometry.rotateX (angle)] *)
Definition rotateX (angle : R) (g : BufferGeometry) : BufferGeometry :=
  mkGeometry (option_map
    (mapVertices (fun v =>
       vec3 (vx v)
            (cos angle * vy v - sin angle * vz v)
            (sin angle * vy v + cos angle * vz v)))
    (attributes_position g)).

(** ** [THREE.BoxGeometry] with one segment per side *)

Inductive Axis : Type := AxisX | AxisY | AxisZ.

Definition component (u v w : Axis) (a b c : R) (k : Axis) : R :=
  let pick (t : Axis) (r : R) (rest : R) : R :=
    match t, k with
    | AxisX, AxisX | AxisY, AxisY | AxisZ, AxisZ => r
    | _, _ => rest
    end in
  pick w c (pick v b (pick u a 0)).

(** [buildPlane (u, v, w, udir, vdir, width, height, depth, 1, 1)]: the four
    corner vertices of one face, row by row. *)
Definition buildPlane (u v w : Axis) (udir vdir width height depth : R)
  : list number :=
  let widthHalf := width / 2 in
  let heightHalf := height / 2 in
  let depthHalf := depth / 2 in
  let vertex (ix iy : R) : list number :=
    let x := ix * width - widthHalf in
    let y := iy * height - heightHalf in
    [ Fin (component u v w (x * udir) (y * vdir) depthHalf AxisX);
      Fin (component u v w (x * udir) (y * vdir) depthHalf AxisY);
      Fin (component u v w (x * udir) (y * vdir) depthHalf AxisZ) ] in
  vertex 0 0 ++ vertex 1 0 ++ vertex 0 1 ++ vertex 1 1.

Definition BoxGeometry (width height depth : R) : BufferGeometry :=
  mkGeometry (Some (
    buildPlane AxisZ AxisY AxisX (-1) (-1) depth height width ++
    buildPlane AxisZ AxisY AxisX 1 (-1) depth height (- width) ++
    buildPlane AxisX AxisZ AxisY 1 1 width depth height ++
    buildPlane AxisX AxisZ AxisY 1 (-1) width depth (- height) ++
    buildPlane AxisX AxisY AxisZ 1 (-1) width height depth ++
    buildPlane AxisX AxisY AxisZ (-1) (-1) width height (- depth))).

(** ** Serialized geometry

    [geometryData] is the object [BufferGeometry.toJSON] writes:
    [{ data: { attributes: { position: { array } } } }].
    [BufferGeometryLoader.parse] reads [json.data.attributes]; it throws a
    [TypeError] when [data] is missing and builds a geometry without a
    position attribute when that attribute is missing. *)
Record GeometryJSON : Type := mkJSON {
  json_data : option (option (list number))
}.

Definition toJSON (g : BufferGeometry) : GeometryJSON :=
  mkJSON (Some (attributes_position g)).

(** [None]: the loader throws. *)
Definition parse (json : GeometryJSON) : option BufferGeometry :=
  match json_data json with
  | None => None
  | Some attrs => Some (mkGeometry attrs)
  end.

(* ================================================================== *)
(** * The scene data model ([src/types.ts]) *)
(* ================================================================== *)

Inductive ShapeType : Type :=
| box | sphere | cylinder | cone | torus | group | custom.

Definition ShapeType_eqb (a b : ShapeType) : bool :=
  match a, b with
  | box, box | sphere, sphere | cylinder, cylinder | cone, cone
  | torus, torus | group, group | custom, custom => true
  | _, _ => false
  end.

(** [SceneObject].  An optional field ([pivot?], [children?], ...) is an
    [option]; [None] is the absent (undefined) field. *)
#[warnings="-register-all"]
Inductive SceneObject : Type := mkObject {
  id : string;
  type : ShapeType;
  position : Vector3;
  rotation : Vector3;
  scale : Vector3;
  pivot : option Vector3;
  color : string;
  name : string;
  children : option (list SceneObject);
  geometryData : option GeometryJSON;
  baseDimensions : option Vector3
}.

Inductive Operation : Type := union | subtract | intersect.

(** A [THREE.Mesh]: a geometry and the three components its matrix is
    composed from by [updateMatrix]. *)
Record Mesh : Type := mkMesh {
  mesh_geometry : BufferGeometry;
  mesh_position : Vector3;
  mesh_quaternion : Quaternion;
  mesh_scale : Vector3
}.

(** [mesh.matrix] after [updateMatrix ()] *)
Definition mesh_matrix (m : Mesh) : Matrix4 :=
  compose (mesh_position m) (mesh_quaternion m) (mesh_scale m).

(** What a call of the mesh combinator does: it returns a mesh or [null],
    or throws an error with a message. *)
Inductive CsgOutcome : Type :=
| Returned (resultMesh : option Mesh)
| Thrown (message : string).

(** The library functions the program calls and the properties below do not
    look into. *)
Record External : Type := mkExternal {
  (** [new THREE.SphereGeometry (0.5, 32, 32)] *)
  SphereGeometry : BufferGeometry;
  (** [new THREE.CylinderGeometry (0.5, 0.5, 1, 32)] *)
  CylinderGeometry : BufferGeometry;
  (** [new THREE.ConeGeometry (0.5, 1, 32)] *)
  ConeGeometry : BufferGeometry;
  (** [new THREE.TorusGeometry (0.4, 0.1, 16, 100)] *)
  TorusGeometry : BufferGeometry;
  (** [CSG.union], [CSG.intersect], [CSG.subtract] of three-csg-ts *)
  CSG_union : Mesh -> Mesh -> CsgOutcome;
  CSG_intersect : Mesh -> Mesh -> CsgOutcome;
  CSG_subtract : Mesh -> Mesh -> CsgOutcome;
  (** [Matrix4.decompose] followed by [Euler.setFromQuaternion]: position,
      rotation as Euler angles, scale *)
  decomposeEuler : Matrix4 -> Vector3 * Vector3 * Vector3
}.

(* ================================================================== *)
(** * The boolean engine ([src/utils/booleanOperations.ts]) *)
(* ================================================================== *)

(** [BooleanOperationResult] *)
Record BooleanOperationResult : Type := mkResult {
  res_geometry : BufferGeometry;
  res_position : Vector3;
  res_size : Vector3;
  isValid : bool;
  error : option string
}.

(** ** [THREE.Box3] *)

(** A box is its two corners; [None] is the empty box. *)
Definition Box3 : Type := option (Vector3 * Vector3).

Definition expandByPoint (b : Box3) (p : Vector3) : Box3 :=
  match b with
  | None => Some (p, p)
  | Some (lo, hi) =>
      Some (vec3 (Rmin (vx lo) (vx p)) (Rmin (vy lo) (vy p)) (Rmin (vz lo) (vz p)),
            vec3 (Rmax (vx hi) (vx p)) (Rmax (vy hi) (vy p)) (Rmax (vz hi) (vz p)))
  end.

Definition setFromPoints (ps : list Vector3) : Box3 :=
  fold_left expandByPoint ps None.

(** [geometry.computeBoundingBox ()] *)
Definition computeBoundingBox (g : BufferGeometry) : Box3 :=
  match attributes_position g with
  | None => None
  | Some positions => setFromPoints (vertices positions)
  end.

(** [Box3.applyMatrix4]: the box of the eight transformed corners. *)
Definition box_applyMatrix4 (b : Box3) (m : Matrix4) : Box3 :=
  match b with
  | None => None
  | Some (lo, hi) =>
      setFromPoints (map (applyMatrix4 m)
        [ vec3 (vx lo) (vy lo) (vz lo); vec3 (vx lo) (vy lo) (vz hi);
          vec3 (vx lo) (vy hi) (vz lo); vec3 (vx lo) (vy hi) (vz hi);
          vec3 (vx hi) (vy lo) (vz lo); vec3 (vx hi) (vy lo) (vz hi);
          vec3 (vx hi) (vy hi) (vz lo); vec3 (vx hi) (vy hi) (vz hi) ])
  end.

(** [new THREE.Box3 ().setFromObject (mesh)] *)
Definition setFromObject (m : Mesh) : Box3 :=
  box_applyMatrix4 (computeBoundingBox (mesh_geometry m)) (mesh_matrix m).

Definition getCenter (b : Box3) : Vector3 :=
  match b with
  | None => vzero
  | Some (lo, hi) =>
      vec3 ((vx lo + vx hi) * / 2) ((vy lo + vy hi) * / 2) ((vz lo + vz hi) * / 2)
  end.

Definition getSize (b : Box3) : Vector3 :=
  match b with
  | None => vzero
  | Some (lo, hi) => vsub hi lo
  end.

Section BooleanOperationSystem.

Variable ext : External.
Variable gen : nat -> string.

(** The scale guard of [createMeshFromObject]:
    [Math.abs (s) < 0.001 ? (s >= 0 ? 0.001 : -0.001) : s] *)
Definition scaleFloor (s : R) : R :=
  if Rlt_dec (Rabs s) (1 / 1000) then
    if Rge_dec s 0 then 1 / 1000 else - (1 / 1000)
  else s.

(** The [switch (obj.type)] of [createMeshFromObject]. *)
Definition objectGeometry (obj : SceneObject) : BufferGeometry :=
  match type obj with
  | box => BoxGeometry 1 1 1
  | sphere => SphereGeometry ext
  | cylinder => rotateX (PI / 2) (CylinderGeometry ext)
  | cone => rotateX (PI / 2) (ConeGeometry ext)
  | torus => TorusGeometry ext
  | custom =>
      match geometryData obj with
      | Some data =>
          match parse data with
          | Some geometry => geometry
          | None => BoxGeometry 1 1 1
          end
      | None => BoxGeometry 1 1 1
      end
  | group => BoxGeometry 1 1 1
  end.

(** [createMeshFromObject]; [None] is the [null] it returns. *)
Definition createMeshFromObject (obj : SceneObject) : option Mesh :=
  let geometry := objectGeometry obj in
  if negb (validateGeometry geometry) then None
  else
    let mesh_pos :=
      match pivot obj with
      | Some pv => vadd (position obj) pv
      | None => position obj
      end in
    Some (mkMesh geometry mesh_pos (setFromEuler (rotation obj))
            (vec3 (scaleFloor (vx (scale obj)))
                  (scaleFloor (vy (scale obj)))
                  (scaleFloor (vz (scale obj))))).

Definition failure (msg : string) : BooleanOperationResult :=
  mkResult (mkGeometry None) vzero vzero false (Some msg).

Definition csg (operation : Operation) : Mesh -> Mesh -> CsgOutcome :=
  match operation with
  | union => CSG_union ext
  | intersect => CSG_intersect ext
  | subtract => CSG_subtract ext
  end.

(** [performOperation] *)
Definition performOperation (meshA meshB : option Mesh) (operation : Operation)
  : BooleanOperationResult :=
  match meshA, meshB with
  | Some a, Some b =>
      if negb (validateGeometry (mesh_geometry a))
         || negb (validateGeometry (mesh_geometry b))
      then failure "Mesh geometry is invalid"
      else
        match csg operation a b with
        | Thrown message => failure ("CSG operation failed: " ++ message)%string
        | Returned None => failure "CSG operation failed - no result mesh"
        | Returned (Some resultMesh) =>
            if negb (validateGeometry (mesh_geometry resultMesh))
            then failure "Result geometry is invalid"
            else
              let boundingBox := setFromObject resultMesh in
              mkResult (mesh_geometry resultMesh)
                       (getCenter boundingBox) (getSize boundingBox)
                       true None
        end
  | _, _ => failure "One or both meshes are invalid"
  end.

(** [Math.abs (x) || 1] *)
Definition absOr1 (x : R) : R :=
  if Req_dec_T (Rabs x) 0 then 1 else Rabs x.

Definition midpoint (a b : Vector3) : Vector3 :=
  vec3 ((vx a + vx b) / 2) ((vy a + vy b) / 2) ((vz a + vz b) / 2).

(** The [switch (operation)] of [createResultObject]. *)
Definition resultPosition (objA objB : SceneObject) (operation : Operation)
  : Vector3 :=
  match operation with
  | subtract => position objA
  | intersect => midpoint (position objA) (position objB)
  | union => midpoint (position objA) (position objB)
  end.

Definition operationName (operation : Operation) : string :=
  match operation with
  | union => "Union"
  | subtract => "Subtract"
  | intersect => "Intersect"
  end.

(** [createResultObject]; [n] counts the calls of [generateId] so far. *)
Definition createResultObject (operationResult : BooleanOperationResult)
    (objA objB : SceneObject) (operation : Operation) (n : nat)
  : SceneObject * nat :=
  let resultPos := resultPosition objA objB operation in
  let offset := vsub (res_position operationResult) resultPos in
  let adjustedGeometry :=
    translate (vec3 (- vx offset) (- vy offset) (- vz offset))
              (res_geometry operationResult) in
  (mkObject (gen n) custom resultPos vzero
     (vec3 (absOr1 (vx (res_size operationResult)))
           (absOr1 (vy (res_size operationResult)))
           (absOr1 (vz (res_size operationResult))))
     (Some vzero)
     (color objA)
     (operationName operation ++ " Result")%string
     None
     (Some (toJSON adjustedGeometry))
     (Some vone),
   S n).

(** [executeBooleanOperation]: the result object or [null], the error
    message if any, and the call count of [generateId]. *)
Definition executeBooleanOperation (objA objB : SceneObject)
    (operation : Operation) (n : nat)
  : option SceneObject * option string * nat :=
  let meshA := createMeshFromObject objA in
  let meshB := createMeshFromObject objB in
  match meshA, meshB with
  | Some _, Some _ =>
      let operationResult := performOperation meshA meshB operation in
      if negb (isValid operationResult) then (None, error operationResult, n)
      else
        let (resultObject, n') :=
          createResultObject operationResult objA objB operation n in
        (Some resultObject, None, n')
  | _, _ => (None, Some "Failed to create meshes from scene objects"%string, n)
  end.

End BooleanOperationSystem.

(* ================================================================== *)
(** * The renderer component [SceneNode] *)
(* ================================================================== *)

Section SceneNode.

Variable ext : External.

(** The [useMemo] geometry of a leaf node.  For a custom mesh the first 30
    buffer entries are tested and a non-finite one is thrown and caught,
    which selects the fallback box. *)
Definition nodeGeometry (obj : SceneObject) : BufferGeometry :=
  match type obj with
  | box => BoxGeometry 1 1 1
  | sphere => SphereGeometry ext
  | cylinder => rotateX (PI / 2) (CylinderGeometry ext)
  | cone => rotateX (PI / 2) (ConeGeometry ext)
  | torus => TorusGeometry ext
  | custom =>
      match geometryData obj with
      | Some data =>
          match parse data with
          | Some geom =>
              match attributes_position geom with
              | Some arr =>
                  if forallb isFinite (firstn 30 arr) then geom
                  else BoxGeometry 1 1 1
              | None => geom
              end
          | None => BoxGeometry 1 1 1
          end
      | None => BoxGeometry 1 1 1
      end
  | group => BoxGeometry 1 1 1
  end.

(** The wrapper [<group position rotation scale>] of a top-level node. *)
Definition wrapperMatrix (obj : SceneObject) : Matrix4 :=
  compose (position obj) (setFromEuler (rotation obj)) (scale obj).

(** The inner [<mesh position={pivot}>], with [pivot = obj.pivot || [0,0,0]]. *)
Definition pivotMatrix (obj : SceneObject) : Matrix4 :=
  compose (match pivot obj with Some pv => pv | None => vzero end)
          qidentity vone.

(** World matrix of the rendered mesh of a top-level leaf node. *)
Definition renderMatrix (obj : SceneObject) : Matrix4 :=
  multiplyMatrices (wrapperMatrix obj) (pivotMatrix obj).

(** Where the renderer draws local vertex [v] of a top-level leaf node. *)
Definition renderVertex (obj : SceneObject) (v : Vector3) : Vector3 :=
  applyMatrix4 (renderMatrix obj) v.

End SceneNode.

(** Where the boolean engine places local vertex [v] of a mesh: the
    combinator and [Box3.setFromObject] both apply [mesh.matrix]. *)
Definition worldVertex (m : Mesh) (v : Vector3) : Vector3 :=
  applyMatrix4 (mesh_matrix m) v.

(* ================================================================== *)
(** * Strings of the application component *)
(* ================================================================== *)

Local Close Scope R_scope.
Local Open Scope string_scope.
Local Open Scope list_scope.

(** [`${n}`] for a non-negative integer *)
Definition string_of_nat (n : nat) : string :=
  DecimalString.NilEmpty.string_of_uint (Nat.to_uint n).

(** [type.charAt (0).toUpperCase () + type.slice (1)] *)
Definition typeLabel (t : ShapeType) : string :=
  match t with
  | box => "Box"
  | sphere => "Sphere"
  | cylinder => "Cylinder"
  | cone => "Cone"
  | torus => "Torus"
  | group => "Group"
  | custom => "Custom"
  end.

(** [ids.includes (x)], [names.has (x)] *)
Definition includes (l : list string) (x : string) : bool :=
  existsb (String.eqb x) l.

(** ** The pattern [/^(.*?)\s\(Copy(?:\s(\d+))?\)$/]

    Names are strings of 8-bit code units.  [\s] is a white-space unit,
    [\d] a decimal digit, and [.] any unit but a line terminator. *)

Definition isWhitespace (c : ascii) : bool :=
  match nat_of_ascii c with
  | 9 | 10 | 11 | 12 | 13 | 32 | 160 => true
  | _ => false
  end.

Definition isDigit (c : ascii) : bool :=
  let n := nat_of_ascii c in ((48 <=? n) && (n <=? 57))%nat.

Definition isLineTerminator (c : ascii) : bool :=
  match nat_of_ascii c with
  | 10 | 13 => true
  | _ => false
  end.

(** Longest run of digits at the head of a list, and what follows it. *)
Fixpoint spanDigits (l : list ascii) : list ascii * list ascii :=
  match l with
  | c :: r =>
      if isDigit c then let (ds, rest) := spanDigits r in (c :: ds, rest)
      else ([], l)
  | [] => ([], [])
  end.

(** Reads [\s\(Copy] backwards: the reversed name from the unit before the
    closing part; returns the reversed group 1. *)
Definition stripOpening (r : list ascii) : option (list ascii) :=
  match r with
  | "y"%char :: "p"%char :: "o"%char :: "C"%char :: "("%char :: w :: root =>
      if isWhitespace w && forallb (fun c => negb (isLineTerminator c)) root
      then Some root else None
  | _ => None
  end.

(** [name.match (re)]: group 1 when the pattern matches.  The pattern is
    anchored at both ends and its tail is fixed by the end of the name, so
    there is one way to split the name at most. *)
Definition matchCopy (name : string) : option string :=
  match rev (list_ascii_of_string name) with
  | ")"%char :: r =>
      let (ds, rest) := spanDigits r in
      match ds, rest with
      | [], _ => option_map (fun root => string_of_list_ascii (rev root))
                            (stripOpening r)
      | _ :: _, w :: rest' =>
          if isWhitespace w
          then option_map (fun root => string_of_list_ascii (rev root))
                          (stripOpening rest')
          else None
      | _ :: _, [] => None
      end
  | _ => None
  end.

(** [match ? match[1] : original.name] *)
Definition rootName (name : string) : string :=
  match matchCopy name with
  | Some root => root
  | None => name
  end.

(* ================================================================== *)
(** * Scene-graph functions of the application component *)
(* ================================================================== *)

(** [Partial<SceneObject>]: [None] is a key the patch does not have. *)
Record Partial : Type := mkPartial {
  p_id : option string;
  p_type : option ShapeType;
  p_position : option Vector3;
  p_rotation : option Vector3;
  p_scale : option Vector3;
  p_pivot : option (option Vector3);
  p_color : option string;
  p_name : option string;
  p_children : option (option (list SceneObject));
  p_geometryData : option (option GeometryJSON);
  p_baseDimensions : option (option Vector3)
}.

Definition orElse {A : Type} (patch : option A) (old : A) : A :=
  match patch with
  | Some v => v
  | None => old
  end.

(** [{ ...obj, ...updates }] *)
Definition applyUpdates (obj : SceneObject) (updates : Partial) : SceneObject :=
  mkObject (orElse (p_id updates) (id obj))
           (orElse (p_type updates) (type obj))
           (orElse (p_position updates) (position obj))
           (orElse (p_rotation updates) (rotation obj))
           (orElse (p_scale updates) (scale obj))
           (orElse (p_pivot updates) (pivot obj))
           (orElse (p_color updates) (color obj))
           (orElse (p_name updates) (name obj))
           (orElse (p_children updates) (children obj))
           (orElse (p_geometryData updates) (geometryData obj))
           (orElse (p_baseDimensions updates) (baseDimensions obj)).

(** [{ ...obj, children: cs }] *)
Definition withChildren (obj : SceneObject) (cs : option (list SceneObject))
  : SceneObject :=
  mkObject (id obj) (type obj) (position obj) (rotation obj) (scale obj)
           (pivot obj) (color obj) (name obj) cs
           (geometryData obj) (baseDimensions obj).

(** [{ ...obj, position: p }] *)
Definition withPosition (obj : SceneObject) (p : Vector3) : SceneObject :=
  mkObject (id obj) (type obj) p (rotation obj) (scale obj)
           (pivot obj) (color obj) (name obj) (children obj)
           (geometryData obj) (baseDimensions obj).

(** The callback of [updateObjectRecursive]'s [map]. *)
Fixpoint updateObject (i : string) (updates : Partial) (obj : SceneObject)
  : SceneObject :=
  if id obj =? i then applyUpdates obj updates
  else
    match children obj with
    | Some cs => withChildren obj (Some (map (updateObject i updates) cs))
    | None => obj
    end.

Definition updateObjectRecursive (objs : list SceneObject) (i : string)
    (updates : Partial) : list SceneObject :=
  map (updateObject i updates) objs.

(** [list.filter (obj => !ids.includes (obj.id)).map (callback)], in one
    pass over the list. *)
Definition filterMap (ids : list string) (callback : SceneObject -> SceneObject)
  : list SceneObject -> list SceneObject :=
  fix go (l : list SceneObject) : list SceneObject :=
    match l with
    | [] => []
    | obj :: rest =>
        if includes ids (id obj) then go rest else callback obj :: go rest
    end.

(** The callback of [deleteObjectRecursive]'s [map]. *)
Fixpoint deleteInObject (ids : list string) (obj : SceneObject) : SceneObject :=
  match children obj with
  | Some cs => withChildren obj (Some (filterMap ids (deleteInObject ids) cs))
  | None => obj
  end.

Definition deleteObjectRecursive (objs : list SceneObject) (ids : list string)
  : list SceneObject :=
  filterMap ids (deleteInObject ids) objs.

(** The first defined result of [f] along a list: the [for ... of] loop
    with its early [return]. *)
Definition firstSome {A B : Type} (f : A -> option B) : list A -> option B :=
  fix go (l : list A) : option B :=
    match l with
    | [] => None
    | a :: rest =>
        match f a with
        | Some b => Some b
        | None => go rest
        end
    end.

(** One turn of the loop of [findObjectRecursive]. *)
Fixpoint findInObject (i : string) (obj : SceneObject) : option SceneObject :=
  if id obj =? i then Some obj
  else
    match children obj with
    | Some cs => firstSome (findInObject i) cs
    | None => None
    end.

Definition findObjectRecursive (objs : list SceneObject) (i : string)
  : option SceneObject :=
  firstSome (findInObject i) objs.

(** [getAllNames]: the names met by [traverse], in the order it adds them. *)
Fixpoint namesOf (obj : SceneObject) : list string :=
  name obj ::
  match children obj with
  | Some cs => flat_map namesOf cs
  | None => []
  end.

Definition getAllNames (objs : list SceneObject) : list string :=
  flat_map namesOf objs.

(** All identifiers of a node and of a forest, at every depth. *)
Fixpoint idsOf (obj : SceneObject) : list string :=
  id obj ::
  match children obj with
  | Some cs => flat_map idsOf cs
  | None => []
  end.

Definition allIds (objs : list SceneObject) : list string :=
  flat_map idsOf objs.

(** The [while (existingNames.has (newName))] loop: [count] and [newName]
    are the loop variables, [fuel] bounds the number of turns. *)
Fixpoint uniqueNameLoop (fuel : nat) (existingNames : list string)
    (root : string) (count : nat) (newName : string) : option string :=
  if includes existingNames newName then
    match fuel with
    | O => None
    | S fuel' =>
        uniqueNameLoop fuel' existingNames root (S count)
          (root ++ " (Copy " ++ string_of_nat (S count) ++ ")")
    end
  else Some newName.

(** The name [handleDuplicateObject] gives the copy.  As many turns as
    there are names always suffice ([uniqueNameLoop_total]), so the second
    branch is never taken. *)
Definition copyName (existingNames : list string) (originalName : string)
  : string :=
  let root := rootName originalName in
  match uniqueNameLoop (List.length existingNames) existingNames root 1
                       (root ++ " (Copy)") with
  | Some newName => newName
  | None => root ++ " (Copy)"
  end.

(* ================================================================== *)
(** * The application component: state, history and commands *)
(* ================================================================== *)

Inductive NotificationType : Type := NotifyError | NotifyInfo | NotifySuccess.

(** The [useState] cells of [App] the commands read and write, and the
    number of [generateId] calls made so far. *)
Record AppState : Type := mkState {
  objects : list SceneObject;
  past : list (list SceneObject);
  future : list (list SceneObject);
  selectedIds : list string;
  notification : option (string * NotificationType);
  idCalls : nat
}.

Definition setObjects (st : AppState) (objs : list SceneObject) : AppState :=
  mkState objs (past st) (future st) (selectedIds st) (notification st)
          (idCalls st).

Definition setSelectedIds (st : AppState) (ids : list string) : AppState :=
  mkState (objects st) (past st) (future st) ids (notification st) (idCalls st).

Definition showNotification (st : AppState) (message : string)
    (kind : NotificationType) : AppState :=
  mkState (objects st) (past st) (future st) (selectedIds st)
          (Some (message, kind)) (idCalls st).

Definition setIdCalls (st : AppState) (n : nat) : AppState :=
  mkState (objects st) (past st) (future st) (selectedIds st)
          (notification st) n.

(** ** History *)

Definition saveToHistory (st : AppState) : AppState :=
  mkState (objects st) (past st ++ [objects st]) [] (selectedIds st)
          (notification st) (idCalls st).

Definition undo (st : AppState) : AppState :=
  match List.rev (past st) with
  | [] => st
  | previousState :: newPastRev =>
      mkState previousState (List.rev newPastRev) (objects st :: future st)
              (selectedIds st) (notification st) (idCalls st)
  end.

Definition redo (st : AppState) : AppState :=
  match future st with
  | [] => st
  | nextState :: newFuture =>
      mkState nextState (past st ++ [objects st]) newFuture
              (selectedIds st) (notification st) (idCalls st)
  end.

(** ** Selection *)

Definition handleSelect (i : option string) (multi : bool) (st : AppState)
  : AppState :=
  match i with
  | None => setSelectedIds st []
  | Some x =>
      if multi then
        if includes (selectedIds st) x
        then setSelectedIds st
               (filter (fun pid => negb (pid =? x)) (selectedIds st))
        else setSelectedIds st (selectedIds st ++ [x])
      else setSelectedIds st [x]
  end.

(** What the mesh-interchange loaders make of an imported file. *)
Inductive ImportOutcome : Type :=
| ImportThrows
| ImportNoGeometry
| ImportGeometry (loaded : BufferGeometry).

(** The commands of the user interface that go through the scene graph. *)
Inductive Command : Type :=
| AddShape (t : ShapeType) (newColor : string)
| UpdateObject (i : string) (updates : Partial)
| DeleteObject (i : string)
| DeleteSelected
| DuplicateObject (i : string)
| Select (i : option string) (multi : bool)
| Group
| Ungroup
| BooleanOperation (op : Operation)
| ImportModel (fileName stem : string) (parsed : ImportOutcome)
              (newColor : string).

Section Commands.

Variable ext : External.
Variable gen : nat -> string.

(** ** Object management *)

(** [handleAddShape]; [newColor] is the colour drawn with [Math.random]. *)
Definition handleAddShape (t : ShapeType) (newColor : string)
    (st : AppState) : AppState :=
  let st1 := saveToHistory st in
  let newObject :=
    mkObject (gen (idCalls st)) t (vec3 0 0 10) vzero (vec3 20 20 20)
             (Some vzero) newColor
             (typeLabel t ++ " " ++ string_of_nat (List.length (objects st) + 1))
             None None None in
  setIdCalls
    (setSelectedIds (setObjects st1 (objects st1 ++ [newObject]))
                    [id newObject])
    (S (idCalls st)).

Definition handleUpdateObject (i : string) (updates : Partial)
    (st : AppState) : AppState :=
  let st1 := saveToHistory st in
  setObjects st1 (updateObjectRecursive (objects st1) i updates).

Definition handleDeleteObject (i : string) (st : AppState) : AppState :=
  let st1 := saveToHistory st in
  setSelectedIds
    (setObjects st1 (deleteObjectRecursive (objects st1) [i]))
    (filter (fun sid => negb (sid =? i)) (selectedIds st1)).

(** [cs.map (c => clone (c))] where each call of [clone] draws
    identifiers: the call counter is handed from one element to the next. *)
Definition mapWithCounter (clone : SceneObject -> nat -> SceneObject * nat)
  : list SceneObject -> nat -> list SceneObject * nat :=
  fix go (l : list SceneObject) (k : nat) : list SceneObject * nat :=
    match l with
    | [] => ([], k)
    | c :: rest =>
        let (c', k1) := clone c k in
        let (rest', k2) := go rest k1 in
        (c' :: rest', k2)
    end.

(** [deepClone] of [handleDuplicateObject].  The identifier is drawn
    before the children are copied; [n] counts the calls so far. *)
Fixpoint deepClone (newName : string) (obj : SceneObject) (isRoot : bool)
    (n : nat) : SceneObject * nat :=
  let newId := gen n in
  let copied :=
    match children obj with
    | Some cs =>
        let (cs', n') :=
          mapWithCounter (fun c k => deepClone newName c false k) cs (S n) in
        (Some cs', n')
    | None => (None, S n)
    end in
  (mkObject newId (type obj)
     (if isRoot
      then vec3 (vx (position obj) + 5) (vy (position obj))
                (vz (position obj) + 5)
      else vec3 (vx (position obj)) (vy (position obj)) (vz (position obj)))
     (rotation obj) (scale obj)
     (Some (match pivot obj with Some pv => pv | None => vzero end))
     (color obj)
     (if isRoot then newName else name obj)
     (fst copied) (geometryData obj) (baseDimensions obj),
   snd copied).

Definition handleDuplicateObject (i : string) (st : AppState) : AppState :=
  let st1 := saveToHistory st in
  match findObjectRecursive (objects st) i with
  | None => st1
  | Some original =>
      let existingNames := getAllNames (objects st) in
      let newName := copyName existingNames (name original) in
      let (newObject, n') := deepClone newName original true (idCalls st) in
      setIdCalls
        (setSelectedIds (setObjects st1 (objects st1 ++ [newObject]))
                        [id newObject])
        n'
  end.

(** ** Grouping *)

(** [center.add (...)] over the selection, then [center.divideScalar (n)],
    which multiplies by [1 / n]. *)
Definition centerOf (selectedObjects : list SceneObject) : Vector3 :=
  let total := fold_left (fun c o => vadd c (position o)) selectedObjects vzero in
  let k := (1 / INR (List.length selectedObjects))%R in
  vec3 (vx total * k) (vy total * k) (vz total * k).

Definition handleGroup (st : AppState) : AppState :=
  if (List.length (selectedIds st) <? 2)%nat then st
  else
    let st1 := saveToHistory st in
    let selectedObjects :=
      filter (fun obj => includes (selectedIds st) (id obj)) (objects st) in
    let otherObjects :=
      filter (fun obj => negb (includes (selectedIds st) (id obj)))
             (objects st) in
    match selectedObjects with
    | [] => st1
    | _ :: _ =>
        let center := centerOf selectedObjects in
        let kids :=
          map (fun o => withPosition o (vsub (position o) center))
              selectedObjects in
        let newGroup :=
          mkObject (gen (idCalls st)) group center vzero vone (Some vzero)
                   "#ffffff"
                   ("Group " ++ string_of_nat (List.length (objects st) + 1))
                   (Some kids) None None in
        setIdCalls
          (showNotification
             (setSelectedIds (setObjects st1 (otherObjects ++ [newGroup]))
                             [id newGroup])
             "Objects grouped successfully." NotifySuccess)
          (S (idCalls st))
    end.

(** The callback of [group.children.map] in [handleUngroup]. *)
Definition ungroupChild (groupMatrix : Matrix4) (child : SceneObject)
  : SceneObject :=
  let childMatrix :=
    premultiply
      (compose (position child) (setFromEuler (rotation child)) (scale child))
      groupMatrix in
  let '(pos, euler, scl) := decomposeEuler ext childMatrix in
  mkObject (id child) (type child) pos euler scl
           (Some (match pivot child with Some pv => pv | None => vzero end))
           (color child) (name child) (children child)
           (geometryData child) (baseDimensions child).

Definition handleUngroup (st : AppState) : AppState :=
  match selectedIds st with
  | [selected] =>
      match find (fun o => id o =? selected) (objects st) with
      | Some grp =>
          match ShapeType_eqb (type grp) group, children grp with
          | true, Some kids =>
              let st1 := saveToHistory st in
              let groupMatrix :=
                compose (position grp) (setFromEuler (rotation grp))
                        (scale grp) in
              let newChildren := map (ungroupChild groupMatrix) kids in
              let otherObjects :=
                filter (fun o => negb (id o =? id grp)) (objects st) in
              showNotification
                (setSelectedIds (setObjects st1 (otherObjects ++ newChildren))
                                (map id newChildren))
                "Group ungrouped." NotifySuccess
          | _, _ => st
          end
      | None => st
      end
  | _ => st
  end.

(** ** Boolean operations *)

Definition performBooleanOperation (op : Operation) (st : AppState)
  : AppState :=
  match selectedIds st with
  | [idA; idB] =>
      match findObjectRecursive (objects st) idA,
            findObjectRecursive (objects st) idB with
      | Some objA, Some objB =>
          if ShapeType_eqb (type objA) group || ShapeType_eqb (type objB) group
          then showNotification st
                 "Boolean operations are not supported on Groups yet. Please ungroup them first."
                 NotifyError
          else
            match executeBooleanOperation ext gen objA objB op (idCalls st) with
            | (Some result, _, n') =>
                let st1 := saveToHistory st in
                let objectsWithoutOriginals :=
                  deleteObjectRecursive (objects st) [idA; idB] in
                setIdCalls
                  (showNotification
                     (setSelectedIds
                        (setObjects st1 (objectsWithoutOriginals ++ [result]))
                        [id result])
                     "Boolean operation successful!" NotifySuccess)
                  n'
            | (None, err, _) =>
                showNotification st
                  ("Boolean operation failed: " ++
                   match err with
                   | Some e => if e =? "" then "Unknown error" else e
                   | None => "Unknown error"
                   end)
                  NotifyError
            end
      | _, _ =>
          showNotification st "Selected objects could not be found."
                           NotifyError
      end
  | _ =>
      showNotification st
        "Please select exactly two objects for this operation." NotifyError
  end.

(** [handleBooleanOperation]: the guard, then the deferred call. *)
Definition handleBooleanOperation (op : Operation) (st : AppState)
  : AppState :=
  match selectedIds st with
  | [_; _] => performBooleanOperation op st
  | _ => st
  end.

(** [onDeleteSelected]: every [handleDeleteObject] call and the final
    [saveToHistory] run in one event, on the same captured [objects]. *)
Definition onDeleteSelected (st : AppState) : AppState :=
  mkState
    (fold_left (fun objs i => deleteObjectRecursive objs [i])
               (selectedIds st) (objects st))
    (past st ++ repeat (objects st) (List.length (selectedIds st) + 1))
    []
    (fold_left (fun sel i => filter (fun sid => negb (sid =? i)) sel)
               (selectedIds st) (selectedIds st))
    (notification st) (idCalls st).

(** ** Import *)

(** [geometry.center ()] *)
Definition center (g : BufferGeometry) : BufferGeometry :=
  let c := getCenter (computeBoundingBox g) in
  translate (vec3 (- vx c) (- vy c) (- vz c)) g.

(** [x || 1] *)
Definition or1 (x : R) : R := if Req_dec_T x 0 then 1 else x.

(** [handleImportModel] from the point where the file has been read:
    [fileName] is [file.name], [stem] is the name without its extension
    and [parsed] is what the STL or OBJ loader made of the content. *)
Definition handleImportModel (fileName stem : string)
    (parsed : ImportOutcome) (newColor : string) (st : AppState) : AppState :=
  match parsed with
  | ImportThrows =>
      showNotification st "Error importing model file." NotifyError
  | ImportNoGeometry =>
      showNotification st "Failed to extract geometry from file." NotifyError
  | ImportGeometry loaded =>
      let geometry := center loaded in
      let size := getSize (computeBoundingBox geometry) in
      let st1 := saveToHistory st in
      let newObject :=
        mkObject (gen (idCalls st)) custom
                 (vec3 0 0 (vz size / 2)) vzero vone (Some vzero)
                 newColor stem None (Some (toJSON geometry))
                 (Some (vec3 (or1 (vx size)) (or1 (vy size)) (or1 (vz size)))) in
      setIdCalls
        (showNotification
           (setSelectedIds (setObjects st1 (objects st1 ++ [newObject]))
                           [id newObject])
           ("Imported " ++ fileName) NotifySuccess)
        (S (idCalls st))
  end.

(** ** Commands *)

(** One user command. *)
Definition run (c : Command) : AppState -> AppState :=
  match c with
  | AddShape t newColor => handleAddShape t newColor
  | UpdateObject i updates => handleUpdateObject i updates
  | DeleteObject i => handleDeleteObject i
  | DeleteSelected => onDeleteSelected
  | DuplicateObject i => handleDuplicateObject i
  | Select i multi => handleSelect i multi
  | Group => handleGroup
  | Ungroup => handleUngroup
  | BooleanOperation op => handleBooleanOperation op
  | ImportModel fileName stem parsed newColor =>
      handleImportModel fileName stem parsed newColor
  end.

(** A sequence of commands, the first of the list first. *)
Definition runAll (cs : list Command) (st : AppState) : AppState :=
  fold_left (fun s c => run c s) cs st.

(** The outcome of the boolean engine for the current selection, when the
    command gets as far as calling it. *)
Definition combineSelected (op : Operation) (st : AppState)
  : option (option SceneObject * option string * nat) :=
  match selectedIds st with
  | [idA; idB] =>
      match findObjectRecursive (objects st) idA,
            findObjectRecursive (objects st) idB with
      | Some objA, Some objB =>
          if ShapeType_eqb (type objA) group || ShapeType_eqb (type objB) group
          then None
          else Some (executeBooleanOperation ext gen objA objB op (idCalls st))
      | _, _ => None
      end
  | _ => None
  end.

(** Whether command [c], issued in state [st], is a mutating one: whether
    its handler reaches [saveToHistory]. *)
Definition mutating (c : Command) (st : AppState) : bool :=
  match c with
  | AddShape _ _ | UpdateObject _ _ | DeleteObject _ | DeleteSelected
  | DuplicateObject _ => true
  | Select _ _ => false
  | Group => negb (List.length (selectedIds st) <? 2)%nat
  | Ungroup =>
      match selectedIds st with
      | [selected] =>
          match find (fun o => id o =? selected) (objects st) with
          | Some grp =>
              match ShapeType_eqb (type grp) group, children grp with
              | true, Some _ => true
              | _, _ => false
              end
          | None => false
          end
      | _ => false
      end
  | BooleanOperation op =>
      match combineSelected op st with
      | Some (Some _, _, _) => true
      | _ => false
      end
  | ImportModel _ _ parsed _ =>
      match parsed with
      | ImportGeometry _ => true
      | _ => false
      end
  end.

(** How many commands of a sequence are mutating ones, each judged in the
    state it is issued in. *)
Fixpoint mutations (cs : list Command) (st : AppState) : nat :=
  match cs with
  | [] => 0
  | c :: rest =>
      (if mutating c st then 1 else 0) + mutations rest (run c st)
  end.

End Commands.

(* ================================================================== *)
(** * Induction over scene objects *)
(* ================================================================== *)

Section SceneObjectInduction.

Variable P : SceneObject -> Prop.

Hypothesis step :
  forall obj : SceneObject,
    (forall cs, children obj = Some cs -> Forall P cs) -> P obj.

Fixpoint SceneObject_nested_ind (obj : SceneObject) : P obj :=
  step obj
    (match obj as o
           return forall cs, children o = Some cs -> Forall P cs with
     | mkObject _ _ _ _ _ _ _ _ kids _ _ =>
         match kids as k return forall cs, k = Some cs -> Forall P cs with
         | None => fun cs (e : None = Some cs) =>
             match e in _ = y
                   return match y with Some _ => Forall P cs | None => True end
             with eq_refl => I end
         | Some l => fun cs (e : Some l = Some cs) =>
             match e in _ = y
                   return match y with Some c => Forall P c | None => True end
             with
             | eq_refl =>
                 (fix all (l : list SceneObject) : Forall P l :=
                    match l with
                    | [] => Forall_nil P
                    | c :: rest =>
                        Forall_cons c (SceneObject_nested_ind c) (all rest)
                    end) l
             end
         end
     end).

End SceneObjectInduction.

(* ================================================================== *)
(** * Vocabulary of the properties *)
(* ================================================================== *)

(** Every node of a tree and of a forest, at every depth, parents first. *)
Fixpoint nodesOf (obj : SceneObject) : list SceneObject :=
  obj ::
  match children obj with
  | Some cs => flat_map nodesOf cs
  | None => []
  end.

Definition allNodes (objs : list SceneObject) : list SceneObject :=
  flat_map nodesOf objs.

(** The three ways for a geometry to fail validation: no position buffer,
    fewer than three vertices (nine buffer entries), a non-finite entry. *)
Definition invalidGeometry (g : BufferGeometry) : Prop :=
  attributes_position g = None \/
  (exists ps, attributes_position g = Some ps /\ List.length ps < 9) \/
  (exists ps x, attributes_position g = Some ps /\ In x ps /\ isFinite x = false).

(** The ways for a combine of two leaf operands to fail: a mesh cannot be
    created, the combinator throws or returns nothing, or its result does
    not pass validation. *)
Definition combineFails (ext : External) (objA objB : SceneObject)
    (op : Operation) : Prop :=
  createMeshFromObject ext objA = None \/
  createMeshFromObject ext objB = None \/
  exists a b,
    createMeshFromObject ext objA = Some a /\
    createMeshFromObject ext objB = Some b /\
    match csg ext op a b with
    | Thrown _ => True
    | Returned None => True
    | Returned (Some resultMesh) =>
        validateGeometry (mesh_geometry resultMesh) = false
    end.

(** The node's own transform, with the scale the boolean engine reads:
    the [T(node)] of the world-placement rule. *)
Definition engineTransform (obj : SceneObject) : Matrix4 :=
  compose (position obj) (setFromEuler (rotation obj))
          (vec3 (scaleFloor (vx (scale obj))) (scaleFloor (vy (scale obj)))
                (scaleFloor (vz (scale obj)))).

(** [obj.pivot || [0, 0, 0]] *)
Definition pivotOf (obj : SceneObject) : Vector3 :=
  match pivot obj with
  | Some pv => pv
  | None => vzero
  end.

(** The squared norm of a quaternion. *)
Definition qnorm2 (q : Quaternion) : R :=
  (qx q * qx q + qy q * qy q + qz q * qz q + qw q * qw q)%R.

(** The closed form of the inverse of [compose p q s] for a unit quaternion
    and a scale without a zero: scale back, rotate back, translate back. *)
Definition composeInverse (p : Vector3) (q : Quaternion) (s : Vector3)
  : Matrix4 :=
  let r := compose vzero q vone in
  let a11 := (n11 r / vx s)%R in
  let a12 := (n21 r / vx s)%R in
  let a13 := (n31 r / vx s)%R in
  let a21 := (n12 r / vy s)%R in
  let a22 := (n22 r / vy s)%R in
  let a23 := (n32 r / vy s)%R in
  let a31 := (n13 r / vz s)%R in
  let a32 := (n23 r / vz s)%R in
  let a33 := (n33 r / vz s)%R in
  mat4 a11 a12 a13 (- (a11 * vx p + a12 * vy p + a13 * vz p))%R
       a21 a22 a23 (- (a21 * vx p + a22 * vy p + a23 * vz p))%R
       a31 a32 a33 (- (a31 * vx p + a32 * vy p + a33 * vz p))%R.

(** The squared length of the first, second and third column of the linear
    part: what [Matrix4.decompose] takes the square root of to read the
    scale back. *)
Definition columnLength2 (m : Matrix4) : Vector3 :=
  vec3 (n11 m * n11 m + n21 m * n21 m + n31 m * n31 m)%R
       (n12 m * n12 m + n22 m * n22 m + n32 m * n32 m)%R
       (n13 m * n13 m + n23 m * n23 m + n33 m * n33 m)%R.

(** The [k]-th name the loop of [handleDuplicateObject] tries, [k >= 1]. *)
Definition candidate (root : string) (k : nat) : string :=
  match k with
  | 0 | 1 => root ++ " (Copy)"
  | _ => root ++ " (Copy " ++ string_of_nat k ++ ")"
  end.

(** No unit of the string is a line terminator: [.*] can run over it. *)
Definition singleLine (s : string) : Prop :=
  forallb (fun c => negb (isLineTerminator c)) (list_ascii_of_string s) = true.

(** A non-empty string of decimal digits: what [\d+] matches as a whole. *)
Definition digitString (s : string) : Prop :=
  s <> "" /\ forallb isDigit (list_ascii_of_string s) = true.

(** Identifier [i] is one the generator returned in its first [n] calls. *)
Definition issuedBefore (gen : nat -> string) (n : nat) (i : string) : Prop :=
  exists k, k < n /\ i = gen k.

(** The identifiers of a forest are pairwise distinct and were all drawn
    from the generator. *)
Definition distinctIds (gen : nat -> string) (n : nat) (ids : list string)
  : Prop :=
  NoDup ids /\ forall i, In i ids -> issuedBefore gen n i.

(** The invariant of the forest held by a state. *)
Definition wellIdentified (gen : nat -> string) (st : AppState) : Prop :=
  distinctIds gen (idCalls st) (allIds (objects st)).

(** [kept] holds some of the elements of [old], each as often at most. *)
Definition subMultiset {A : Type} (kept old : list A) : Prop :=
  exists dropped, Permutation old (kept ++ dropped).

(** The commands that leave identifiers alone or draw them from the
    generator; a property patch may write any identifier. *)
Definition drawsIds (c : Command) : bool :=
  match c with
  | UpdateObject _ _ => false
  | _ => true
  end.

(* ================================================================== *)
(** * Parameters and scenes for evaluation *)
(* ================================================================== *)

(** An identifier generator that numbers its calls. *)
Definition counterId (k : nat) : string := "id" ++ string_of_nat k.

(** A library instance whose combinator hands back a fixed outcome; the
    curved primitives are not needed where it is used and are boxes. *)
Definition externalWith (outcome : CsgOutcome) : External :=
  mkExternal (BoxGeometry 1 1 1) (BoxGeometry 1 1 1) (BoxGeometry 1 1 1)
             (BoxGeometry 1 1 1)
             (fun _ _ => outcome) (fun _ _ => outcome) (fun _ _ => outcome)
             (fun m => (vec3 (n14 m) (n24 m) (n34 m), vzero, vone)).

(** The state [App] starts in. *)
Definition emptyState : AppState := mkState [] [] [] [] None 0.

(** A box node with neutral rotation and pivot. *)
Definition boxAt (i nm : string) (p s : Vector3) : SceneObject :=
  mkObject i box p vzero s (Some vzero) "#808080" nm None None None.

(** A scene of one box, with one undone graph waiting in [future]. *)
Definition oneBoxState : AppState :=
  mkState [boxAt "a" "Box 1" (vec3 0 0 10) (vec3 20 20 20)] [] [[]] [] None 1.

(** Two boxes, both selected. *)
Definition twoBoxState : AppState :=
  mkState [boxAt "a" "Box 1" vzero vone; boxAt "b" "Box 2" (vec3 4 0 0) vone]
          [] [[]] ["a"; "b"] None 2.

(** A mesh without a single vertex: what a combinator hands back when
    nothing is left of the operands. *)
Definition emptyMesh : Mesh :=
  mkMesh (mkGeometry (Some [])) vzero qidentity vone.

(** A box whose [scale] has a zero, a tiny negative and an ordinary
    component. *)
Definition flatBox : SceneObject :=
  boxAt "a" "Box 1" (vec3 1 2 3) (vec3 0 (- (1 / 2000)) 5).

(** A box at the origin, twice the unit size, with its pivot one unit
    along x. *)
Definition pivotBox : SceneObject :=
  mkObject "a" box vzero vzero (vec3 2 2 2) (Some (vec3 1 0 0)) "#808080"
           "Box 1" None None None.

(** A corner of the unit box. *)
Definition corner : Vector3 := vec3 (1 / 2) (1 / 2) (1 / 2).

(** World-space result of uniting unit boxes at (0,0,0) and (4,0,0),
    reduced to one triangle that spans its bounding box: center (2,0,0),
    extents (5,1,1). *)
Definition unionGeometry : BufferGeometry :=
  mkGeometry (Some [ Fin (- (1 / 2)); Fin (- (1 / 2)); Fin (- (1 / 2));
                     Fin (9 / 2); Fin (1 / 2); Fin (1 / 2);
                     Fin (9 / 2); Fin (- (1 / 2)); Fin (1 / 2) ]).

(** The mesh a combinator returns for that union when operand A sits at
    the origin with unit scale: the geometry is in world space. *)
Definition unionMesh : Mesh := mkMesh unionGeometry vzero qidentity vone.

(** A custom mesh whose serialized buffer holds two vertices only. *)
Definition shortCustom : SceneObject :=
  mkObject "c" custom vzero vzero vone (Some vzero) "#808080" "Mesh" None
           (Some (mkJSON (Some (Some [ Fin 0; Fin 0; Fin 0;
                                       Fin 1; Fin 0; Fin 0 ]))))
           (Some vone).

(* ================================================================== *)
(** * More of the application component *)
(* ================================================================== *)

(** [canUndo={past.length > 0}], [canRedo={future.length > 0}] *)
Definition canUndo (st : AppState) : bool :=
  negb (List.length (past st) =? 0)%nat.

Definition canRedo (st : AppState) : bool :=
  negb (List.length (future st) =? 0)%nat.

(** [canBoolean]: two selected identifiers, both found, neither a group. *)
Definition canBoolean (st : AppState) : bool :=
  match selectedIds st with
  | [idA; idB] =>
      match findObjectRecursive (objects st) idA,
            findObjectRecursive (objects st) idB with
      | Some a, Some b =>
          negb (ShapeType_eqb (type a) group)
          && negb (ShapeType_eqb (type b) group)
      | _, _ => false
      end
  | _ => false
  end.

(** The snapshots of a state in time order: the undo stack, the current
    graph, the redo stack. *)
Definition timeline (st : AppState) : list (list SceneObject) :=
  past st ++ objects st :: future st.

(** What the user does next: a command, Ctrl+Z or Ctrl+Y. *)
Inductive Action : Type :=
| Do (c : Command)
| UndoAction
| RedoAction.

Definition perform (ext : External) (gen : nat -> string) (a : Action)
  : AppState -> AppState :=
  match a with
  | Do c => run ext gen c
  | UndoAction => undo
  | RedoAction => redo
  end.

Definition performAll (ext : External) (gen : nat -> string)
    (actions : list Action) (st : AppState) : AppState :=
  fold_left (fun s a => perform ext gen a s) actions st.

(** A patch that leaves the identifier and the children of a node alone:
    the kind every caller of [onUpdate] builds. *)
Definition keepsStructure (updates : Partial) : bool :=
  match p_id updates, p_children updates with
  | None, None => true
  | _, _ => false
  end.

(** The actions under which identifiers are never written by hand. *)
Definition safeAction (a : Action) : bool :=
  match a with
  | Do (UpdateObject _ updates) => keepsStructure updates
  | _ => true
  end.

(** How many snapshots the handler of a command pushes onto [past]. *)
Definition snapshotsPushed (ext : External) (gen : nat -> string) (c : Command)
    (st : AppState) : nat :=
  match c with
  | DeleteSelected => List.length (selectedIds st) + 1
  | _ => if mutating ext gen c st then 1 else 0
  end.

(** Every snapshot of the timeline has pairwise distinct identifiers, all
    drawn from the generator. *)
Definition everywhereDistinct (gen : nat -> string) (st : AppState) : Prop :=
  forall snapshot, In snapshot (timeline st) ->
                   distinctIds gen (idCalls st) (allIds snapshot).



(** The three notifications of [performBooleanOperation] that precede the
    call of the engine. *)
Definition preconditionMessages : list string :=
  [ "Please select exactly two objects for this operation.";
    "Selected objects could not be found.";
    "Boolean operations are not supported on Groups yet. Please ungroup them first." ].

(** World matrix of the wrapper of a child of a group: [SceneNode] nests
    the wrapper [<group>] of the child in the wrapper of the group, and the
    world matrix of a nested object is the parent's times its own. *)
Definition childWorldMatrix (grp child : SceneObject) : Matrix4 :=
  multiplyMatrices (wrapperMatrix grp) (wrapperMatrix child).

(** The roots [handleGroup] collects in [selectedObjects] and in
    [otherObjects]. *)
Definition selectedRoots (st : AppState) : list SceneObject :=
  filter (fun obj => includes (selectedIds st) (id obj)) (objects st).

Definition otherRoots (st : AppState) : list SceneObject :=
  filter (fun obj => negb (includes (selectedIds st) (id obj))) (objects st).

(** [Matrix4.decompose] and [Euler.setFromQuaternion] read the node's own
    position, rotation and scale back from its matrix. *)
Definition decomposesBack (ext : External) (o : SceneObject) : Prop :=
  decomposeEuler ext (wrapperMatrix o) = (position o, rotation o, scale o).

(** A box moved by [t]: [Box3.translate]. *)
Definition box_translate (b : Box3) (t : Vector3) : Box3 :=
  match b with
  | None => None
  | Some (lo, hi) => Some (vadd lo t, vadd hi t)
  end.

(** The vertices of a geometry's position buffer. *)
Definition geometryVertices (g : BufferGeometry) : list Vector3 :=
  match attributes_position g with
  | None => []
  | Some positions => vertices positions
  end.

(** Point [v] lies in the box with corners [lo] and [hi]. *)
Definition containsPoint (lo hi v : Vector3) : Prop :=
  (vx lo <= vx v <= vx hi /\ vy lo <= vy v <= vy hi /\
   vz lo <= vz v <= vz hi)%R.

(* ================================================================== *)
(** * The properties panel ([PropertiesPanel]) *)
(* ================================================================== *)

(** [v[axisIndex]] and [newVector[axisIndex] = x] for the index of one of
    the three entries of [AXIS_CONFIG]. *)
Definition axisOf (v : Vector3) (axisIndex : Axis) : R :=
  match axisIndex with
  | AxisX => vx v
  | AxisY => vy v
  | AxisZ => vz v
  end.

Definition setAxis (v : Vector3) (axisIndex : Axis) (x : R) : Vector3 :=
  match axisIndex with
  | AxisX => vec3 x (vy v) (vz v)
  | AxisY => vec3 (vx v) x (vz v)
  | AxisZ => vec3 (vx v) (vy v) x
  end.

Definition Axis_eqb (a b : Axis) : bool :=
  match a, b with
  | AxisX, AxisX | AxisY, AxisY | AxisZ, AxisZ => true
  | _, _ => false
  end.

Inductive VectorKey : Type :=
| KeyPosition | KeyRotation | KeyScale | KeyPivot.

(** The patch without a key. *)
Definition noUpdates : Partial :=
  mkPartial None None None None None None None None None None None.

(** [handleVectorChange]: the arguments it calls [onUpdate] with. *)
Definition handleVectorChange (selectedObject : SceneObject)
    (vectorKey : VectorKey) (axisIndex : Axis) (value : R)
  : string * Partial :=
  let old :=
    match vectorKey with
    | KeyPosition => position selectedObject
    | KeyRotation => rotation selectedObject
    | KeyScale => scale selectedObject
    | KeyPivot =>
        match pivot selectedObject with Some pv => pv | None => vzero end
    end in
  let newVector :=
    setAxis old axisIndex
      match vectorKey with
      | KeyRotation => (value * PI / 180)%R
      | _ => value
      end in
  (id selectedObject,
   match vectorKey with
   | KeyPosition =>
       mkPartial None None (Some newVector) None None None None None None
                 None None
   | KeyRotation =>
       mkPartial None None None (Some newVector) None None None None None
                 None None
   | KeyScale =>
       mkPartial None None None None (Some newVector) None None None None
                 None None
   | KeyPivot =>
       mkPartial None None None None None (Some (Some newVector)) None None
                 None None None
   end).

(** [Math.round]: the nearest integer, halves going up. *)
Definition Math_round (x : R) : R := IZR (Int_part (x + 1 / 2)).

(** [Math.trunc], which the remainder operator rounds its quotient with. *)
Definition Math_trunc (x : R) : R :=
  if Rle_dec 0 x then IZR (Int_part x) else (- IZR (Int_part (- x)))%R.

(** [a % b] on finite numbers, [b] not zero: the sign is the dividend's. *)
Definition remainder (a b : R) : R := (a - b * Math_trunc (a / b))%R.

(** [toDegrees] *)
Definition toDegrees (rad : R) : R :=
  let deg := (rad * 180 / PI)%R in
  let deg := (Math_round (deg * 100) / 100)%R in
  let deg := remainder deg 360 in
  if Rlt_dec deg 0 then (deg + 360)%R else deg.




(** [primarySelectedObject] of [App], the [selectedObject] of the panel. *)
Definition primarySelectedObject (st : AppState) : option SceneObject :=
  match selectedIds st with
  | [i] => findObjectRecursive (objects st) i
  | _ => None
  end.


(** Typing [value] into the field of axis [i] of one of the vectors. *)
Definition editVector (vectorKey : VectorKey) (i : Axis) (value : R)
    (st : AppState) : AppState :=
  match primarySelectedObject st with
  | Some selectedObject =>
      let (target, updates) :=
        handleVectorChange selectedObject vectorKey i value in
      handleUpdateObject target updates st
  | None => st
  end.

(** What a copy keeps of a node: everything but the identifier, the name
    and the position, and of the children their number. *)
Definition appearance (o : SceneObject)
  : ShapeType * Vector3 * Vector3 * Vector3 * string
    * option GeometryJSON * option Vector3 * option nat :=
  (type o, rotation o, scale o, pivotOf o, color o, geometryData o,
   baseDimensions o, option_map (@List.length SceneObject) (children o)).

(* ================================================================== *)
(** * More scenes for evaluation *)
(* ================================================================== *)

(** A patch that renames a node. *)
Definition renamePatch : Partial :=
  mkPartial None None None None None None None (Some "Cube") None None None.

(** One box, selected: the properties panel shows its fields. *)
Definition selectedBoxState : AppState :=
  mkState [boxAt "a" "Box 1" (vec3 0 0 10) (vec3 20 20 20)] [] [] ["a"]
          None 1.

(** A group of two boxes; the boxes inside are the selection. *)
Definition nestedState : AppState :=
  mkState [mkObject "g" group vzero vzero vone (Some vzero) "#ffffff"
                    "Group 1"
                    (Some [boxAt "a" "Box 1" vzero vone;
                           boxAt "b" "Box 2" (vec3 4 0 0) vone])
                    None None]
          [] [] ["a"; "b"] None 3.

(* ================================================================== *)
(** * Properties *)
(* ================================================================== *)

(* ================================================================== *)
(** * History stack *)
(* ================================================================== *)

Lemma state_eq (a b : AppState) :
  objects a = objects b -> past a = past b -> future a = future b ->
  selectedIds a = selectedIds b -> notification a = notification b ->
  idCalls a = idCalls b -> a = b.
Proof.
  destruct a, b; simpl; intros; subst; reflexivity.
Qed.

Lemma undo_snoc (st : AppState) (older : list (list SceneObject))
    (previousState : list SceneObject) :
  past st = older ++ [previousState] ->
  undo st = mkState previousState older (objects st :: future st)
                    (selectedIds st) (notification st) (idCalls st).
Proof.
  intros Hp. unfold undo. rewrite Hp, rev_app_distr. simpl.
  now rewrite rev_involutive.
Qed.

(** [redo] takes back what an effective [undo] did. *)
Lemma redo_undo (st : AppState) :
  past st <> [] -> redo (undo st) = st.
Proof.
  intros Hne.
  destruct (exists_last Hne) as (older & [previousState Hp]).
  rewrite (undo_snoc st _ _ Hp). unfold redo; simpl.
  apply state_eq; simpl; auto.
Qed.

Lemma undo_past_length (st : AppState) :
  List.length (past (undo st)) = pred (List.length (past st)).
Proof.
  unfold undo. destruct (List.rev (past st)) as [|x l] eqn:E;
    apply (f_equal (@List.rev _)) in E; rewrite rev_involutive in E.
  - rewrite E. reflexivity.
  - simpl in *. rewrite E, length_app. simpl. lia.
Qed.

Lemma redo_undo_iter (n : nat) :
  forall st : AppState,
    n <= List.length (past st) ->
    Nat.iter n redo (Nat.iter n undo st) = st.
Proof.
  induction n as [|n IH]; intros st Hn; [reflexivity|].
  replace (Nat.iter (S n) undo st) with (Nat.iter n undo (undo st))
    by (symmetry; apply Nat.iter_succ_r).
  simpl.
  rewrite IH.
  - apply redo_undo. destruct (past st); simpl in *; [lia | discriminate].
  - rewrite undo_past_length. lia.
Qed.

Section CommandFacts.

Variable ext : External.
Variable gen : nat -> string.

Lemma saveToHistory_objects (st : AppState) :
  objects (saveToHistory st) = objects st.
Proof. reflexivity. Qed.

(** What a command that is not a mutating one leaves alone. *)
Lemma not_mutating_frame (c : Command) (st : AppState) :
  mutating ext gen c st = false ->
  objects (run ext gen c st) = objects st /\
  past (run ext gen c st) = past st /\
  future (run ext gen c st) = future st /\
  idCalls (run ext gen c st) = idCalls st.
Proof.
  destruct c; simpl; try discriminate.
  - (* Select *)
    intros _. unfold handleSelect.
    destruct i as [x|]; [destruct multi; [destruct (includes _ _)|]|];
      simpl; auto.
  - (* Group *)
    unfold handleGroup. intros H.
    destruct (List.length (selectedIds st) <? 2)%nat; [auto | discriminate].
  - (* Ungroup *)
    unfold handleUngroup.
    destruct (selectedIds st) as [|selected [|? ?]]; auto.
    destruct (find _ _) as [grp|]; auto.
    destruct (ShapeType_eqb (type grp) group); auto.
    destruct (children grp); auto. discriminate.
  - (* BooleanOperation *)
    unfold handleBooleanOperation, performBooleanOperation, combineSelected.
    destruct (selectedIds st) as [|idA [|idB [|? ?]]]; auto.
    destruct (findObjectRecursive (objects st) idA) as [objA|];
      [|simpl; auto].
    destruct (findObjectRecursive (objects st) idB) as [objB|];
      [|simpl; auto].
    destruct (_ || _); [simpl; auto|].
    destruct (executeBooleanOperation _ _ _ _ _ _) as [[[result|] err] n'];
      [discriminate | simpl; auto].
  - (* ImportModel *)
    destruct parsed; simpl; auto. discriminate.
Qed.

(** A mutating command pushes the graph it found onto [past], at least
    once, and empties [future]. *)
Lemma mutating_history (c : Command) (st : AppState) :
  mutating ext gen c st = true ->
  exists k : nat,
    past (run ext gen c st) = past st ++ repeat (objects st) (S k) /\
    future (run ext gen c st) = [].
Proof.
  destruct c; simpl; try discriminate.
  - intros _. exists 0. auto.
  - intros _. exists 0. auto.
  - intros _. exists 0. auto.
  - intros _. exists (List.length (selectedIds st)).
    rewrite Nat.add_1_r. auto.
  - intros _. exists 0. unfold handleDuplicateObject.
    destruct (findObjectRecursive _ _); [|auto].
    destruct (deepClone _ _ _ _ _); auto.
  - unfold handleGroup.
    destruct (List.length (selectedIds st) <? 2)%nat; [discriminate|].
    intros _. exists 0. destruct (filter _ _); auto.
  - unfold handleUngroup.
    destruct (selectedIds st) as [|selected [|? ?]]; try discriminate.
    destruct (find _ _) as [grp|]; try discriminate.
    destruct (ShapeType_eqb (type grp) group); try discriminate.
    destruct (children grp); try discriminate.
    intros _. exists 0. auto.
  - unfold handleBooleanOperation, performBooleanOperation, combineSelected.
    destruct (selectedIds st) as [|idA [|idB [|? ?]]]; try discriminate.
    destruct (findObjectRecursive (objects st) idA) as [objA|];
      try discriminate.
    destruct (findObjectRecursive (objects st) idB) as [objB|];
      try discriminate.
    destruct (_ || _); try discriminate.
    destruct (executeBooleanOperation _ _ _ _ _ _) as [[[result|] err] n'];
      try discriminate.
    intros _. exists 0. auto.
  - destruct parsed; try discriminate. intros _. exists 0. auto.
Qed.

Lemma run_past_length (c : Command) (st : AppState) :
  List.length (past st) + (if mutating ext gen c st then 1 else 0)
  <= List.length (past (run ext gen c st)).
Proof.
  destruct (mutating ext gen c st) eqn:E.
  - destruct (mutating_history c st E) as (k & Hp & _).
    rewrite Hp, length_app, repeat_length. lia.
  - destruct (not_mutating_frame c st E) as (_ & Hp & _).
    rewrite Hp. lia.
Qed.

Lemma runAll_past_length (cs : list Command) :
  forall st : AppState,
    List.length (past st) + mutations ext gen cs st
    <= List.length (past (runAll ext gen cs st)).
Proof.
  induction cs as [|c cs IH]; intros st; [simpl; lia|].
  specialize (IH (run ext gen c st)).
  pose proof (run_past_length c st).
  change (runAll ext gen (c :: cs) st)
    with (runAll ext gen cs (run ext gen c st)).
  cbn [mutations]. lia.
Qed.

End CommandFacts.

(* ================================================================== *)
(** * Lookup and identifiers *)
(* ================================================================== *)

Lemma validateGeometry_box :
  validateGeometry (BoxGeometry 1 1 1) = true.
Proof. reflexivity. Qed.

Lemma firstSome_none {A B : Type} (f : A -> option B) (l : list A) :
  Forall (fun a => f a = None) l -> firstSome f l = None.
Proof.
  induction 1 as [|a l Ha _ IH]; simpl; [reflexivity|].
  now rewrite Ha.
Qed.

Lemma findInObject_absent (i : string) (obj : SceneObject) :
  ~ In i (idsOf obj) -> findInObject i obj = None.
Proof.
  induction obj as [obj IH] using SceneObject_nested_ind.
  destruct obj as [oid t p r s pv c n kids g b]; simpl in *.
  intros Hnot.
  destruct (String.eqb_spec oid i) as [->|_]; [tauto|].
  destruct kids as [cs|]; [|reflexivity].
  apply firstSome_none.
  specialize (IH cs eq_refl).
  assert (Hcs : ~ In i (flat_map idsOf cs)) by tauto.
  clear Hnot. induction IH as [|a l Ha _ IHl]; constructor.
  - apply Ha. intros Hin. apply Hcs. simpl. apply in_or_app. now left.
  - apply IHl. intros Hin. apply Hcs. simpl. apply in_or_app. now right.
Qed.

Lemma findObjectRecursive_absent (i : string) (objs : list SceneObject) :
  ~ In i (allIds objs) -> findObjectRecursive objs i = None.
Proof.
  intros Hnot. apply firstSome_none.
  induction objs as [|a l IH]; constructor.
  - apply findInObject_absent. intros Hin. apply Hnot.
    unfold allIds; simpl. apply in_or_app. now left.
  - apply IH. intros Hin. apply Hnot.
    unfold allIds; simpl. apply in_or_app. now right.
Qed.

(* ================================================================== *)
(** * Duplicating an unknown identifier *)
(* ================================================================== *)

(** C10. Duplicating an identifier that occurs nowhere in the forest leaves
    the forest as it is and returns normally, yet the current graph is
    pushed onto [past] and [future] is emptied: the command that changed
    nothing is a history entry ([undo] steps back to the same graph) and the
    pending redos are gone. *)
Theorem duplicate_unknown_id_pushes_history :
  forall (gen : nat -> string) (i : string) (st : AppState),
    ~ In i (allIds (objects st)) ->
    objects (handleDuplicateObject gen i st) = objects st /\
    past (handleDuplicateObject gen i st) = past st ++ [objects st] /\
    future (handleDuplicateObject gen i st) = [] /\
    undo (handleDuplicateObject gen i st)
    = mkState (objects st) (past st) [objects st] (selectedIds st)
              (notification st) (idCalls st).
Proof.
  intros gen i st Hnot. unfold handleDuplicateObject.
  rewrite (findObjectRecursive_absent i (objects st) Hnot).
  repeat split.
  apply (undo_snoc (saveToHistory st) (past st) (objects st)). reflexivity.
Qed.

Lemma duplicate_unknown_id_witness :
  objects (handleDuplicateObject counterId "zz" oneBoxState)
  = objects oneBoxState /\
  past (handleDuplicateObject counterId "zz" oneBoxState) = [objects oneBoxState] /\
  future (handleDuplicateObject counterId "zz" oneBoxState) = [].
Proof.
  destruct (duplicate_unknown_id_pushes_history counterId "zz" oneBoxState)
    as (Ho & Hp & Hf & _).
  - simpl. intros [H|[]]. discriminate H.
  - repeat split; assumption.
Defined.

(* ================================================================== *)
(** * Undo and redo after a run of commands *)
(* ================================================================== *)

(** C6. From any state, after any sequence of commands of which [N] are
    mutating ones, [N] times [undo] followed by [N] times [redo] gives back
    the state the commands reached: the same forest, equal node by node and
    identifier by identifier, and the same history. *)
Theorem undo_redo_inverse :
  forall (ext : External) (gen : nat -> string) (st : AppState)
         (cs : list Command),
    let N := mutations ext gen cs st in
    let reached := runAll ext gen cs st in
    Nat.iter N redo (Nat.iter N undo reached) = reached /\
    objects (Nat.iter N redo (Nat.iter N undo reached)) = objects reached.
Proof.
  intros ext gen st cs N reached.
  assert (H : Nat.iter N redo (Nat.iter N undo reached) = reached).
  { apply redo_undo_iter. unfold N, reached.
    pose proof (runAll_past_length ext gen cs st). lia. }
  split; [exact H | now rewrite H].
Qed.

(** A run with six mutating commands among ten: six undos lead back to the
    empty scene, six redos to the scene the run reached. *)
Example undo_redo_run :
  let cs := [ AddShape box "#336699"; DuplicateObject "id0";
              Select (Some "id0") false; Select (Some "id1") true;
              Group; DuplicateObject "id2"; Ungroup;
              Select (Some "id0") false; Select (Some "id1") true;
              BooleanOperation union ] in
  let ext := externalWith (Returned (Some unionMesh)) in
  let reached := runAll ext counterId cs emptyState in
  mutations ext counterId cs emptyState = 6 /\
  map id (allNodes (objects reached)) = ["id2"; "id4"; "id5"; "id6"] /\
  objects (Nat.iter 6 undo reached) = [] /\
  objects (Nat.iter 6 redo (Nat.iter 6 undo reached)) = objects reached.
Proof.
  intros cs ext reached.
  split; [reflexivity|]. split; [reflexivity|]. split; [reflexivity|].
  rewrite redo_undo_iter; [reflexivity|].
  apply Nat.leb_le. reflexivity.
Qed.

(* ================================================================== *)
(** * Failure paths of the boolean engine *)
(* ================================================================== *)

Section EngineFailures.

Variable ext : External.
Variable gen : nat -> string.

Lemma createMeshFromObject_valid (obj : SceneObject) (m : Mesh) :
  createMeshFromObject ext obj = Some m ->
  validateGeometry (mesh_geometry m) = true.
Proof.
  unfold createMeshFromObject.
  destruct (validateGeometry (objectGeometry ext obj)) eqn:E; simpl;
    [|discriminate].
  intros H. injection H as <-. exact E.
Qed.

Lemma performOperation_invalid (a b : Mesh) (op : Operation) :
  match csg ext op a b with
  | Thrown _ => True
  | Returned None => True
  | Returned (Some resultMesh) =>
      validateGeometry (mesh_geometry resultMesh) = false
  end ->
  isValid (performOperation ext (Some a) (Some b) op) = false.
Proof.
  unfold performOperation.
  destruct (negb _ || negb _); [reflexivity|].
  destruct (csg ext op a b) as [[resultMesh|]|message]; try reflexivity.
  intros ->. reflexivity.
Qed.

Lemma executeBooleanOperation_fails (objA objB : SceneObject) (op : Operation)
    (n : nat) :
  combineFails ext objA objB op ->
  exists err,
    executeBooleanOperation ext gen objA objB op n = (None, Some err, n).
Proof.
  unfold executeBooleanOperation.
  intros [HA | [HB | (a & b & HA & HB & Hcsg)]].
  - rewrite HA. eauto.
  - rewrite HB. destruct (createMeshFromObject ext objA); eauto.
  - rewrite HA, HB.
    pose proof (performOperation_invalid a b op Hcsg) as Hinv.
    rewrite Hinv. simpl.
    unfold performOperation in *.
    destruct (negb _ || negb _); [simpl; eauto|].
    destruct (csg ext op a b) as [[resultMesh|]|message]; simpl; eauto.
    destruct (negb (validateGeometry (mesh_geometry resultMesh)));
      [simpl; eauto | discriminate Hinv].
Qed.

(** A result object is returned only when nothing failed. *)
Lemma executeBooleanOperation_success (objA objB : SceneObject)
    (op : Operation) (n : nat) (result : SceneObject) (err : option string)
    (n' : nat) :
  executeBooleanOperation ext gen objA objB op n = (Some result, err, n') ->
  exists a b resultMesh,
    createMeshFromObject ext objA = Some a /\
    createMeshFromObject ext objB = Some b /\
    csg ext op a b = Returned (Some resultMesh) /\
    validateGeometry (mesh_geometry resultMesh) = true /\
    result = fst (createResultObject gen
                    (performOperation ext (Some a) (Some b) op) objA objB op n).
Proof.
  unfold executeBooleanOperation.
  destruct (createMeshFromObject ext objA) as [a|] eqn:HA; [|discriminate].
  destruct (createMeshFromObject ext objB) as [b|] eqn:HB; [|discriminate].
  destruct (isValid (performOperation ext (Some a) (Some b) op)) eqn:Hv;
    simpl; [|discriminate].
  intros H. injection H as <- _ _.
  exists a, b.
  unfold performOperation in Hv.
  rewrite (createMeshFromObject_valid _ _ HA),
          (createMeshFromObject_valid _ _ HB) in Hv. simpl in Hv.
  destruct (csg ext op a b) as [[resultMesh|]|message] eqn:Hc;
    try discriminate Hv.
  exists resultMesh.
  destruct (validateGeometry (mesh_geometry resultMesh)) eqn:E;
    [|discriminate Hv].
  repeat split; reflexivity.
Qed.

End EngineFailures.

(** C5. A boolean-combine command that fails (a group operand, a mesh that
    cannot be created, a combinator failure, an invalid or empty result)
    leaves the object forest, the past stack and the future stack exactly as
    they were and only posts an error notification; and whenever the command
    does change any of the three, the combine had fully succeeded and the
    change is the one graph edit: one snapshot pushed, both operands
    removed, the result appended. *)
Theorem failing_boolean_command_changes_nothing :
  forall (ext : External) (gen : nat -> string) (op : Operation)
         (st : AppState),
    let st' := performBooleanOperation ext gen op st in
    (forall idA idB objA objB,
        selectedIds st = [idA; idB] ->
        findObjectRecursive (objects st) idA = Some objA ->
        findObjectRecursive (objects st) idB = Some objB ->
        type objA = group \/ type objB = group \/ combineFails ext objA objB op ->
        objects st' = objects st /\ past st' = past st /\
        future st' = future st /\
        exists msg, st' = showNotification st msg NotifyError)
    /\
    (objects st' <> objects st \/ past st' <> past st \/
     future st' <> future st ->
     exists idA idB objA objB result err n',
       selectedIds st = [idA; idB] /\
       findObjectRecursive (objects st) idA = Some objA /\
       findObjectRecursive (objects st) idB = Some objB /\
       executeBooleanOperation ext gen objA objB op (idCalls st)
       = (Some result, err, n') /\
       objects st' = deleteObjectRecursive (objects st) [idA; idB] ++ [result] /\
       past st' = past st ++ [objects st] /\
       future st' = []).
Proof.
  intros ext gen op st st'. subst st'. split.
  - intros idA idB objA objB Hsel HA HB Hcause.
    unfold performBooleanOperation. rewrite Hsel, HA, HB.
    destruct Hcause as [Hg | [Hg | Hfail]].
    + rewrite Hg. simpl. eauto 6.
    + rewrite Hg. rewrite orb_true_r. simpl. eauto 6.
    + destruct (_ || _); [simpl; eauto 6|].
      destruct (executeBooleanOperation_fails ext gen objA objB op
                  (idCalls st) Hfail) as (err & ->).
      simpl. eauto 6.
  - unfold performBooleanOperation.
    destruct (selectedIds st) as [|idA [|idB [|? ?]]] eqn:Hsel;
      try (simpl; intros [H|[H|H]]; now elim H).
    destruct (findObjectRecursive (objects st) idA) as [objA|] eqn:HA;
      try (simpl; intros [H|[H|H]]; now elim H).
    destruct (findObjectRecursive (objects st) idB) as [objB|] eqn:HB;
      try (simpl; intros [H|[H|H]]; now elim H).
    destruct (_ || _);
      try (simpl; intros [H|[H|H]]; now elim H).
    destruct (executeBooleanOperation ext gen objA objB op (idCalls st))
      as [[[result|] err] n'] eqn:He;
      try (simpl; intros [H|[H|H]]; now elim H).
    intros _. exists idA, idB, objA, objB, result, err, n'.
    simpl. repeat split; auto.
Qed.

Lemma failing_boolean_command_witness :
  let st' := performBooleanOperation (externalWith (Returned None)) counterId
               union twoBoxState in
  objects st' = objects twoBoxState /\ past st' = past twoBoxState /\
  future st' = future twoBoxState /\
  exists msg, st' = showNotification twoBoxState msg NotifyError.
Proof.
  refine (proj1 (failing_boolean_command_changes_nothing
                   (externalWith (Returned None)) counterId union twoBoxState)
                "a" "b" _ _ eq_refl eq_refl eq_refl _).
  right; right. right; right.
  eexists; eexists. split; [reflexivity|]. split; [reflexivity|].
  exact I.
Defined.

Lemma invalidGeometry_rejected (g : BufferGeometry) :
  invalidGeometry g -> validateGeometry g = false.
Proof.
  unfold validateGeometry.
  intros [-> | [(ps & -> & Hlen) | (ps & x & -> & Hin & Hx)]].
  - reflexivity.
  - apply Nat.ltb_lt in Hlen. now rewrite Hlen.
  - destruct (List.length ps <? 9)%nat; [reflexivity|].
    destruct (forallb isFinite ps) eqn:E; [|reflexivity].
    rewrite forallb_forall in E. rewrite (E x Hin) in Hx. discriminate.
Qed.

Lemma validateGeometry_rejects (g : BufferGeometry) :
  validateGeometry g = false -> invalidGeometry g.
Proof.
  unfold validateGeometry, invalidGeometry.
  destruct (attributes_position g) as [ps|]; [|auto].
  destruct (List.length ps <? 9)%nat eqn:El.
  - intros _. right; left. exists ps. apply Nat.ltb_lt in El. auto.
  - intros E. right; right.
    assert (Hex : existsb (fun x => negb (isFinite x)) ps = true).
    { clear El. induction ps as [|x l IH]; simpl in *; [discriminate|].
      destruct (isFinite x); simpl in *; auto. }
    apply existsb_exists in Hex. destruct Hex as (x & Hin & Hx).
    exists ps, x. repeat split; auto. now destruct (isFinite x).
Qed.

(** C4. Whatever the operands and the operation, when the mesh the
    combinator returns fails validation (no position buffer, fewer than
    three vertices, a non-finite coordinate) the engine returns no scene
    object but the failure "Result geometry is invalid", and never draws an
    identifier.  So does, in particular, the subtraction of a box from a
    coincident copy of itself when the combinator leaves an empty mesh, or
    any mesh that fails validation. *)
Theorem invalid_result_is_a_failure :
  forall (ext : External) (gen : nat -> string),
    (forall objA objB op n a b resultMesh,
        createMeshFromObject ext objA = Some a ->
        createMeshFromObject ext objB = Some b ->
        csg ext op a b = Returned (Some resultMesh) ->
        invalidGeometry (mesh_geometry resultMesh) ->
        executeBooleanOperation ext gen objA objB op n
        = (None, Some "Result geometry is invalid", n))
    /\
    (forall A n,
        type A = box ->
        exists a,
          createMeshFromObject ext A = Some a /\
          (match CSG_subtract ext a a with
           | Returned (Some resultMesh) =>
               invalidGeometry (mesh_geometry resultMesh)
           | _ => True
           end ->
           exists err,
             executeBooleanOperation ext gen A A subtract n
             = (None, Some err, n))).
Proof.
  intros ext gen. split.
  - intros objA objB op n a b resultMesh HA HB Hc Hinv.
    unfold executeBooleanOperation. rewrite HA, HB.
    unfold performOperation.
    rewrite (createMeshFromObject_valid ext _ _ HA),
            (createMeshFromObject_valid ext _ _ HB). simpl.
    rewrite Hc, (invalidGeometry_rejected _ Hinv). reflexivity.
  - intros A n HA.
    assert (Hm : exists a, createMeshFromObject ext A = Some a).
    { unfold createMeshFromObject, objectGeometry. rewrite HA.
      rewrite validateGeometry_box. simpl. eauto. }
    destruct Hm as (a & Ha). exists a. split; [exact Ha|].
    intros Hout. apply executeBooleanOperation_fails.
    right; right. exists a, a. repeat split; auto.
    simpl. destruct (CSG_subtract ext a a) as [[resultMesh|]|msg]; auto.
    now apply invalidGeometry_rejected.
Qed.

Lemma invalid_result_witness :
  executeBooleanOperation (externalWith (Returned (Some emptyMesh))) counterId
    (boxAt "a" "Box 1" vzero vone) (boxAt "b" "Box 1" vzero vone) subtract 2
  = (None, Some "Result geometry is invalid", 2).
Proof.
  refine (proj1 (invalid_result_is_a_failure
                   (externalWith (Returned (Some emptyMesh))) counterId)
                (boxAt "a" "Box 1" vzero vone) (boxAt "b" "Box 1" vzero vone)
                subtract 2 _ _ emptyMesh eq_refl eq_refl eq_refl _).
  right; left. exists []. split; [reflexivity | simpl; lia].
Defined.

(* ================================================================== *)
(** * The scale floor and the world matrix *)
(* ================================================================== *)

Section ScaleFloor.

Local Open Scope R_scope.

Lemma scaleFloor_spec (s : R) :
  (Rabs s < 1 / 1000 -> 0 <= s -> scaleFloor s = 1 / 1000) /\
  (Rabs s < 1 / 1000 -> s < 0 -> scaleFloor s = - (1 / 1000)) /\
  (1 / 1000 <= Rabs s -> scaleFloor s = s) /\
  1 / 1000 <= Rabs (scaleFloor s) /\
  scaleFloor s <> 0.
Proof.
  unfold scaleFloor.
  destruct (Rlt_dec (Rabs s) (1 / 1000)) as [Hlt|Hge];
    destruct (Rge_dec s 0) as [Hpos|Hneg];
    repeat split; intros; try lra;
    unfold Rabs in *; repeat destruct (Rcase_abs _); lra.
Qed.

Lemma setFromEuler_unit (e : Vector3) : qnorm2 (setFromEuler e) = 1.
Proof.
  unfold qnorm2, setFromEuler; simpl.
  set (c1 := cos (vx e / 2)); set (s1 := sin (vx e / 2)).
  set (c2 := cos (vy e / 2)); set (s2 := sin (vy e / 2)).
  set (c3 := cos (vz e / 2)); set (s3 := sin (vz e / 2)).
  assert (H1 : s1 * s1 + c1 * c1 = 1) by apply (sin2_cos2 (vx e / 2)).
  assert (H2 : s2 * s2 + c2 * c2 = 1) by apply (sin2_cos2 (vy e / 2)).
  assert (H3 : s3 * s3 + c3 * c3 = 1) by apply (sin2_cos2 (vz e / 2)).
  transitivity ((s1 * s1 + c1 * c1) * (s2 * s2 + c2 * c2) * (s3 * s3 + c3 * c3)).
  - ring.
  - rewrite H1, H2, H3. ring.
Qed.

(** Rewrites the diagonal of a unit quaternion's rotation into the form
    that is homogeneous in the quaternion. *)
Ltac homogeneous x y z w Hn :=
  let E1 := fresh "E" in
  let E2 := fresh "E" in
  let E3 := fresh "E" in
  assert (E1 : 1 - (y * (y + y) + z * (z + z)) = w * w + x * x - y * y - z * z)
    by lra;
  assert (E2 : 1 - (x * (x + x) + z * (z + z)) = w * w - x * x + y * y - z * z)
    by lra;
  assert (E3 : 1 - (x * (x + x) + y * (y + y)) = w * w - x * x - y * y + z * z)
    by lra;
  rewrite ?E1, ?E2, ?E3.

Lemma compose_determinant (p : Vector3) (q : Quaternion) (s : Vector3) :
  qnorm2 q = 1 ->
  determinant (compose p q s) = vx s * vy s * vz s.
Proof.
  unfold qnorm2. destruct q as [x y z w], s as [sx sy sz], p as [px py pz].
  simpl. intros Hn. unfold determinant, compose; simpl.
  homogeneous x y z w Hn.
  transitivity (sx * sy * sz *
                ((x * x + y * y + z * z + w * w) *
                 (x * x + y * y + z * z + w * w) *
                 (x * x + y * y + z * z + w * w))).
  - ring.
  - rewrite Hn. ring.
Qed.

Lemma compose_columns (p : Vector3) (q : Quaternion) (s : Vector3) :
  qnorm2 q = 1 ->
  columnLength2 (compose p q s)
  = vec3 (vx s * vx s) (vy s * vy s) (vz s * vz s).
Proof.
  unfold qnorm2. destruct q as [x y z w], s as [sx sy sz], p as [px py pz].
  simpl. intros Hn. unfold columnLength2, compose; simpl.
  homogeneous x y z w Hn.
  f_equal.
  - transitivity (sx * sx * ((x * x + y * y + z * z + w * w) *
                             (x * x + y * y + z * z + w * w)));
      [ring | rewrite Hn; ring].
  - transitivity (sy * sy * ((x * x + y * y + z * z + w * w) *
                             (x * x + y * y + z * z + w * w)));
      [ring | rewrite Hn; ring].
  - transitivity (sz * sz * ((x * x + y * y + z * z + w * w) *
                             (x * x + y * y + z * z + w * w)));
      [ring | rewrite Hn; ring].
Qed.

Lemma composeInverse_left (p : Vector3) (q : Quaternion) (s v : Vector3) :
  qnorm2 q = 1 -> vx s <> 0 -> vy s <> 0 -> vz s <> 0 ->
  applyMatrix4 (composeInverse p q s) (applyMatrix4 (compose p q s) v) = v.
Proof.
  unfold qnorm2.
  destruct q as [x y z w], s as [sx sy sz], p as [px py pz], v as [v1 v2 v3].
  simpl. intros Hn Hx Hy Hz.
  unfold applyMatrix4, composeInverse, compose; simpl.
  homogeneous x y z w Hn.
  set (n := x * x + y * y + z * z + w * w) in *.
  f_equal.
  - transitivity (n * n * v1); [unfold n; field; assumption | rewrite Hn; ring].
  - transitivity (n * n * v2); [unfold n; field; assumption | rewrite Hn; ring].
  - transitivity (n * n * v3); [unfold n; field; assumption | rewrite Hn; ring].
Qed.

Lemma composeInverse_right (p : Vector3) (q : Quaternion) (s v : Vector3) :
  qnorm2 q = 1 -> vx s <> 0 -> vy s <> 0 -> vz s <> 0 ->
  applyMatrix4 (compose p q s) (applyMatrix4 (composeInverse p q s) v) = v.
Proof.
  unfold qnorm2.
  destruct q as [x y z w], s as [sx sy sz], p as [px py pz], v as [v1 v2 v3].
  simpl. intros Hn Hx Hy Hz.
  unfold applyMatrix4, composeInverse, compose; simpl.
  homogeneous x y z w Hn.
  set (n := x * x + y * y + z * z + w * w) in *.
  f_equal.
  - transitivity (n * n * (v1 - px) + px);
      [unfold n; field; auto | rewrite Hn; ring].
  - transitivity (n * n * (v2 - py) + py);
      [unfold n; field; auto | rewrite Hn; ring].
  - transitivity (n * n * (v3 - pz) + pz);
      [unfold n; field; auto | rewrite Hn; ring].
Qed.

End ScaleFloor.

(** C9. For every scene object the boolean engine makes a mesh of, the
    scale of that mesh is the object's scale with each component of
    magnitude below 0.001 replaced by 0.001 of the same sign (zero counting
    as positive) and every other component kept; every component of it is
    nonzero, of magnitude at least 0.001; the world matrix has a nonzero
    determinant and an inverse; and the column lengths from which a
    decomposition reads the scale back are the squares of those nonzero
    components.  Scale components are finite numbers (reals). *)
Theorem scale_floor_keeps_world_matrix_invertible :
  forall (ext : External) (obj : SceneObject) (m : Mesh),
    createMeshFromObject ext obj = Some m ->
    (mesh_scale m = vec3 (scaleFloor (vx (scale obj)))
                         (scaleFloor (vy (scale obj)))
                         (scaleFloor (vz (scale obj))) /\
     forall s : R,
       ((Rabs s < 1 / 1000 -> 0 <= s -> scaleFloor s = 1 / 1000) /\
        (Rabs s < 1 / 1000 -> s < 0 -> scaleFloor s = - (1 / 1000)) /\
        (1 / 1000 <= Rabs s -> scaleFloor s = s) /\
        1 / 1000 <= Rabs (scaleFloor s) /\
        scaleFloor s <> 0)%R) /\
    (determinant (mesh_matrix m)
     = vx (mesh_scale m) * vy (mesh_scale m) * vz (mesh_scale m) /\
     determinant (mesh_matrix m) <> 0)%R /\
    (exists inverse : Matrix4,
        forall v : Vector3,
          applyMatrix4 inverse (worldVertex m v) = v /\
          worldVertex m (applyMatrix4 inverse v) = v) /\
    (columnLength2 (mesh_matrix m)
     = vec3 (vx (mesh_scale m) * vx (mesh_scale m))
            (vy (mesh_scale m) * vy (mesh_scale m))
            (vz (mesh_scale m) * vz (mesh_scale m)) /\
     0 < vx (columnLength2 (mesh_matrix m)) /\
     0 < vy (columnLength2 (mesh_matrix m)) /\
     0 < vz (columnLength2 (mesh_matrix m)))%R.
Proof.
  intros ext obj m Hm.
  unfold createMeshFromObject in Hm.
  destruct (negb (validateGeometry (objectGeometry ext obj))); [discriminate|].
  injection Hm as <-.
  pose proof (setFromEuler_unit (rotation obj)) as Hq.
  destruct (scaleFloor_spec (vx (scale obj))) as (_ & _ & _ & _ & Hx).
  destruct (scaleFloor_spec (vy (scale obj))) as (_ & _ & _ & _ & Hy).
  destruct (scaleFloor_spec (vz (scale obj))) as (_ & _ & _ & _ & Hz).
  unfold worldVertex, mesh_matrix;
    cbn [mesh_position mesh_quaternion mesh_scale vx vy vz].
  set (sx := scaleFloor (vx (scale obj))) in *.
  set (sy := scaleFloor (vy (scale obj))) in *.
  set (sz := scaleFloor (vz (scale obj))) in *.
  split; [split; [reflexivity | exact scaleFloor_spec]|].
  split.
  { rewrite compose_determinant by exact Hq. cbn [vx vy vz].
    split; [reflexivity|].
    apply Rmult_integral_contrapositive_currified;
      [apply Rmult_integral_contrapositive_currified|]; assumption. }
  split.
  { eexists (composeInverse _ _ _). intros v. split.
    - apply composeInverse_left; assumption.
    - apply composeInverse_right; assumption. }
  rewrite compose_columns by exact Hq. cbn [vx vy vz].
  split; [reflexivity|].
  repeat split; apply Rsqr_pos_lt; assumption.
Qed.

Lemma scale_floor_witness :
  exists m : Mesh,
    createMeshFromObject (externalWith (Returned None)) flatBox = Some m /\
    mesh_scale m = vec3 (1 / 1000) (- (1 / 1000)) 5 /\
    (determinant (mesh_matrix m) <> 0)%R.
Proof.
  eexists. split; [reflexivity|].
  destruct (scale_floor_keeps_world_matrix_invertible
              (externalWith (Returned None)) flatBox _ eq_refl)
    as ((Hs & Hfloor) & (_ & Hdet) & _).
  split; [|exact Hdet].
  rewrite Hs. simpl.
  destruct (Hfloor 0%R) as (H0 & _).
  destruct (Hfloor (- (1 / 2000))%R) as (_ & Hn & _).
  destruct (Hfloor 5%R) as (_ & _ & H5 & _).
  rewrite H0, Hn, H5; try reflexivity;
    unfold Rabs; repeat destruct (Rcase_abs _); lra.
Defined.

(* ================================================================== *)
(** * World placement and the pivot *)
(* ================================================================== *)

Section WorldPlacement.

Local Open Scope R_scope.

Lemma setFromEuler_zero : setFromEuler vzero = qidentity.
Proof.
  unfold setFromEuler, vzero, qidentity; simpl.
  replace (0 / 2) with 0 by lra. rewrite cos_0, sin_0.
  f_equal; ring.
Qed.

Lemma scaleFloor_keeps (s : R) : 1 / 1000 <= Rabs s -> scaleFloor s = s.
Proof. apply scaleFloor_spec. Qed.

Lemma Rabs_2 : 1 / 1000 <= Rabs 2.
Proof. unfold Rabs. destruct (Rcase_abs 2); lra. Qed.


(** What the renderer does with it: the pivot shifts the vertex first. *)
Lemma render_vertex (obj : SceneObject) (v : Vector3) :
  renderVertex obj v = applyMatrix4 (wrapperMatrix obj) (vadd v (pivotOf obj)).
Proof.
  unfold renderVertex, renderMatrix, pivotMatrix, pivotOf.
  destruct (pivot obj) as [[p1 p2 p3]|]; destruct v as [v1 v2 v3];
    unfold applyMatrix4, multiplyMatrices, vadd, compose, qidentity, vone, vzero;
    simpl; f_equal; ring.
Qed.

End WorldPlacement.

(** C1, on the code: for the box [pivotBox] (scale 2, pivot (1,0,0), no
    rotation) the boolean engine places the local corner (1/2,1/2,1/2) at
    (2,1,1), the transformed corner plus the pivot, whereas
    [T(node) (v + p)], which is also where the renderer draws that corner,
    is (3,1,1). *)
Theorem engine_adds_pivot_after_transform :
  exists m : Mesh,
    createMeshFromObject (externalWith (Returned None)) pivotBox = Some m /\
    worldVertex m corner = vec3 2 1 1 /\
    applyMatrix4 (engineTransform pivotBox) (vadd corner (pivotOf pivotBox))
    = vec3 3 1 1 /\
    renderVertex pivotBox corner = vec3 3 1 1 /\
    worldVertex m corner
    <> applyMatrix4 (engineTransform pivotBox) (vadd corner (pivotOf pivotBox)).
Proof.
  eexists. split; [reflexivity|].
  assert (Hw : worldVertex
                 (mkMesh (objectGeometry (externalWith (Returned None)) pivotBox)
                         (vadd (position pivotBox) (vec3 1 0 0))
                         (setFromEuler (rotation pivotBox))
                         (vec3 (scaleFloor 2) (scaleFloor 2) (scaleFloor 2)))
                 corner = vec3 2 1 1).
  { unfold worldVertex, mesh_matrix; simpl.
    rewrite (scaleFloor_keeps 2 Rabs_2).
    change (setFromEuler (vec3 0 0 0)) with (setFromEuler vzero).
    rewrite setFromEuler_zero.
    unfold applyMatrix4, compose, corner, vadd, qidentity, vzero; simpl.
    f_equal; lra. }
  assert (Ht : applyMatrix4 (engineTransform pivotBox)
                 (vadd corner (pivotOf pivotBox)) = vec3 3 1 1).
  { unfold engineTransform; simpl.
    rewrite (scaleFloor_keeps 2 Rabs_2).
    change (setFromEuler (vec3 0 0 0)) with (setFromEuler vzero).
    rewrite setFromEuler_zero.
    unfold applyMatrix4, compose, corner, vadd, qidentity, vzero, pivotOf; simpl.
    f_equal; lra. }
  split; [exact Hw|]. split; [exact Ht|]. split.
  - rewrite render_vertex. unfold wrapperMatrix; simpl.
    change (setFromEuler (vec3 0 0 0)) with (setFromEuler vzero).
    rewrite setFromEuler_zero.
    unfold applyMatrix4, compose, corner, vadd, qidentity, vzero, pivotOf; simpl.
    f_equal; lra.
  - rewrite Ht. simpl in Hw |- *. rewrite Hw.
    intros H. injection H as H. lra.
Qed.

(* ================================================================== *)
(** * The synthesized result node *)
(* ================================================================== *)

Section ResultNode.

Local Open Scope R_scope.

Variable gen : nat -> string.

(** The renderer draws a stored vertex [u] of the synthesized node at
    [position + scale * u], component by component: the node has no
    rotation and no pivot. *)
Lemma render_result_vertex (r : BooleanOperationResult)
    (objA objB : SceneObject) (op : Operation) (n : nat) (u : Vector3) :
  let node := fst (createResultObject gen r objA objB op n) in
  renderVertex node u
  = vec3 (vx (position node) + vx (scale node) * vx u)
         (vy (position node) + vy (scale node) * vy u)
         (vz (position node) + vz (scale node) * vz u).
Proof.
  intros node. rewrite render_vertex.
  unfold node, createResultObject, wrapperMatrix, pivotOf; simpl.
  rewrite setFromEuler_zero.
  destruct u as [u1 u2 u3].
  unfold applyMatrix4, compose, vadd, qidentity, vzero; simpl.
  f_equal; ring.
Qed.

Lemma vec3_eq (a b c a' b' c' : R) :
  a = a' -> b = b' -> c = c' -> vec3 a b c = vec3 a' b' c'.
Proof. intros -> -> ->. reflexivity. Qed.

Lemma cons_eq {A : Type} (x y : A) (l l' : list A) :
  x = y -> l = l' -> x :: l = y :: l'.
Proof. intros -> ->. reflexivity. Qed.

Lemma absOr1_pos (x : R) : 0 < x -> absOr1 x = x.
Proof.
  intros Hx. unfold absOr1.
  destruct (Req_dec_T (Rabs x) 0) as [E|_];
    unfold Rabs in *; destruct (Rcase_abs x); lra.
Qed.

End ResultNode.

Lemma executeBooleanOperation_returned (ext : External) (gen : nat -> string)
    (objA objB : SceneObject) (op : Operation) (n : nat) (a b resultMesh : Mesh) :
  createMeshFromObject ext objA = Some a ->
  createMeshFromObject ext objB = Some b ->
  csg ext op a b = Returned (Some resultMesh) ->
  validateGeometry (mesh_geometry resultMesh) = true ->
  executeBooleanOperation ext gen objA objB op n
  = (Some (fst (createResultObject gen
                  (mkResult (mesh_geometry resultMesh)
                            (getCenter (setFromObject resultMesh))
                            (getSize (setFromObject resultMesh)) true None)
                  objA objB op n)),
     None, S n).
Proof.
  intros HA HB Hc Hv. unfold executeBooleanOperation. rewrite HA, HB.
  unfold performOperation.
  rewrite (createMeshFromObject_valid ext _ _ HA),
          (createMeshFromObject_valid ext _ _ HB). simpl.
  rewrite Hc, Hv. reflexivity.
Qed.

(** Replaces every [Rmin] and [Rmax] of comparable closed terms. *)
Ltac minmax :=
  repeat match goal with
  | |- context [Rmin ?a ?b] =>
      first [ rewrite (Rmin_left a b) by lra | rewrite (Rmin_right a b) by lra ]
  | |- context [Rmax ?a ?b] =>
      first [ rewrite (Rmax_left a b) by lra | rewrite (Rmax_right a b) by lra ]
  end.

Lemma unionMesh_box :
  setFromObject unionMesh
  = Some (vec3 (- (1 / 2)) (- (1 / 2)) (- (1 / 2)), vec3 (9 / 2) (1 / 2) (1 / 2))%R.
Proof.
  unfold setFromObject, computeBoundingBox, unionMesh, unionGeometry. simpl.
  minmax.
  unfold box_applyMatrix4, mesh_matrix, compose, applyMatrix4, setFromPoints;
    simpl.
  minmax.
  f_equal. f_equal; apply vec3_eq; lra.
Qed.

(** C2, on the code: uniting the unit boxes at (0,0,0) and (4,0,0), with a
    combinator that returns the world-space mesh spanning both (bounding-box
    center (2,0,0), extents (5,1,1)), succeeds with a node stored at
    position (2,0,0), scale (5,1,1), whose stored vertices are the
    world-space vertices (the offset is zero).  The renderer draws the
    stored vertex (9/2,1/2,1/2) at (49/2,1/2,1/2): the stored transform
    does not reproduce the world-space result. *)
Theorem result_node_does_not_reproduce_mesh :
  exists node : SceneObject,
    executeBooleanOperation (externalWith (Returned (Some unionMesh))) counterId
      (boxAt "a" "Box 1" vzero vone) (boxAt "b" "Box 2" (vec3 4 0 0) vone)
      union 2
    = (Some node, None, 3) /\
    map (worldVertex unionMesh)
        (match attributes_position (mesh_geometry unionMesh) with
         | Some ps => vertices ps
         | None => []
         end)
    = [ vec3 (- (1 / 2)) (- (1 / 2)) (- (1 / 2));
        vec3 (9 / 2) (1 / 2) (1 / 2);
        vec3 (9 / 2) (- (1 / 2)) (1 / 2) ] /\
    position node = vec3 2 0 0 /\
    rotation node = vzero /\
    scale node = vec3 5 1 1 /\
    option_map vertices
      (attributes_position (nodeGeometry (externalWith (Returned None)) node))
    = Some [ vec3 (- (1 / 2)) (- (1 / 2)) (- (1 / 2));
             vec3 (9 / 2) (1 / 2) (1 / 2);
             vec3 (9 / 2) (- (1 / 2)) (1 / 2) ] /\
    renderVertex node (vec3 (9 / 2) (1 / 2) (1 / 2))
    = vec3 (49 / 2) (1 / 2) (1 / 2) /\
    renderVertex node (vec3 (9 / 2) (1 / 2) (1 / 2))
    <> vec3 (9 / 2) (1 / 2) (1 / 2).
Proof.
  eexists. split.
  { apply (executeBooleanOperation_returned
             (externalWith (Returned (Some unionMesh))) counterId
             (boxAt "a" "Box 1" vzero vone) (boxAt "b" "Box 2" (vec3 4 0 0) vone)
             union 2 _ _ unionMesh eq_refl eq_refl eq_refl eq_refl). }
  rewrite unionMesh_box.
  set (node := fst (createResultObject _ _ _ _ _ _)).
  assert (Hp : position node = vec3 2 0 0).
  { unfold node, createResultObject, resultPosition, midpoint; simpl.
    apply vec3_eq; lra. }
  assert (Hs : scale node = vec3 5 1 1).
  { unfold node, createResultObject; simpl.
    apply vec3_eq; rewrite absOr1_pos; lra. }
  assert (Hr : renderVertex node (vec3 (9 / 2) (1 / 2) (1 / 2))
               = vec3 (49 / 2) (1 / 2) (1 / 2)).
  { unfold node. rewrite render_result_vertex. fold node. rewrite Hs, Hp.
    simpl. apply vec3_eq; lra. }
  split.
  { unfold worldVertex, unionMesh, mesh_matrix, compose, applyMatrix4; simpl.
    repeat (apply cons_eq; [apply vec3_eq; lra|]). reflexivity. }
  split; [exact Hp|]. split; [reflexivity|]. split; [exact Hs|]. split.
  - unfold node, createResultObject, nodeGeometry, translate,
      unionGeometry, resultPosition, midpoint, vsub; simpl.
    apply f_equal.
    repeat (apply cons_eq; [apply vec3_eq; lra|]). reflexivity.
  - split; [exact Hr|]. rewrite Hr. intros H. injection H as H. lra.
Qed.

(* ================================================================== *)
(** * Realizing a custom mesh *)
(* ================================================================== *)

(** C3 does not hold as stated: a custom mesh whose buffer parses but holds
    two vertices only is not realized as a unit box; the engine has no mesh
    for it, and a combine with it fails. *)
Lemma short_custom_mesh_is_not_a_box :
  createMeshFromObject (externalWith (Returned None)) shortCustom = None /\
  ~ (exists m : Mesh,
        createMeshFromObject (externalWith (Returned None)) shortCustom = Some m /\
        mesh_geometry m = BoxGeometry 1 1 1) /\
  executeBooleanOperation (externalWith (Returned None)) counterId
    shortCustom (boxAt "b" "Box 2" vzero vone) union 0
  = (None, Some "Failed to create meshes from scene objects", 0).
Proof.
  split; [reflexivity|]. split; [|reflexivity].
  intros (m & Hm & _). discriminate Hm.
Qed.

(** C3, as the code has it.  For a custom-mesh node [createMeshFromObject]
    never throws.  It makes a unit-box mesh when [geometryData] is absent
    or the loader throws on it; it makes a mesh of the parsed geometry when
    that geometry passes validation; and when the data parses to a geometry
    that fails validation (no position buffer, fewer than three vertices, a
    non-finite coordinate) it returns no mesh, and a combine with the node
    as either operand fails with "Failed to create meshes from scene
    objects". *)
Theorem custom_mesh_realization :
  forall (ext : External) (obj : SceneObject),
    type obj = custom ->
    (geometryData obj = None \/
     (exists data, geometryData obj = Some data /\ parse data = None) ->
     exists m, createMeshFromObject ext obj = Some m /\
               mesh_geometry m = BoxGeometry 1 1 1) /\
    (forall data g,
        geometryData obj = Some data -> parse data = Some g ->
        validateGeometry g = true ->
        exists m, createMeshFromObject ext obj = Some m /\
                  mesh_geometry m = g) /\
    (forall data g,
        geometryData obj = Some data -> parse data = Some g ->
        invalidGeometry g ->
        createMeshFromObject ext obj = None /\
        forall gen other op n,
          executeBooleanOperation ext gen obj other op n
          = (None, Some "Failed to create meshes from scene objects", n) /\
          executeBooleanOperation ext gen other obj op n
          = (None, Some "Failed to create meshes from scene objects", n)).
Proof.
  intros ext obj Ht.
  assert (Hbox : objectGeometry ext obj = BoxGeometry 1 1 1 ->
                 exists m, createMeshFromObject ext obj = Some m /\
                           mesh_geometry m = BoxGeometry 1 1 1).
  { intros Hg. unfold createMeshFromObject. rewrite Hg, validateGeometry_box.
    simpl. eauto. }
  assert (Hparsed : forall data g,
             geometryData obj = Some data -> parse data = Some g ->
             objectGeometry ext obj = g).
  { intros data g Hd Hp. unfold objectGeometry. now rewrite Ht, Hd, Hp. }
  split; [|split].
  - intros [Hnone | (data & Hd & Hp)]; apply Hbox;
      unfold objectGeometry; rewrite Ht.
    + now rewrite Hnone.
    + now rewrite Hd, Hp.
  - intros data g Hd Hp Hv. unfold createMeshFromObject.
    rewrite (Hparsed data g Hd Hp), Hv. simpl. eauto.
  - intros data g Hd Hp Hinv.
    assert (Hnull : createMeshFromObject ext obj = None).
    { unfold createMeshFromObject.
      now rewrite (Hparsed data g Hd Hp), (invalidGeometry_rejected g Hinv). }
    split; [exact Hnull|].
    intros gen other op n. unfold executeBooleanOperation.
    rewrite Hnull. split; [reflexivity|].
    now destruct (createMeshFromObject ext other).
Qed.

Lemma custom_mesh_realization_witness :
  createMeshFromObject (externalWith (Returned None)) shortCustom = None.
Proof.
  refine (proj1 (proj2 (proj2 (custom_mesh_realization
                                 (externalWith (Returned None)) shortCustom
                                 eq_refl))
                   _ _ eq_refl eq_refl _)).
  right; left. eexists. split; [reflexivity | simpl; lia].
Defined.

(* ================================================================== *)
(** * Strings *)
(* ================================================================== *)

Lemma list_ascii_of_string_app (a b : string) :
  list_ascii_of_string (a ++ b)
  = list_ascii_of_string a ++ list_ascii_of_string b.
Proof.
  induction a as [|c a IH]; simpl; [reflexivity | now rewrite IH].
Qed.

Lemma list_ascii_of_string_inj (a b : string) :
  list_ascii_of_string a = list_ascii_of_string b -> a = b.
Proof.
  intros H. rewrite <- (string_of_list_ascii_of_string a),
                    <- (string_of_list_ascii_of_string b).
  now rewrite H.
Qed.

Lemma append_inv_head (a b c : string) :
  (a ++ b = a ++ c)%string -> b = c.
Proof.
  induction a as [|x a IH]; simpl; intros H; [exact H|].
  injection H as H. auto.
Qed.

Lemma append_inv_tail (a b c : string) :
  (a ++ c = b ++ c)%string -> a = b.
Proof.
  intros H. apply list_ascii_of_string_inj.
  apply (f_equal list_ascii_of_string) in H.
  rewrite !list_ascii_of_string_app in H.
  now apply app_inv_tail in H.
Qed.

Lemma string_of_nat_inj (j k : nat) :
  string_of_nat j = string_of_nat k -> j = k.
Proof.
  unfold string_of_nat. intros H.
  apply DecimalNat.Unsigned.to_uint_inj.
  pose proof (DecimalString.NilEmpty.usu (Nat.to_uint j)) as Hj.
  pose proof (DecimalString.NilEmpty.usu (Nat.to_uint k)) as Hk.
  rewrite H in Hj. rewrite Hj in Hk. now injection Hk.
Qed.

Lemma string_of_uint_digits (d : Decimal.uint) :
  forallb isDigit
    (list_ascii_of_string (DecimalString.NilEmpty.string_of_uint d)) = true.
Proof.
  induction d; simpl; auto.
Qed.

Lemma string_of_nat_digitString (k : nat) : digitString (string_of_nat k).
Proof.
  split; [|apply string_of_uint_digits].
  unfold string_of_nat. intros H.
  pose proof (DecimalString.NilEmpty.usu (Nat.to_uint k)) as Hu.
  rewrite H in Hu. simpl in Hu. injection Hu as Hu.
  pose proof (DecimalNat.Unsigned.of_to k) as Hk.
  rewrite <- Hu in Hk. simpl in Hk. subst k. discriminate Hu.
Qed.

Lemma includes_In (l : list string) (x : string) :
  includes l x = true <-> In x l.
Proof.
  unfold includes. rewrite existsb_exists. split.
  - intros (y & Hin & Heq). apply String.eqb_eq in Heq. now subst.
  - intros Hin. exists x. split; [exact Hin | apply String.eqb_refl].
Qed.

Lemma includes_not_In (l : list string) (x : string) :
  includes l x = false <-> ~ In x l.
Proof.
  rewrite <- includes_In. destruct (includes l x); split; intros H;
    try discriminate; try reflexivity; try (intros E; discriminate E).
  now elim H.
Qed.

(* ================================================================== *)
(** * The copy name *)
(* ================================================================== *)

Lemma candidate_succ (root : string) (count : nat) :
  1 <= count ->
  (root ++ " (Copy " ++ string_of_nat (S count) ++ ")")%string
  = candidate root (S count).
Proof.
  intros H. unfold candidate. destruct count as [|c]; [lia | reflexivity].
Qed.

Lemma candidate_inj (root : string) (j k : nat) :
  1 <= j -> 1 <= k -> candidate root j = candidate root k -> j = k.
Proof.
  intros Hj Hk. unfold candidate.
  destruct j as [|[|j]]; [lia| |]; destruct k as [|[|k]]; try lia;
    intros H; apply append_inv_head in H.
  - simpl in H. discriminate H.
  - simpl in H. discriminate H.
  - simpl in H. injection H as H.
    apply append_inv_tail in H. now apply string_of_nat_inj.
Qed.

Lemma uniqueNameLoop_spec (names : list string) (root : string) :
  forall (fuel count : nat),
    1 <= count ->
    match uniqueNameLoop fuel names root count (candidate root count) with
    | Some r =>
        exists k, count <= k /\ r = candidate root k /\ ~ In r names /\
                  forall j, count <= j < k -> In (candidate root j) names
    | None =>
        forall j, count <= j <= count + fuel -> In (candidate root j) names
    end.
Proof.
  induction fuel as [|fuel IH]; intros count Hc; cbn [uniqueNameLoop].
  - destruct (includes names (candidate root count)) eqn:E.
    + intros j Hj. replace j with count by lia. now apply includes_In.
    + exists count. repeat split; auto.
      * now apply includes_not_In.
      * intros j Hj. lia.
  - destruct (includes names (candidate root count)) eqn:E.
    + rewrite (candidate_succ root count Hc).
      specialize (IH (S count) ltac:(lia)).
      destruct (uniqueNameLoop fuel names root (S count)
                  (candidate root (S count))) as [r|].
      * destruct IH as (k & Hk & Hr & Hfree & Hbelow).
        exists k. repeat split; auto; [lia|].
        intros j Hj. destruct (Nat.eq_dec j count) as [->|Hne].
        -- now apply includes_In.
        -- apply Hbelow. lia.
      * intros j Hj. destruct (Nat.eq_dec j count) as [->|Hne].
        -- now apply includes_In.
        -- apply IH. lia.
    + exists count. repeat split; auto.
      * now apply includes_not_In.
      * intros j Hj. lia.
Qed.

(** The loop ends within as many turns as there are names. *)
Lemma uniqueNameLoop_total (names : list string) (root : string) :
  uniqueNameLoop (List.length names) names root 1 (root ++ " (Copy)")%string
  <> None.
Proof.
  intros Hnone.
  pose proof (uniqueNameLoop_spec names root (List.length names) 1 (le_n 1))
    as Hspec.
  change (candidate root 1) with (root ++ " (Copy)")%string in Hspec.
  rewrite Hnone in Hspec.
  assert (Hincl : incl (map (candidate root) (seq 1 (S (List.length names))))
                       names).
  { intros x Hx. apply in_map_iff in Hx. destruct Hx as (j & <- & Hj).
    apply in_seq in Hj. apply Hspec. lia. }
  assert (Hnd : NoDup (map (candidate root) (seq 1 (S (List.length names))))).
  { apply NoDup_map_NoDup_ForallPairs; [|apply seq_NoDup].
    intros j k Hj Hk. apply in_seq in Hj, Hk.
    apply candidate_inj; lia. }
  pose proof (NoDup_incl_length Hnd Hincl) as Hlen.
  rewrite length_map, length_seq in Hlen. lia.
Qed.

Lemma copyName_spec (names : list string) (originalName : string) :
  let root := rootName originalName in
  exists k,
    1 <= k /\
    copyName names originalName = candidate root k /\
    ~ In (copyName names originalName) names /\
    forall j, 1 <= j < k -> In (candidate root j) names.
Proof.
  intros root. unfold copyName. fold root.
  pose proof (uniqueNameLoop_spec names root (List.length names) 1 (le_n 1))
    as Hspec.
  pose proof (uniqueNameLoop_total names root) as Htot.
  change (candidate root 1) with (root ++ " (Copy)")%string in Hspec.
  destruct (uniqueNameLoop (List.length names) names root 1
              (root ++ " (Copy)")%string)
    as [r|]; [|now elim Htot].
  destruct Hspec as (k & Hk & Hr & Hfree & Hbelow).
  exists k. auto.
Qed.

(** ** What the pattern strips *)

Lemma whitespace_not_digit (w : ascii) :
  isWhitespace w = true -> isDigit w = false.
Proof.
  destruct w as [[] [] [] [] [] [] [] []]; intros H;
    try reflexivity; discriminate H.
Qed.

Lemma forallb_rev {A : Type} (f : A -> bool) (l : list A) :
  forallb f (List.rev l) = forallb f l.
Proof.
  induction l as [|a l IH]; simpl; [reflexivity|].
  rewrite forallb_app, IH. simpl. rewrite andb_true_r. apply andb_comm.
Qed.

Lemma spanDigits_app (ds rest : list ascii) (c : ascii) :
  forallb isDigit ds = true -> isDigit c = false ->
  spanDigits (ds ++ c :: rest) = (ds, c :: rest).
Proof.
  intros Hds Hc. induction ds as [|d ds IH]; simpl in *.
  - now rewrite Hc.
  - apply andb_prop in Hds. destruct Hds as (Hd & Hds).
    rewrite Hd, (IH Hds). reflexivity.
Qed.

Lemma stripOpening_root (w : ascii) (root : string) :
  isWhitespace w = true -> singleLine root ->
  option_map (fun r => string_of_list_ascii (List.rev r))
    (stripOpening ("y" :: "p" :: "o" :: "C" :: "(" :: w
                   :: List.rev (list_ascii_of_string root))%char)
  = Some root.
Proof.
  intros Hw Hroot. unfold stripOpening.
  rewrite Hw, forallb_rev, Hroot. simpl.
  now rewrite rev_involutive, string_of_list_ascii_of_string.
Qed.

Lemma matchCopy_plain (root : string) (w : ascii) :
  singleLine root -> isWhitespace w = true ->
  matchCopy (root ++ String w "(Copy)") = Some root.
Proof.
  intros Hroot Hw. unfold matchCopy.
  rewrite list_ascii_of_string_app, rev_app_distr.
  cbn [list_ascii_of_string List.rev app].
  now apply stripOpening_root.
Qed.

Lemma matchCopy_numbered (root ds : string) (w w' : ascii) :
  singleLine root -> isWhitespace w = true -> isWhitespace w' = true ->
  digitString ds ->
  matchCopy (root ++ String w ("(Copy" ++ String w' (ds ++ ")"))) = Some root.
Proof.
  intros Hroot Hw Hw' (Hne & Hds). unfold matchCopy.
  assert (Hrev :
    List.rev (list_ascii_of_string
                (root ++ String w ("(Copy" ++ String w' (ds ++ ")"))))
    = (")"%char :: (List.rev (list_ascii_of_string ds) ++
                    w' :: ("y" :: "p" :: "o" :: "C" :: "(" :: w
                           :: List.rev (list_ascii_of_string root))%char))).
  { rewrite list_ascii_of_string_app, rev_app_distr.
    cbn [list_ascii_of_string append List.rev].
    rewrite list_ascii_of_string_app, rev_app_distr.
    cbn [list_ascii_of_string List.rev app].
    rewrite <- !app_assoc. reflexivity. }
  rewrite Hrev.
  rewrite spanDigits_app;
    [| now rewrite forallb_rev | now apply whitespace_not_digit].
  destruct (List.rev (list_ascii_of_string ds)) as [|d l] eqn:E.
  - exfalso. apply Hne. apply list_ascii_of_string_inj.
    apply (f_equal (@List.rev ascii)) in E.
    now rewrite rev_involutive in E.
  - rewrite Hw'. now apply stripOpening_root.
Qed.

(** The pattern strips the suffixes of the naming scheme. *)
Lemma rootName_strips (root : string) :
  singleLine root ->
  rootName (root ++ " (Copy)") = root /\
  forall N : nat,
    rootName (root ++ " (Copy " ++ string_of_nat N ++ ")") = root.
Proof.
  intros Hroot. unfold rootName. split.
  - now rewrite (matchCopy_plain root " " Hroot eq_refl).
  - intros N.
    change (root ++ " (Copy " ++ string_of_nat N ++ ")")%string
      with (root ++ String " " ("(Copy" ++ String " " (string_of_nat N ++ ")")))%string.
    rewrite (matchCopy_numbered root (string_of_nat N) " " " " Hroot eq_refl
               eq_refl (string_of_nat_digitString N)).
    reflexivity.
Qed.

(** ** Names and identifiers at every depth *)

Lemma flat_map_map {A B C : Type} (h : B -> C) (f : A -> list B) (g : A -> list C)
    (l : list A) :
  Forall (fun a => g a = map h (f a)) l ->
  flat_map g l = map h (flat_map f l).
Proof.
  induction 1 as [|a l Ha _ IH]; simpl; [reflexivity|].
  now rewrite map_app, Ha, IH.
Qed.

Lemma namesOf_nodes (obj : SceneObject) :
  namesOf obj = map name (nodesOf obj).
Proof.
  induction obj as [obj IH] using SceneObject_nested_ind.
  destruct obj as [oid t p r s pv c n kids g b]; simpl in *.
  f_equal. destruct kids as [cs|]; [|reflexivity].
  apply flat_map_map. exact (IH cs eq_refl).
Qed.

Lemma idsOf_nodes (obj : SceneObject) :
  idsOf obj = map id (nodesOf obj).
Proof.
  induction obj as [obj IH] using SceneObject_nested_ind.
  destruct obj as [oid t p r s pv c n kids g b]; simpl in *.
  f_equal. destruct kids as [cs|]; [|reflexivity].
  apply flat_map_map. exact (IH cs eq_refl).
Qed.

(** [getAllNames] gathers the name of every node of the forest. *)
Lemma getAllNames_nodes (objs : list SceneObject) :
  getAllNames objs = map name (allNodes objs).
Proof.
  apply flat_map_map. apply Forall_forall. intros o _. apply namesOf_nodes.
Qed.

Lemma allIds_nodes (objs : list SceneObject) :
  allIds objs = map id (allNodes objs).
Proof.
  apply flat_map_map. apply Forall_forall. intros o _. apply idsOf_nodes.
Qed.

Lemma deepClone_root_name (gen : nat -> string) (newName : string)
    (obj : SceneObject) (n : nat) :
  name (fst (deepClone gen newName obj true n)) = newName.
Proof. destruct obj; reflexivity. Qed.

(** C8. Adding a box to the empty scene names it "Box 1"; duplicating it
    twice, or duplicating it and then its copy, names the copies
    "Box 1 (Copy)" and "Box 1 (Copy 2)".  In general the copy of a node is
    appended to the root list and is named after the root of the source
    name, which is the source name without a "(Copy)" or "(Copy N)" suffix
    when it has one: the copy is called "root (Copy)" if no node of the
    forest, at any depth, has that name, and otherwise "root (Copy N)" for
    the least N >= 2 that no node has; no node of the forest has the name
    chosen.  The suffixes of this scheme are stripped from every root that
    has no line break in it. *)
Theorem duplicate_naming :
  (map name
     (objects (runAll (externalWith (Returned None)) counterId
                 [AddShape box "#336699"; DuplicateObject "id0";
                  DuplicateObject "id0"] emptyState))
   = ["Box 1"; "Box 1 (Copy)"; "Box 1 (Copy 2)"] /\
   map name
     (objects (runAll (externalWith (Returned None)) counterId
                 [AddShape box "#336699"; DuplicateObject "id0";
                  DuplicateObject "id1"] emptyState))
   = ["Box 1"; "Box 1 (Copy)"; "Box 1 (Copy 2)"])
  /\
  (forall (gen : nat -> string) (st : AppState) (i : string)
          (original : SceneObject),
      findObjectRecursive (objects st) i = Some original ->
      exists copy : SceneObject,
        objects (handleDuplicateObject gen i st) = objects st ++ [copy] /\
        (forall node, In node (allNodes (objects st)) ->
                      name node <> name copy) /\
        let root := rootName (name original) in
        let taken (nm : string) :=
          exists node, In node (allNodes (objects st)) /\ name node = nm in
        (name copy = (root ++ " (Copy)")%string \/
         exists N : nat,
           2 <= N /\
           name copy = (root ++ " (Copy " ++ string_of_nat N ++ ")")%string /\
           taken (root ++ " (Copy)")%string /\
           forall j, 2 <= j < N ->
                     taken (root ++ " (Copy " ++ string_of_nat j ++ ")")%string))
  /\
  (forall root : string,
      singleLine root ->
      rootName (root ++ " (Copy)") = root /\
      forall N : nat,
        rootName (root ++ " (Copy " ++ string_of_nat N ++ ")") = root).
Proof.
  split; [split; reflexivity|]. split; [|exact rootName_strips].
  intros gen st i original Hfind.
  unfold handleDuplicateObject. rewrite Hfind.
  destruct (deepClone gen (copyName (getAllNames (objects st)) (name original))
              original true (idCalls st)) as [copy n'] eqn:Hclone.
  exists copy. split; [reflexivity|].
  assert (Hname : name copy
                  = copyName (getAllNames (objects st)) (name original)).
  { pose proof (deepClone_root_name gen
                  (copyName (getAllNames (objects st)) (name original))
                  original (idCalls st)) as H.
    now rewrite Hclone in H. }
  destruct (copyName_spec (getAllNames (objects st)) (name original))
    as (k & Hk & Hcand & Hfree & Hbelow).
  rewrite <- Hname in Hcand, Hfree. clear Hname Hclone.
  rewrite getAllNames_nodes in Hfree, Hbelow.
  assert (Htaken : forall nm, In nm (map name (allNodes (objects st))) ->
                     exists node, In node (allNodes (objects st)) /\
                                  name node = nm).
  { intros nm Hin. apply in_map_iff in Hin.
    destruct Hin as (node & Hn & Hin). eauto. }
  split.
  - intros node Hin Heq. apply Hfree. rewrite <- Heq.
    now apply in_map.
  - cbv zeta. rewrite Hcand.
    destruct (Nat.eq_dec k 1) as [->|Hne]; [left; reflexivity|].
    right. exists k. split; [lia|]. split.
    + unfold candidate. destruct k as [|[|k]]; [lia | lia | reflexivity].
    + split.
      * apply Htaken. apply (Hbelow 1). lia.
      * intros j Hj. apply Htaken.
        replace (rootName (name original) ++ " (Copy " ++ string_of_nat j ++ ")")%string
          with (candidate (rootName (name original)) j).
        -- apply Hbelow. lia.
        -- unfold candidate. destruct j as [|[|j]]; [lia | lia | reflexivity].
Qed.

(* ================================================================== *)
(** * Identifier uniqueness *)
(* ================================================================== *)

Lemma subMultiset_refl {A : Type} (l : list A) : subMultiset l l.
Proof. exists []. now rewrite app_nil_r. Qed.

Lemma subMultiset_nil {A : Type} (l : list A) : subMultiset [] l.
Proof. exists l. reflexivity. Qed.

Lemma subMultiset_app {A : Type} (k1 k2 o1 o2 : list A) :
  subMultiset k1 o1 -> subMultiset k2 o2 -> subMultiset (k1 ++ k2) (o1 ++ o2).
Proof.
  intros (d1 & H1) (d2 & H2). exists (d1 ++ d2).
  rewrite H1, H2, <- !app_assoc. apply Permutation_app_head.
  rewrite !app_assoc. apply Permutation_app_tail. apply Permutation_app_comm.
Qed.

Lemma subMultiset_cons {A : Type} (x : A) (k o : list A) :
  subMultiset k o -> subMultiset (x :: k) (x :: o).
Proof.
  intros H. apply (subMultiset_app [x] k [x] o); [apply subMultiset_refl | exact H].
Qed.

Lemma subMultiset_skip {A : Type} (x : A) (k o : list A) :
  subMultiset k o -> subMultiset k (x :: o).
Proof.
  intros H. apply (subMultiset_app [] k [x] o); [apply subMultiset_nil | exact H].
Qed.

Lemma subMultiset_trans {A : Type} (a b c : list A) :
  subMultiset a b -> subMultiset b c -> subMultiset a c.
Proof.
  intros (d1 & H1) (d2 & H2). exists (d1 ++ d2).
  rewrite H2, H1, app_assoc. reflexivity.
Qed.

Lemma subMultiset_perm {A : Type} (k o o' : list A) :
  Permutation o o' -> subMultiset k o -> subMultiset k o'.
Proof.
  intros Hp (d & H). exists d. now rewrite <- Hp.
Qed.

Lemma subMultiset_NoDup {A : Type} (k o : list A) :
  subMultiset k o -> NoDup o -> NoDup k.
Proof.
  intros (d & H) Hnd. apply (Permutation_NoDup H) in Hnd.
  now apply NoDup_app_remove_r in Hnd.
Qed.

Lemma subMultiset_In {A : Type} (k o : list A) (x : A) :
  subMultiset k o -> In x k -> In x o.
Proof.
  intros (d & H) Hin. apply (Permutation_in x (Permutation_sym H)).
  apply in_or_app. now left.
Qed.

Lemma flat_map_partition {A B : Type} (g : A -> list B) (f : A -> bool)
    (l : list A) :
  Permutation (flat_map g l)
    (flat_map g (filter (fun a => negb (f a)) l) ++ flat_map g (filter f l)).
Proof.
  induction l as [|a l IH]; simpl; [constructor|].
  destruct (f a); simpl.
  - rewrite IH, !app_assoc. apply Permutation_app_tail.
    apply Permutation_app_comm.
  - rewrite IH, app_assoc. reflexivity.
Qed.

Lemma idsOf_withPosition (o : SceneObject) (p : Vector3) :
  idsOf (withPosition o p) = idsOf o.
Proof. destruct o; reflexivity. Qed.

Lemma idsOf_ungroupChild (ext : External) (m : Matrix4) (o : SceneObject) :
  idsOf (ungroupChild ext m o) = idsOf o.
Proof.
  unfold ungroupChild. destruct (decomposeEuler ext _) as [[pos euler] scl].
  destruct o; reflexivity.
Qed.

Lemma allIds_map (f : SceneObject -> SceneObject) (l : list SceneObject) :
  (forall o, idsOf (f o) = idsOf o) -> allIds (map f l) = allIds l.
Proof.
  intros Hf. unfold allIds. induction l as [|a l IH]; simpl; [reflexivity|].
  now rewrite Hf, IH.
Qed.

Lemma allIds_app (a b : list SceneObject) :
  allIds (a ++ b) = allIds a ++ allIds b.
Proof. apply flat_map_app. Qed.

(** Deleting keeps identifiers apart: what stays was there before. *)
Lemma deleteInObject_ids (ids : list string) (obj : SceneObject) :
  subMultiset (idsOf (deleteInObject ids obj)) (idsOf obj).
Proof.
  induction obj as [obj IH] using SceneObject_nested_ind.
  destruct obj as [oid t p r s pv c n kids g b]; simpl in *.
  destruct kids as [cs|]; simpl; [|apply subMultiset_refl].
  apply subMultiset_cons. specialize (IH cs eq_refl).
  induction IH as [|a l Ha _ IHl]; simpl; [apply subMultiset_refl|].
  destruct (includes ids (id a)).
  - apply (subMultiset_app [] _ (idsOf a) _); [apply subMultiset_nil | exact IHl].
  - simpl. apply subMultiset_app; assumption.
Qed.

Lemma deleteObjectRecursive_ids (ids : list string) (objs : list SceneObject) :
  subMultiset (allIds (deleteObjectRecursive objs ids)) (allIds objs).
Proof.
  unfold deleteObjectRecursive, allIds.
  induction objs as [|a l IH]; simpl; [apply subMultiset_refl|].
  destruct (includes ids (id a)).
  - apply (subMultiset_app [] _ (idsOf a) _); [apply subMultiset_nil | exact IH].
  - simpl. apply subMultiset_app; [apply deleteInObject_ids | exact IH].
Qed.

Section FreshIdentifiers.

Variable ext : External.
Variable gen : nat -> string.
Hypothesis gen_fresh : forall j k : nat, gen j = gen k -> j = k.

(** A copy carries the identifiers of the next calls of the generator, one
    per node of the original. *)
Lemma deepClone_ids (newName : string) (obj : SceneObject) :
  forall (isRoot : bool) (n : nat),
    idsOf (fst (deepClone gen newName obj isRoot n))
    = map gen (seq n (List.length (idsOf obj))) /\
    snd (deepClone gen newName obj isRoot n) = n + List.length (idsOf obj).
Proof.
  induction obj as [obj IH] using SceneObject_nested_ind.
  destruct obj as [oid t p r s pv c nm kids g b]; simpl in *.
  intros isRoot n. destruct kids as [cs|]; simpl.
  2: { split; [reflexivity | lia]. }
  specialize (IH cs eq_refl).
  assert (Hall : forall k,
             flat_map idsOf
               (fst (mapWithCounter
                       (fun c0 k0 => deepClone gen newName c0 false k0) cs k))
             = map gen (seq k (List.length (flat_map idsOf cs))) /\
             snd (mapWithCounter
                    (fun c0 k0 => deepClone gen newName c0 false k0) cs k)
             = k + List.length (flat_map idsOf cs)).
  { clear -IH. induction IH as [|a l Ha _ IHl]; intros k; simpl.
    - split; [reflexivity | lia].
    - destruct (Ha false k) as (Hi & Hn).
      destruct (deepClone gen newName a false k) as [a' k1]; simpl in *.
      destruct (IHl k1) as (Hi' & Hn').
      destruct (mapWithCounter _ l k1) as [l' k2]; simpl in *.
      rewrite length_app, seq_app, map_app, Hi, Hi', Hn', Hn.
      split; [reflexivity | lia]. }
  destruct (Hall (S n)) as (Hi & Hn).
  destruct (mapWithCounter _ cs (S n)) as [cs' n']; simpl in *.
  rewrite Hi, Hn. split; [reflexivity | lia].
Qed.

Lemma distinctIds_step (n m : nat) (old kept new : list string) :
  distinctIds gen n old ->
  subMultiset kept old ->
  Permutation new (map gen (seq n m) ++ kept) ->
  distinctIds gen (n + m) new.
Proof.
  intros (Hnd & Hiss) Hsub Hperm. split.
  - apply (Permutation_NoDup (Permutation_sym Hperm)).
    apply NoDup_app.
    + apply NoDup_map_NoDup_ForallPairs; [|apply seq_NoDup].
      intros j k _ _. apply gen_fresh.
    + exact (subMultiset_NoDup _ _ Hsub Hnd).
    + intros x Hx Hk. apply in_map_iff in Hx. destruct Hx as (j & <- & Hj).
      apply in_seq in Hj.
      destruct (Hiss _ (subMultiset_In _ _ _ Hsub Hk)) as (k & Hlt & Heq).
      apply gen_fresh in Heq. lia.
  - intros x Hx. apply (Permutation_in x Hperm) in Hx.
    apply in_app_or in Hx. destruct Hx as [Hx|Hx].
    + apply in_map_iff in Hx. destruct Hx as (j & <- & Hj).
      apply in_seq in Hj. exists j. split; [lia | reflexivity].
    + destruct (Hiss _ (subMultiset_In _ _ _ Hsub Hx)) as (k & Hlt & Heq).
      exists k. split; [lia | exact Heq].
Qed.

(** Appending one freshly identified tree. *)
Lemma distinctIds_append (n m : nat) (objs : list SceneObject)
    (tree : SceneObject) :
  distinctIds gen n (allIds objs) ->
  idsOf tree = map gen (seq n m) ->
  distinctIds gen (n + m) (allIds (objs ++ [tree])).
Proof.
  intros Hd Hids.
  apply (distinctIds_step n m (allIds objs) (allIds objs) _ Hd
           (subMultiset_refl _)).
  rewrite allIds_app. unfold allIds at 2. simpl. rewrite app_nil_r, Hids.
  apply Permutation_app_comm.
Qed.

End FreshIdentifiers.

Section CommandsKeepIdentifiers.

Variable ext : External.
Variable gen : nat -> string.
Hypothesis gen_fresh : forall j k : nat, gen j = gen k -> j = k.

Lemma distinctIds_sub (n : nat) (old new : list string) :
  distinctIds gen n old -> subMultiset new old -> distinctIds gen n new.
Proof.
  intros Hd Hsub. rewrite <- (Nat.add_0_r n).
  apply (distinctIds_step gen gen_fresh n 0 old new new Hd Hsub).
  reflexivity.
Qed.

Lemma wellIdentified_same (st st' : AppState) :
  objects st' = objects st -> idCalls st' = idCalls st ->
  wellIdentified gen st -> wellIdentified gen st'.
Proof. unfold wellIdentified. now intros -> ->. Qed.

Lemma filter_ids (f : SceneObject -> bool) (l : list SceneObject) :
  subMultiset (allIds (filter f l)) (allIds l).
Proof.
  exists (allIds (filter (fun a => negb (f a)) l)). unfold allIds.
  rewrite (flat_map_partition idsOf f l). apply Permutation_app_comm.
Qed.

Lemma handleAddShape_ids (t : ShapeType) (newColor : string) (st : AppState) :
  wellIdentified gen st -> wellIdentified gen (handleAddShape gen t newColor st).
Proof.
  unfold wellIdentified, handleAddShape; simpl. intros Hd.
  rewrite <- Nat.add_1_r. now apply distinctIds_append.
Qed.

Lemma handleImportModel_ids (fileName stem : string) (parsed : ImportOutcome)
    (newColor : string) (st : AppState) :
  wellIdentified gen st ->
  wellIdentified gen (handleImportModel gen fileName stem parsed newColor st).
Proof.
  unfold wellIdentified, handleImportModel. destruct parsed; simpl; auto.
  intros Hd. rewrite <- Nat.add_1_r. now apply distinctIds_append.
Qed.

Lemma handleDuplicateObject_ids (i : string) (st : AppState) :
  wellIdentified gen st -> wellIdentified gen (handleDuplicateObject gen i st).
Proof.
  unfold wellIdentified, handleDuplicateObject. intros Hd.
  destruct (findObjectRecursive (objects st) i) as [original|]; [|exact Hd].
  destruct (deepClone_ids gen
              (copyName (getAllNames (objects st)) (name original))
              original true (idCalls st)) as (Hids & Hn).
  destruct (deepClone gen _ original true (idCalls st)) as [copy n'].
  simpl in *. subst n'. now apply distinctIds_append.
Qed.

Lemma handleDeleteObject_ids (i : string) (st : AppState) :
  wellIdentified gen st -> wellIdentified gen (handleDeleteObject i st).
Proof.
  unfold wellIdentified, handleDeleteObject; simpl. intros Hd.
  apply (distinctIds_sub _ _ _ Hd). apply deleteObjectRecursive_ids.
Qed.

Lemma onDeleteSelected_ids (st : AppState) :
  wellIdentified gen st -> wellIdentified gen (onDeleteSelected st).
Proof.
  unfold wellIdentified, onDeleteSelected; simpl. intros Hd.
  apply (distinctIds_sub _ _ _ Hd).
  generalize (objects st) as objs. generalize (selectedIds st) as sel.
  induction sel as [|i sel IH]; intros objs; simpl; [apply subMultiset_refl|].
  eapply subMultiset_trans; [apply IH | apply deleteObjectRecursive_ids].
Qed.

Lemma handleGroup_ids (st : AppState) :
  wellIdentified gen st -> wellIdentified gen (handleGroup gen st).
Proof.
  unfold wellIdentified, handleGroup. intros Hd.
  destruct (List.length (selectedIds st) <? 2)%nat; [exact Hd|].
  set (sel := fun obj => includes (selectedIds st) (id obj)).
  destruct (filter sel (objects st)) as [|o l] eqn:E; [exact Hd|].
  rewrite <- E. simpl. rewrite <- Nat.add_1_r.
  apply (distinctIds_step gen gen_fresh _ 1 _
           (allIds (filter (fun obj => negb (sel obj)) (objects st))
            ++ allIds (filter sel (objects st))) _ Hd).
  - exists []. rewrite app_nil_r. apply flat_map_partition.
  - rewrite allIds_app. unfold allIds at 2. simpl. rewrite app_nil_r.
    fold (allIds (map (fun o0 => withPosition o0
                        (vsub (position o0) (centerOf (filter sel (objects st)))))
                      (filter sel (objects st)))).
    rewrite (allIds_map _ _ (fun o0 => idsOf_withPosition o0 _)).
    symmetry. apply Permutation_middle.
Qed.

Lemma handleUngroup_ids (st : AppState) :
  wellIdentified gen st -> wellIdentified gen (handleUngroup ext st).
Proof.
  unfold wellIdentified, handleUngroup. intros Hd.
  destruct (selectedIds st) as [|selected [|? ?]]; try exact Hd.
  destruct (find _ (objects st)) as [grp|] eqn:Hfind; [|exact Hd].
  destruct (ShapeType_eqb (type grp) group); [|exact Hd].
  destruct (children grp) as [kids|] eqn:Hkids; [|exact Hd].
  simpl. apply (distinctIds_sub _ _ _ Hd).
  apply find_some in Hfind. destruct Hfind as (Hin & _).
  apply in_split in Hin. destruct Hin as (l1 & l2 & Hsplit).
  rewrite Hsplit, filter_app. simpl. rewrite String.eqb_refl. simpl.
  rewrite !allIds_app.
  rewrite (allIds_map _ _ (idsOf_ungroupChild ext _)).
  assert (Hgrp : allIds (grp :: l2) = id grp :: allIds kids ++ allIds l2).
  { unfold allIds. simpl. destruct grp; simpl in *. now rewrite Hkids. }
  rewrite Hgrp.
  apply (subMultiset_perm _
           (allIds l1 ++ allIds l2 ++ id grp :: allIds kids)).
  - apply Permutation_app_head.
    rewrite (Permutation_app_comm (allIds l2) (id grp :: allIds kids)).
    reflexivity.
  - rewrite <- app_assoc.
    apply subMultiset_app; [apply filter_ids|].
    apply subMultiset_app; [apply filter_ids|].
    apply subMultiset_skip, subMultiset_refl.
Qed.

Lemma executeBooleanOperation_id (objA objB : SceneObject) (op : Operation)
    (n : nat) (result : SceneObject) (err : option string) (n' : nat) :
  executeBooleanOperation ext gen objA objB op n = (Some result, err, n') ->
  idsOf result = [gen n] /\ n' = S n.
Proof.
  unfold executeBooleanOperation.
  destruct (createMeshFromObject ext objA); [|discriminate].
  destruct (createMeshFromObject ext objB); [|discriminate].
  destruct (negb _); [discriminate|].
  simpl. intros H. injection H as <- _ <-. auto.
Qed.

Lemma handleBooleanOperation_ids (op : Operation) (st : AppState) :
  wellIdentified gen st ->
  wellIdentified gen (handleBooleanOperation ext gen op st).
Proof.
  unfold wellIdentified, handleBooleanOperation, performBooleanOperation.
  intros Hd.
  destruct (selectedIds st) as [|idA [|idB [|? ?]]]; try exact Hd.
  destruct (findObjectRecursive (objects st) idA) as [objA|]; [|exact Hd].
  destruct (findObjectRecursive (objects st) idB) as [objB|]; [|exact Hd].
  destruct (_ || _); [exact Hd|].
  destruct (executeBooleanOperation ext gen objA objB op (idCalls st))
    as [[[result|] err] n'] eqn:He; [|exact Hd].
  destruct (executeBooleanOperation_id _ _ _ _ _ _ _ He) as (Hid & ->).
  simpl. rewrite <- Nat.add_1_r.
  apply (distinctIds_step gen gen_fresh _ 1 _
           (allIds (deleteObjectRecursive (objects st) [idA; idB])) _ Hd).
  - apply deleteObjectRecursive_ids.
  - rewrite allIds_app. unfold allIds at 2. simpl. rewrite app_nil_r, Hid.
    apply Permutation_app_comm.
Qed.

Lemma run_ids (c : Command) (st : AppState) :
  drawsIds c = true ->
  wellIdentified gen st -> wellIdentified gen (run ext gen c st).
Proof.
  destruct c; simpl; try discriminate; intros _.
  - apply handleAddShape_ids.
  - apply handleDeleteObject_ids.
  - apply onDeleteSelected_ids.
  - apply handleDuplicateObject_ids.
  - apply wellIdentified_same; unfold handleSelect;
      (destruct i as [x|]; [destruct multi; [destruct (includes _ _)|]|]);
      reflexivity.
  - apply handleGroup_ids.
  - apply handleUngroup_ids.
  - apply handleBooleanOperation_ids.
  - apply handleImportModel_ids.
Qed.

Lemma runAll_ids (cs : list Command) :
  forall st : AppState,
    forallb drawsIds cs = true ->
    wellIdentified gen st -> wellIdentified gen (runAll ext gen cs st).
Proof.
  induction cs as [|c cs IH]; intros st Hcs Hst; [exact Hst|].
  simpl in Hcs. apply andb_prop in Hcs. destruct Hcs as (Hc & Hcs).
  change (runAll ext gen (c :: cs) st)
    with (runAll ext gen cs (run ext gen c st)).
  apply IH; [exact Hcs | now apply run_ids].
Qed.

End CommandsKeepIdentifiers.

Lemma counterId_fresh (j k : nat) : counterId j = counterId k -> j = k.
Proof.
  unfold counterId. intros H. apply append_inv_head in H.
  now apply string_of_nat_inj.
Qed.

Lemma wellIdentified_emptyState (gen : nat -> string) :
  wellIdentified gen emptyState.
Proof.
  split; [constructor | intros i []].
Qed.

(** C7. Let the generator never return an identifier twice, and let the
    identifiers of the forest be pairwise distinct and drawn from it.  Then
    after any sequence of commands that does not patch properties (add,
    duplicate, group, ungroup, boolean combine, and also select, delete and
    import) the identifiers of all nodes of the forest, at every depth, are
    pairwise distinct.  A duplicate has as many nodes as its original, and
    each of them, descendants included, carries an identifier of its own
    that no node of the forest has. *)
Theorem identifiers_stay_distinct :
  forall (ext : External) (gen : nat -> string),
    (forall j k : nat, gen j = gen k -> j = k) ->
    forall st : AppState,
      wellIdentified gen st ->
      (forall cs : list Command,
          forallb drawsIds cs = true ->
          NoDup (map id (allNodes (objects (runAll ext gen cs st))))) /\
      (forall (i : string) (original : SceneObject),
          findObjectRecursive (objects st) i = Some original ->
          exists copy : SceneObject,
            objects (handleDuplicateObject gen i st) = objects st ++ [copy] /\
            List.length (nodesOf copy) = List.length (nodesOf original) /\
            NoDup (map id (nodesOf copy)) /\
            forall node, In node (nodesOf copy) ->
                         ~ In (id node) (map id (allNodes (objects st)))).
Proof.
  intros ext gen gen_fresh st Hst. split.
  - intros cs Hcs. rewrite <- allIds_nodes.
    apply (runAll_ids ext gen gen_fresh cs st Hcs Hst).
  - intros i original Hfind. unfold handleDuplicateObject. rewrite Hfind.
    destruct (deepClone_ids gen
                (copyName (getAllNames (objects st)) (name original))
                original true (idCalls st)) as (Hids & _).
    destruct (deepClone gen _ original true (idCalls st)) as [copy n'].
    simpl in Hids. exists copy. split; [reflexivity|].
    rewrite <- !idsOf_nodes, <- allIds_nodes.
    assert (Hlen : List.length (nodesOf copy) = List.length (nodesOf original)).
    { rewrite <- (length_map id (nodesOf copy)),
              <- (length_map id (nodesOf original)), <- !idsOf_nodes, Hids.
      now rewrite length_map, length_seq. }
    split; [exact Hlen|]. split.
    + rewrite Hids. apply NoDup_map_NoDup_ForallPairs; [|apply seq_NoDup].
      intros j k _ _. apply gen_fresh.
    + intros node Hnode Hold.
      assert (Hin : In (id node) (idsOf copy))
        by (rewrite idsOf_nodes; now apply in_map).
      rewrite Hids in Hin. apply in_map_iff in Hin.
      destruct Hin as (j & Hj & Hseq). apply in_seq in Hseq.
      destruct (proj2 Hst _ Hold) as (k & Hk & Heq).
      rewrite Heq in Hj. apply gen_fresh in Hj. lia.
Qed.

Lemma identifiers_stay_distinct_witness :
  NoDup (map id (allNodes (objects
    (runAll (externalWith (Returned (Some unionMesh))) counterId
       [ AddShape box "#336699"; DuplicateObject "id0";
         Select (Some "id0") false; Select (Some "id1") true;
         Group; DuplicateObject "id2"; Ungroup;
         Select (Some "id0") false; Select (Some "id1") true;
         BooleanOperation union ]
       emptyState)))).
Proof.
  apply (proj1 (identifiers_stay_distinct
                  (externalWith (Returned (Some unionMesh))) counterId
                  counterId_fresh emptyState
                  (wellIdentified_emptyState counterId))).
  reflexivity.
Defined.

Lemma duplicate_naming_witness :
  (exists copy : SceneObject,
      objects (handleDuplicateObject counterId "a" oneBoxState)
      = objects oneBoxState ++ [copy] /\
      forall node, In node (allNodes (objects oneBoxState)) ->
                   name node <> name copy) /\
  rootName "Box 1 (Copy)" = "Box 1".
Proof.
  split.
  - destruct (proj1 (proj2 duplicate_naming) counterId oneBoxState "a" _ eq_refl)
      as (copy & Hobjs & Hfree & _).
    exists copy. split; assumption.
  - exact (proj1 (proj2 (proj2 duplicate_naming) "Box 1" eq_refl)).
Defined.

(* ================================================================== *)
(** * The pattern matches the scheme's suffixes only *)
(* ================================================================== *)

Lemma string_of_list_ascii_app (a b : list ascii) :
  string_of_list_ascii (a ++ b)
  = (string_of_list_ascii a ++ string_of_list_ascii b)%string.
Proof.
  induction a as [|c a IH]; simpl; [reflexivity | now rewrite IH].
Qed.

Lemma spanDigits_sound (l : list ascii) :
  l = fst (spanDigits l) ++ snd (spanDigits l) /\
  forallb isDigit (fst (spanDigits l)) = true.
Proof.
  induction l as [|c l (IHl & IHd)]; simpl; [auto|].
  destruct (isDigit c) eqn:E; [|auto].
  destruct (spanDigits l) as [ds rest]; simpl in *.
  split; [now rewrite <- IHl | now rewrite E].
Qed.

Local Ltac literal c H :=
  destruct c as [[] [] [] [] [] [] [] []]; try discriminate H.

Lemma stripOpening_sound (r root : list ascii) :
  stripOpening r = Some root ->
  exists w,
    isWhitespace w = true /\
    forallb (fun c => negb (isLineTerminator c)) root = true /\
    r = ("y" :: "p" :: "o" :: "C" :: "(" :: w :: root)%char.
Proof.
  unfold stripOpening. intros H.
  destruct r as [|c1 r]; [discriminate H|]. literal c1 H.
  destruct r as [|c2 r]; [discriminate H|]. literal c2 H.
  destruct r as [|c3 r]; [discriminate H|]. literal c3 H.
  destruct r as [|c4 r]; [discriminate H|]. literal c4 H.
  destruct r as [|c5 r]; [discriminate H|]. literal c5 H.
  destruct r as [|w r]; [discriminate H|].
  destruct (isWhitespace w) eqn:Hw; [|discriminate H].
  destruct (forallb _ r) eqn:Hr; [|discriminate H].
  simpl in H. injection H as <-. exists w. auto.
Qed.

Lemma stripOpening_name (nm : string) (tail r root : list ascii) :
  List.rev (list_ascii_of_string nm) = tail ++ r ->
  stripOpening r = Some root ->
  singleLine (string_of_list_ascii (List.rev root)) /\
  exists w,
    isWhitespace w = true /\
    nm = (string_of_list_ascii (List.rev root)
          ++ String w ("(Copy" ++ string_of_list_ascii (List.rev tail)))%string.
Proof.
  intros Hrev Hstrip.
  destruct (stripOpening_sound r root Hstrip) as (w & Hw & Hline & ->).
  split.
  - unfold singleLine.
    now rewrite list_ascii_of_string_of_list_ascii, forallb_rev.
  - exists w. split; [exact Hw|].
    apply (f_equal (@List.rev ascii)) in Hrev.
    rewrite rev_involutive in Hrev.
    rewrite <- (string_of_list_ascii_of_string nm), Hrev.
    rewrite rev_app_distr. cbn [List.rev].
    rewrite <- !app_assoc. cbn [app].
    rewrite string_of_list_ascii_app. reflexivity.
Qed.

(** Whatever [matchCopy] strips is a suffix of the naming scheme, after a
    single-line root. *)
Lemma matchCopy_sound (nm root : string) :
  matchCopy nm = Some root ->
  singleLine root /\
  exists w,
    isWhitespace w = true /\
    (nm = (root ++ String w "(Copy)")%string \/
     exists w' ds,
       isWhitespace w' = true /\ digitString ds /\
       nm = (root ++ String w ("(Copy" ++ String w' (ds ++ ")")))%string).
Proof.
  unfold matchCopy.
  destruct (List.rev (list_ascii_of_string nm)) as [|c r0] eqn:Hrev;
    [discriminate|].
  intros H. literal c H.
  destruct (spanDigits_sound r0) as (Hsplit & Hdigits).
  destruct (spanDigits r0) as [ds rest]. simpl in Hsplit, Hdigits.
  destruct ds as [|d ds].
  - destruct (stripOpening r0) as [root'|] eqn:Hs; [|discriminate H].
    simpl in H. injection H as <-.
    destruct (stripOpening_name nm [")"%char] r0 root' Hrev Hs)
      as (Hline & w & Hw & Hnm).
    split; [exact Hline|]. exists w. split; [exact Hw|]. now left.
  - destruct rest as [|w' rest']; [discriminate H|].
    destruct (isWhitespace w') eqn:Hw'; [|discriminate H].
    destruct (stripOpening rest') as [root'|] eqn:Hs; [|discriminate H].
    simpl in H. injection H as <-.
    assert (Hrev' : List.rev (list_ascii_of_string nm)
                    = (")"%char :: (d :: ds) ++ [w']) ++ rest').
    { rewrite Hrev, Hsplit. cbn [app]. rewrite <- app_assoc. reflexivity. }
    destruct (stripOpening_name nm _ rest' root' Hrev' Hs)
      as (Hline & w & Hw & Hnm).
    split; [exact Hline|]. exists w. split; [exact Hw|]. right.
    exists w', (string_of_list_ascii (List.rev (d :: ds))).
    split; [exact Hw'|]. split.
    + split.
      * intros Hempty. apply (f_equal list_ascii_of_string) in Hempty.
        rewrite list_ascii_of_string_of_list_ascii in Hempty.
        apply (f_equal (@List.length ascii)) in Hempty.
        rewrite length_rev in Hempty. discriminate Hempty.
      * now rewrite list_ascii_of_string_of_list_ascii, forallb_rev.
    + assert (Hr : List.rev (")"%char :: (d :: ds) ++ [w'])
                   = w' :: (List.rev (d :: ds) ++ [")"%char])).
      { change (")"%char :: (d :: ds) ++ [w'])
          with ([")"%char] ++ ((d :: ds) ++ [w'])).
        rewrite !rev_app_distr. reflexivity. }
      rewrite Hnm, Hr. cbn [string_of_list_ascii].
      rewrite string_of_list_ascii_app. reflexivity.
Qed.

(** A run of commands that are all mutating ones counts its length. *)
Lemma mutations_length (ext : External) (gen : nat -> string)
    (cs : list Command) :
  forall st : AppState,
    (forall k c, nth_error cs k = Some c ->
                 mutating ext gen c (runAll ext gen (firstn k cs) st) = true) ->
    mutations ext gen cs st = List.length cs.
Proof.
  induction cs as [|c cs IH]; intros st Hall; [reflexivity|].
  cbn [mutations List.length].
  rewrite (Hall 0 c eq_refl : mutating ext gen c st = true).
  rewrite IH; [reflexivity|].
  intros k c' Hk. exact (Hall (S k) c' Hk).
Qed.

(* ================================================================== *)
(** * Lookup, update and delete over the forest *)
(* ================================================================== *)

Lemma find_app {A : Type} (f : A -> bool) (a b : list A) :
  find f (a ++ b)
  = match find f a with
    | Some x => Some x
    | None => find f b
    end.
Proof.
  induction a as [|x a IH]; simpl; [reflexivity|].
  now destruct (f x).
Qed.

Lemma firstSome_flat_map {A B : Type} (g : A -> option B) (h : A -> list B)
    (f : B -> bool) (l : list A) :
  Forall (fun a => g a = find f (h a)) l ->
  firstSome g l = find f (flat_map h l).
Proof.
  induction 1 as [|a l Ha _ IH]; simpl; [reflexivity|].
  now rewrite find_app, Ha, IH.
Qed.

Lemma findInObject_preorder (i : string) (obj : SceneObject) :
  findInObject i obj = find (fun o => id o =? i)%string (nodesOf obj).
Proof.
  induction obj as [obj IH] using SceneObject_nested_ind.
  destruct obj as [oid t p r s pv c n kids g b]; simpl in *.
  destruct (oid =? i)%string; [reflexivity|].
  destruct kids as [cs|]; [|reflexivity].
  apply firstSome_flat_map. exact (IH cs eq_refl).
Qed.

Lemma findObjectRecursive_preorder (objs : list SceneObject) (i : string) :
  findObjectRecursive objs i
  = find (fun o => id o =? i)%string (allNodes objs).
Proof.
  apply firstSome_flat_map.
  apply Forall_forall. intros o _. apply findInObject_preorder.
Qed.

(** X1. The recursive lookup returns the first node, in depth-first order
    with parents before their children, whose identifier is the one asked
    for, and nothing when no node at any depth has it. *)
Theorem findObjectRecursive_first_in_preorder :
  forall (objs : list SceneObject) (i : string),
    findObjectRecursive objs i
    = find (fun o => id o =? i)%string (allNodes objs).
Proof. exact findObjectRecursive_preorder. Qed.

Lemma findObjectRecursive_found (objs : list SceneObject) (i : string)
    (o : SceneObject) :
  findObjectRecursive objs i = Some o -> id o = i /\ In o (allNodes objs).
Proof.
  rewrite findObjectRecursive_preorder. intros H.
  apply find_some in H. destruct H as (Hin & Heq).
  apply String.eqb_eq in Heq. auto.
Qed.

Lemma findObjectRecursive_none (objs : list SceneObject) (i : string) :
  findObjectRecursive objs i = None -> ~ In i (allIds objs).
Proof.
  rewrite findObjectRecursive_preorder, allIds_nodes. intros H Hin.
  apply in_map_iff in Hin. destruct Hin as (o & Hid & Ho).
  pose proof (find_none _ _ H o Ho) as Hf. simpl in Hf.
  rewrite Hid, String.eqb_refl in Hf. discriminate.
Qed.

Lemma findInObject_none (i : string) (obj : SceneObject) :
  findInObject i obj = None -> ~ In i (idsOf obj).
Proof.
  rewrite findInObject_preorder, idsOf_nodes. intros H Hin.
  apply in_map_iff in Hin. destruct Hin as (o & Hid & Ho).
  pose proof (find_none _ _ H o Ho) as Hf. simpl in Hf.
  rewrite Hid, String.eqb_refl in Hf. discriminate.
Qed.

(** ** Update *)

Lemma updateObject_absent (i : string) (updates : Partial) (obj : SceneObject) :
  ~ In i (idsOf obj) -> updateObject i updates obj = obj.
Proof.
  induction obj as [obj IH] using SceneObject_nested_ind.
  destruct obj as [oid t p r s pv c n kids g b]; simpl in *.
  intros Hnot.
  destruct (String.eqb_spec oid i) as [->|_]; [tauto|].
  destruct kids as [cs|]; [|reflexivity].
  unfold withChildren; simpl. do 2 f_equal.
  specialize (IH cs eq_refl).
  assert (Hcs : ~ In i (flat_map idsOf cs)) by tauto.
  clear Hnot. induction IH as [|a l Ha _ IHl]; simpl; [reflexivity|].
  simpl in Hcs. rewrite Ha, IHl; auto;
    intros Hin; apply Hcs; apply in_or_app; auto.
Qed.

Lemma updateObjectRecursive_absent (objs : list SceneObject) (i : string)
    (updates : Partial) :
  ~ In i (allIds objs) -> updateObjectRecursive objs i updates = objs.
Proof.
  unfold updateObjectRecursive, allIds.
  induction objs as [|a l IH]; simpl; intros Hnot; [reflexivity|].
  rewrite updateObject_absent, IH; auto;
    intros Hin; apply Hnot; apply in_or_app; auto.
Qed.

Lemma idsOf_applyUpdates (obj : SceneObject) (updates : Partial) :
  keepsStructure updates = true ->
  idsOf (applyUpdates obj updates) = idsOf obj.
Proof.
  unfold keepsStructure, applyUpdates.
  destruct (p_id updates); [discriminate|].
  destruct (p_children updates); [discriminate|].
  intros _. destruct obj; reflexivity.
Qed.

Lemma updateObject_ids (i : string) (updates : Partial) (obj : SceneObject) :
  keepsStructure updates = true ->
  idsOf (updateObject i updates obj) = idsOf obj.
Proof.
  intros Hk.
  induction obj as [obj IH] using SceneObject_nested_ind.
  destruct obj as [oid t p r s pv c n kids g b].
  cbn [updateObject id children].
  destruct (oid =? i)%string; [now apply idsOf_applyUpdates|].
  destruct kids as [cs|]; [|reflexivity].
  simpl. f_equal. specialize (IH cs eq_refl).
  induction IH as [|a l Ha _ IHl]; simpl; [reflexivity|].
  now rewrite Ha, IHl.
Qed.

Lemma updateObjectRecursive_ids (objs : list SceneObject) (i : string)
    (updates : Partial) :
  keepsStructure updates = true ->
  allIds (updateObjectRecursive objs i updates) = allIds objs.
Proof.
  intros Hk. unfold updateObjectRecursive.
  apply allIds_map. intros o. now apply updateObject_ids.
Qed.

Lemma findInObject_updateObject (i : string) (updates : Partial)
    (obj : SceneObject) :
  p_id updates = None ->
  findInObject i (updateObject i updates obj)
  = option_map (fun o => applyUpdates o updates) (findInObject i obj).
Proof.
  intros Hid.
  induction obj as [obj IH] using SceneObject_nested_ind.
  destruct obj as [oid t p r s pv c n kids g b].
  cbn [updateObject findInObject id children].
  destruct (oid =? i)%string eqn:E.
  - unfold applyUpdates. simpl. rewrite Hid. simpl. rewrite E. reflexivity.
  - destruct kids as [cs|].
    + cbn [withChildren findInObject id children]. rewrite E.
      specialize (IH cs eq_refl).
      induction IH as [|a l Ha _ IHl]; simpl; [reflexivity|].
      rewrite Ha. destruct (findInObject i a); simpl; [reflexivity | exact IHl].
    + cbn [findInObject id children]. now rewrite E.
Qed.

Lemma findObjectRecursive_updated (objs : list SceneObject) (i : string)
    (updates : Partial) :
  p_id updates = None ->
  findObjectRecursive (updateObjectRecursive objs i updates) i
  = option_map (fun o => applyUpdates o updates) (findObjectRecursive objs i).
Proof.
  intros Hid. unfold findObjectRecursive, updateObjectRecursive.
  induction objs as [|a l IH]; simpl; [reflexivity|].
  rewrite (findInObject_updateObject i updates a Hid).
  destruct (findInObject i a); simpl; [reflexivity | exact IH].
Qed.

(** X2. Patching a node by identifier: a patch for an identifier that
    occurs nowhere leaves the forest as it is; a patch that does not write
    the identifier is applied to the node the lookup finds, which the
    lookup then finds patched; and a patch that writes neither identifier
    nor children leaves the identifiers of the forest unchanged. *)
Theorem updateObjectRecursive_patches_found_node :
  forall (objs : list SceneObject) (i : string) (updates : Partial),
    (~ In i (allIds objs) -> updateObjectRecursive objs i updates = objs) /\
    (p_id updates = None ->
     findObjectRecursive (updateObjectRecursive objs i updates) i
     = option_map (fun o => applyUpdates o updates)
                  (findObjectRecursive objs i)) /\
    (keepsStructure updates = true ->
     allIds (updateObjectRecursive objs i updates) = allIds objs).
Proof.
  intros objs i updates. split; [apply updateObjectRecursive_absent|]. split.
  - apply findObjectRecursive_updated.
  - apply updateObjectRecursive_ids.
Qed.

Lemma updateObjectRecursive_patches_found_node_witness :
  findObjectRecursive
    (updateObjectRecursive (objects oneBoxState) "a" renamePatch) "a"
  = option_map (fun o => applyUpdates o renamePatch)
               (findObjectRecursive (objects oneBoxState) "a") /\
  allIds (updateObjectRecursive (objects oneBoxState) "a" renamePatch)
  = allIds (objects oneBoxState) /\
  updateObjectRecursive (objects oneBoxState) "zz" renamePatch
  = objects oneBoxState.
Proof.
  destruct (updateObjectRecursive_patches_found_node
              (objects oneBoxState) "a" renamePatch) as (_ & Hf & Hi).
  split; [exact (Hf eq_refl)|]. split; [exact (Hi eq_refl)|].
  apply (proj1 (updateObjectRecursive_patches_found_node
                  (objects oneBoxState) "zz" renamePatch)).
  simpl. intros [H|[]]. discriminate H.
Defined.

(** ** Delete *)

Lemma filterMap_removed (ids : list string) (x : string)
    (cs : list SceneObject) :
  In x ids ->
  Forall (fun obj =>
            includes ids (id obj) = false ->
            ~ In x (idsOf (deleteInObject ids obj))) cs ->
  ~ In x (flat_map idsOf (filterMap ids (deleteInObject ids) cs)).
Proof.
  intros Hx Hall. induction Hall as [|a l Ha _ IHl]; simpl; [tauto|].
  destruct (includes ids (id a)) eqn:E; [exact IHl|].
  simpl. intros Hin. apply in_app_or in Hin. destruct Hin as [Hin|Hin].
  - now apply (Ha eq_refl).
  - now apply IHl.
Qed.

Lemma deleteInObject_removed (ids : list string) (x : string)
    (obj : SceneObject) :
  In x ids ->
  includes ids (id obj) = false ->
  ~ In x (idsOf (deleteInObject ids obj)).
Proof.
  intros Hx.
  induction obj as [obj IH] using SceneObject_nested_ind.
  destruct obj as [oid t p r s pv c n kids g b]; simpl in *.
  intros Hroot.
  assert (Hne : oid <> x).
  { intros ->. apply includes_not_In in Hroot. contradiction. }
  destruct kids as [cs|]; simpl.
  - intros [Heq|Hin]; [contradiction|].
    revert Hin. apply filterMap_removed; [exact Hx | exact (IH cs eq_refl)].
  - intros [Heq|[]]. contradiction.
Qed.

Lemma filterMap_unchanged (ids : list string) (cs : list SceneObject) :
  (forall x, In x ids -> ~ In x (flat_map idsOf cs)) ->
  Forall (fun obj =>
            (forall x, In x ids -> ~ In x (idsOf obj)) ->
            deleteInObject ids obj = obj) cs ->
  filterMap ids (deleteInObject ids) cs = cs.
Proof.
  intros Hnot Hall. induction Hall as [|a l Ha _ IHl]; simpl; [reflexivity|].
  assert (Hroot : includes ids (id a) = false).
  { apply includes_not_In. intros Hin. apply (Hnot _ Hin).
    simpl. apply in_or_app. left. destruct a; simpl. now left. }
  rewrite Hroot, Ha, IHl; auto.
  - intros x Hx Hin. apply (Hnot x Hx). simpl. apply in_or_app. now right.
  - intros x Hx Hin. apply (Hnot x Hx). simpl. apply in_or_app. now left.
Qed.

Lemma deleteInObject_unchanged (ids : list string) (obj : SceneObject) :
  (forall x, In x ids -> ~ In x (idsOf obj)) ->
  deleteInObject ids obj = obj.
Proof.
  induction obj as [obj IH] using SceneObject_nested_ind.
  destruct obj as [oid t p r s pv c n kids g b]; simpl in *.
  intros Hnot. destruct kids as [cs|]; [|reflexivity].
  unfold withChildren; simpl. do 2 f_equal.
  apply filterMap_unchanged; [|exact (IH cs eq_refl)].
  intros x Hx Hin. apply (Hnot x Hx). now right.
Qed.



(* ================================================================== *)
(** * More on the history stack *)
(* ================================================================== *)

Lemma repeat_snoc {A : Type} (x : A) (k : nat) :
  repeat x (S k) = repeat x k ++ [x].
Proof.
  induction k as [|k IH]; [reflexivity|].
  simpl in *. f_equal. exact IH.
Qed.

Lemma undo_timeline (st : AppState) : timeline (undo st) = timeline st.
Proof.
  unfold undo.
  destruct (List.rev (past st)) as [|x l] eqn:E; [reflexivity|].
  apply (f_equal (@List.rev _)) in E. rewrite rev_involutive in E.
  unfold timeline. simpl in *. rewrite E, <- app_assoc. reflexivity.
Qed.

Lemma redo_timeline (st : AppState) : timeline (redo st) = timeline st.
Proof.
  unfold redo.
  destruct (future st) as [|x l] eqn:E; [reflexivity|].
  unfold timeline. simpl. rewrite E, <- app_assoc. reflexivity.
Qed.

Lemma undo_redo (st : AppState) : future st <> [] -> undo (redo st) = st.
Proof.
  intros Hne. unfold redo.
  destruct (future st) as [|nextState newFuture] eqn:E; [now elim Hne|].
  rewrite (undo_snoc (mkState nextState (past st ++ [objects st]) newFuture
                              (selectedIds st) (notification st) (idCalls st))
             (past st) (objects st) eq_refl).
  apply state_eq; simpl; auto.
Qed.

(** X4. Undo and redo only move along one fixed timeline of snapshots (the
    undo stack, the current graph, the redo stack, in this order): neither
    drops, adds or reorders a snapshot.  Where they do something they are
    inverse to each other, and at the ends of the timeline, where the
    toolbar disables them, they do nothing. *)
Theorem undo_redo_move_along_timeline :
  forall st : AppState,
    timeline (undo st) = timeline st /\
    timeline (redo st) = timeline st /\
    (canUndo st = true -> redo (undo st) = st) /\
    (canRedo st = true -> undo (redo st) = st) /\
    (canUndo st = false -> undo st = st) /\
    (canRedo st = false -> redo st = st).
Proof.
  intros st. unfold canUndo, canRedo.
  split; [apply undo_timeline|]. split; [apply redo_timeline|].
  repeat split.
  - intros H. apply redo_undo. destruct (past st); [discriminate H|discriminate].
  - intros H. apply undo_redo. destruct (future st); [discriminate H|discriminate].
  - intros H. unfold undo. destruct (past st); [reflexivity|discriminate H].
  - intros H. unfold redo. destruct (future st); [reflexivity|discriminate H].
Qed.

Lemma undo_redo_move_along_timeline_witness :
  undo (redo oneBoxState) = oneBoxState /\ undo oneBoxState = oneBoxState.
Proof.
  destruct (undo_redo_move_along_timeline oneBoxState)
    as (_ & _ & _ & Hr & Hu & _).
  split; [exact (Hr eq_refl) | exact (Hu eq_refl)].
Defined.

Section MoreCommandFacts.

Variable ext : External.
Variable gen : nat -> string.

Lemma run_snapshots (c : Command) (st : AppState) :
  past (run ext gen c st)
  = past st ++ repeat (objects st) (snapshotsPushed ext gen c st).
Proof.
  unfold snapshotsPushed.
  destruct c; simpl; try reflexivity.
  - unfold handleDuplicateObject.
    destruct (findObjectRecursive _ _); [|reflexivity].
    destruct (deepClone _ _ _ _ _); reflexivity.
  - unfold handleSelect. rewrite app_nil_r.
    destruct i as [x|]; [destruct multi; [destruct (includes _ _)|]|];
      reflexivity.
  - unfold handleGroup.
    destruct (List.length (selectedIds st) <? 2)%nat; simpl;
      [now rewrite app_nil_r|].
    destruct (filter _ _); reflexivity.
  - unfold handleUngroup.
    destruct (selectedIds st) as [|selected [|? ?]];
      try (simpl; now rewrite app_nil_r).
    destruct (find _ _) as [grp|]; [|simpl; now rewrite app_nil_r].
    destruct (ShapeType_eqb (type grp) group); [|simpl; now rewrite app_nil_r].
    destruct (children grp); simpl; [reflexivity | now rewrite app_nil_r].
  - unfold handleBooleanOperation, performBooleanOperation, combineSelected.
    destruct (selectedIds st) as [|idA [|idB [|? ?]]];
      try (simpl; now rewrite app_nil_r).
    destruct (findObjectRecursive (objects st) idA) as [objA|];
      [|simpl; now rewrite app_nil_r].
    destruct (findObjectRecursive (objects st) idB) as [objB|];
      [|simpl; now rewrite app_nil_r].
    destruct (_ || _); [simpl; now rewrite app_nil_r|].
    destruct (executeBooleanOperation _ _ _ _ _ _) as [[[result|] err] n'];
      simpl; [reflexivity | now rewrite app_nil_r].
  - destruct parsed; simpl; try reflexivity; now rewrite app_nil_r.
Qed.

(** X5. After any mutating command the redo stack is empty, whatever had
    been undone before, and one undo shows exactly the graph the command
    found; the graph the command made is then the one redo returns to. *)
Theorem undo_restores_graph_before_command (c : Command) (st : AppState) :
  mutating ext gen c st = true ->
  future (run ext gen c st) = [] /\
  objects (undo (run ext gen c st)) = objects st /\
  future (undo (run ext gen c st)) = [objects (run ext gen c st)] /\
  redo (undo (run ext gen c st)) = run ext gen c st.
Proof.
  intros Hm. destruct (mutating_history ext gen c st Hm) as (k & Hp & Hf).
  rewrite repeat_snoc, app_assoc in Hp.
  pose proof (undo_snoc _ _ _ Hp) as Hu.
  split; [exact Hf|]. split; [now rewrite Hu|].
  split; [rewrite Hu; simpl; now rewrite Hf|].
  apply redo_undo. rewrite Hp.
  now destruct (past st ++ repeat (objects st) k).
Qed.

End MoreCommandFacts.

Lemma undo_restores_graph_before_command_witness :
  let st' := run (externalWith (Returned None)) counterId
                 (AddShape box "#336699") oneBoxState in
  future st' = [] /\ objects (undo st') = objects oneBoxState /\
  redo (undo st') = st'.
Proof.
  destruct (undo_restores_graph_before_command
              (externalWith (Returned None)) counterId
              (AddShape box "#336699") oneBoxState eq_refl)
    as (Hf & Ho & _ & Hr).
  repeat split; assumption.
Defined.

(** X6. A command pushes the graph it found once onto the undo stack when
    it is a mutating one and not at all otherwise; the one exception is
    "Delete Selected", which pushes that graph once per selected identifier
    and once more, so that after it as many undos show the same graph. *)
Theorem commands_push_one_snapshot :
  forall (ext : External) (gen : nat -> string) (c : Command) (st : AppState),
    past (run ext gen c st)
    = past st ++ repeat (objects st) (snapshotsPushed ext gen c st) /\
    (forall j, 1 <= j <= List.length (selectedIds st) + 1 ->
               objects (Nat.iter j undo (onDeleteSelected st)) = objects st).
Proof.
  intros ext gen c st. split; [apply run_snapshots|].
  intros j Hj.
  assert (Hgen : forall k (hist : list (list SceneObject)) cur fut sel note n j0,
             1 <= j0 <= k ->
             objects (Nat.iter j0 undo
                        (mkState cur (hist ++ repeat (objects st) k) fut sel
                                 note n))
             = objects st).
  { clear. intros k hist cur fut sel note n j0. revert k cur fut.
    induction j0 as [|j0 IH]; intros k cur fut Hj; [lia|].
    destruct k as [|k]; [lia|].
    rewrite Nat.iter_succ_r.
    rewrite (undo_snoc _ (hist ++ repeat (objects st) k) (objects st)).
    2: { cbn [past]. now rewrite repeat_snoc, app_assoc. }
    destruct j0 as [|j0]; [reflexivity|].
    apply IH. lia. }
  unfold onDeleteSelected. apply Hgen. exact Hj.
Qed.

Lemma commands_push_one_snapshot_witness :
  objects (Nat.iter 3 undo (onDeleteSelected twoBoxState))
  = objects twoBoxState.
Proof.
  apply (proj2 (commands_push_one_snapshot
                  (externalWith (Returned None)) counterId DeleteSelected
                  twoBoxState) 3).
  simpl. lia.
Defined.

(* ================================================================== *)
(** * Identifiers with undo and redo in between *)
(* ================================================================== *)

Section IdentifiersAlongTimeline.

Variable ext : External.
Variable gen : nat -> string.
Hypothesis gen_fresh : forall j k : nat, gen j = gen k -> j = k.

Lemma distinctIds_mono (n m : nat) (ids : list string) :
  n <= m -> distinctIds gen n ids -> distinctIds gen m ids.
Proof.
  intros Hle (Hnd & Hiss). split; [exact Hnd|].
  intros i Hi. destruct (Hiss i Hi) as (k & Hk & Heq).
  exists k. split; [lia | exact Heq].
Qed.

Lemma run_idCalls (c : Command) (st : AppState) :
  idCalls st <= idCalls (run ext gen c st).
Proof.
  destruct c; simpl; try lia.
  - unfold handleDuplicateObject.
    destruct (findObjectRecursive _ _) as [original|]; simpl; [|lia].
    pose proof (deepClone_ids gen
                  (copyName (getAllNames (objects st)) (name original))
                  original true (idCalls st)) as (_ & Hn).
    destruct (deepClone _ _ _ _ _) as [copy n']. simpl in *. lia.
  - unfold handleSelect.
    destruct i as [x|]; [destruct multi; [destruct (includes _ _)|]|];
      simpl; lia.
  - unfold handleGroup.
    destruct (List.length (selectedIds st) <? 2)%nat; [lia|].
    destruct (filter _ _); simpl; lia.
  - unfold handleUngroup.
    destruct (selectedIds st) as [|selected [|? ?]]; try lia.
    destruct (find _ _) as [grp|]; [|lia].
    destruct (ShapeType_eqb (type grp) group); [|lia].
    destruct (children grp); simpl; lia.
  - unfold handleBooleanOperation, performBooleanOperation.
    destruct (selectedIds st) as [|idA [|idB [|? ?]]]; try lia.
    destruct (findObjectRecursive (objects st) idA) as [objA|]; [|simpl; lia].
    destruct (findObjectRecursive (objects st) idB) as [objB|]; [|simpl; lia].
    destruct (_ || _); [simpl; lia|].
    destruct (executeBooleanOperation ext gen objA objB op (idCalls st))
      as [[[result|] err] n'] eqn:He; [|simpl; lia].
    destruct (executeBooleanOperation_id ext gen gen_fresh _ _ _ _ _ _ _ He)
      as (_ & ->).
    simpl. lia.
  - destruct parsed; simpl; lia.
Qed.

Lemma run_ids_safe (c : Command) (st : AppState) :
  safeAction (Do c) = true ->
  wellIdentified gen st -> wellIdentified gen (run ext gen c st).
Proof.
  intros Hsafe.
  destruct (drawsIds c) eqn:Hd; [now apply run_ids|].
  destruct c; try discriminate Hd. simpl in Hsafe.
  unfold wellIdentified, run, handleUpdateObject. simpl.
  now rewrite updateObjectRecursive_ids.
Qed.

Lemma run_timeline (c : Command) (st : AppState) (snapshot : list SceneObject) :
  In snapshot (timeline (run ext gen c st)) ->
  snapshot = objects (run ext gen c st) \/ In snapshot (timeline st).
Proof.
  unfold timeline. intros Hin.
  destruct (mutating ext gen c st) eqn:Hm.
  - destruct (mutating_history ext gen c st Hm) as (k & Hp & Hf).
    rewrite Hp, Hf in Hin.
    apply in_app_or in Hin. destruct Hin as [Hin|[Hin|[]]]; [|now left].
    right. apply in_app_or in Hin. destruct Hin as [Hin|Hin].
    + apply in_or_app. now left.
    + apply repeat_spec in Hin. subst. apply in_or_app. right. now left.
  - destruct (not_mutating_frame ext gen c st Hm) as (Ho & Hp & Hf & _).
    rewrite Ho, Hp, Hf in Hin. now right.
Qed.

Lemma perform_everywhereDistinct (a : Action) (st : AppState) :
  safeAction a = true ->
  everywhereDistinct gen st -> everywhereDistinct gen (perform ext gen a st).
Proof.
  intros Hsafe Hst. destruct a as [c| |]; simpl.
  - intros snapshot Hin.
    destruct (run_timeline c st snapshot Hin) as [->|Hold].
    + apply (run_ids_safe c st Hsafe).
      apply Hst. unfold timeline. apply in_or_app. right. now left.
    + apply (distinctIds_mono (idCalls st)); [apply run_idCalls|].
      now apply Hst.
  - intros snapshot Hin. rewrite undo_timeline in Hin.
    replace (idCalls (undo st)) with (idCalls st); [now apply Hst|].
    unfold undo. now destruct (List.rev (past st)).
  - intros snapshot Hin. rewrite redo_timeline in Hin.
    replace (idCalls (redo st)) with (idCalls st); [now apply Hst|].
    unfold redo. now destruct (future st).
Qed.

Lemma performAll_everywhereDistinct (actions : list Action) :
  forall st : AppState,
    forallb safeAction actions = true ->
    everywhereDistinct gen st ->
    everywhereDistinct gen (performAll ext gen actions st).
Proof.
  induction actions as [|a actions IH]; intros st Hs Hst; [exact Hst|].
  simpl in Hs. apply andb_prop in Hs. destruct Hs as (Ha & Hs).
  change (performAll ext gen (a :: actions) st)
    with (performAll ext gen actions (perform ext gen a st)).
  apply IH; [exact Hs | now apply perform_everywhereDistinct].
Qed.

End IdentifiersAlongTimeline.

(** X7. With a generator that never repeats itself, identifiers stay
    pairwise distinct at every depth also when undo and redo are mixed with
    the commands, and with property patches that write neither identifier
    nor children: not only in the current forest but in every snapshot of
    the undo and redo stacks.  The call counter of the generator is not
    rewound by undo, which is what keeps a later identifier apart from the
    ones in older snapshots. *)
Theorem identifiers_distinct_along_timeline :
  forall (ext : External) (gen : nat -> string),
    (forall j k : nat, gen j = gen k -> j = k) ->
    forall (st : AppState) (actions : list Action),
      everywhereDistinct gen st ->
      forallb safeAction actions = true ->
      forall snapshot,
        In snapshot (timeline (performAll ext gen actions st)) ->
        NoDup (map id (allNodes snapshot)).
Proof.
  intros ext gen gen_fresh st actions Hst Hsafe snapshot Hin.
  rewrite <- allIds_nodes.
  exact (proj1 (performAll_everywhereDistinct ext gen gen_fresh actions st
                  Hsafe Hst snapshot Hin)).
Qed.

Lemma identifiers_distinct_along_timeline_witness :
  NoDup (map id (allNodes (objects
    (performAll (externalWith (Returned None)) counterId
       [ Do (AddShape box "#336699"); Do (DuplicateObject "id0");
         UndoAction; Do (AddShape cone "#663399"); UndoAction; RedoAction;
         Do (UpdateObject "id0" renamePatch) ]
       emptyState)))).
Proof.
  apply (identifiers_distinct_along_timeline
           (externalWith (Returned None)) counterId counterId_fresh
           emptyState
           [ Do (AddShape box "#336699"); Do (DuplicateObject "id0");
             UndoAction; Do (AddShape cone "#663399"); UndoAction; RedoAction;
             Do (UpdateObject "id0" renamePatch) ]).
  - intros snapshot [<-|[]]. split; [constructor | intros i []].
  - reflexivity.
  - unfold timeline. apply in_or_app. right. now left.
Defined.

(* ================================================================== *)
(** * Selection *)
(* ================================================================== *)

Lemma filter_other (x : string) (sel : list string) :
  ~ In x sel -> filter (fun pid => negb (pid =? x)%string) sel = sel.
Proof.
  induction sel as [|a l IH]; simpl; intros Hnot; [reflexivity|].
  destruct (String.eqb_spec a x) as [->|_]; [tauto|].
  simpl. f_equal. apply IH. tauto.
Qed.

(** X8. The selection never holds an identifier twice: every click keeps
    a duplicate-free selection duplicate-free.  A modified click on an
    unselected identifier appends it, and a second one gives back the very
    state before the first. *)
Theorem selection_has_no_duplicates :
  forall (st : AppState),
    (forall i multi,
        NoDup (selectedIds st) ->
        NoDup (selectedIds (handleSelect i multi st))) /\
    (forall x,
        ~ In x (selectedIds st) ->
        selectedIds (handleSelect (Some x) true st) = selectedIds st ++ [x] /\
        handleSelect (Some x) true (handleSelect (Some x) true st) = st).
Proof.
  intros st. split.
  - intros i multi Hnd. unfold handleSelect.
    destruct i as [x|]; [|constructor].
    destruct multi; [|repeat constructor; intros []].
    destruct (includes (selectedIds st) x) eqn:E; simpl.
    + now apply NoDup_filter.
    + apply includes_not_In in E.
      apply NoDup_app; [exact Hnd | repeat constructor; intros [] |].
      intros a Ha [<-|[]]. contradiction.
  - intros x Hnot.
    assert (E : includes (selectedIds st) x = false)
      by now apply includes_not_In.
    assert (Hfirst : handleSelect (Some x) true st
                     = setSelectedIds st (selectedIds st ++ [x]))
      by (unfold handleSelect; now rewrite E).
    rewrite Hfirst. split; [reflexivity|].
    assert (E' : includes (selectedIds st ++ [x]) x = true).
    { apply includes_In. apply in_or_app. right. now left. }
    unfold handleSelect. cbn [setSelectedIds selectedIds].
    rewrite E'. apply state_eq; simpl; auto.
    rewrite filter_app, (filter_other x _ Hnot). simpl.
    rewrite String.eqb_refl. simpl. apply app_nil_r.
Qed.

Lemma selection_has_no_duplicates_witness :
  selectedIds (handleSelect (Some "c") true twoBoxState) = ["a"; "b"; "c"] /\
  handleSelect (Some "c") true (handleSelect (Some "c") true twoBoxState)
  = twoBoxState /\
  NoDup (selectedIds (handleSelect (Some "a") true twoBoxState)).
Proof.
  destruct (selection_has_no_duplicates twoBoxState) as (Hn & Ht).
  destruct (Ht "c") as (Ha & Hb).
  - simpl. intros [H|[H|[]]]; discriminate H.
  - split; [exact Ha|]. split; [exact Hb|].
    apply Hn. simpl. constructor.
    + intros [H|[]]. discriminate H.
    + constructor; [intros [] | constructor].
Defined.

(* ================================================================== *)
(** * More on the boolean engine *)
(* ================================================================== *)

Section EngineOutcome.

Variable ext : External.
Variable gen : nat -> string.

Lemma performOperation_error (a b : option Mesh) (op : Operation) :
  isValid (performOperation ext a b op) = false ->
  exists msg, error (performOperation ext a b op) = Some msg.
Proof.
  unfold performOperation.
  destruct a as [a|]; [|simpl; eauto].
  destruct b as [b|]; [|simpl; eauto].
  destruct (negb _ || negb _); [simpl; eauto|].
  destruct (csg ext op a b) as [[resultMesh|]|message]; simpl; eauto.
  destruct (negb (validateGeometry (mesh_geometry resultMesh)));
    simpl; eauto. discriminate.
Qed.

Lemma executeBooleanOperation_outcome (objA objB : SceneObject)
    (op : Operation) (n : nat) :
  (exists result,
      executeBooleanOperation ext gen objA objB op n = (Some result, None, S n) /\
      id result = gen n /\ type result = custom /\ children result = None /\
      rotation result = vzero /\ pivot result = Some vzero /\
      color result = color objA) \/
  (exists msg,
      executeBooleanOperation ext gen objA objB op n = (None, Some msg, n)).
Proof.
  unfold executeBooleanOperation.
  destruct (createMeshFromObject ext objA) as [a|]; [|right; eauto].
  destruct (createMeshFromObject ext objB) as [b|]; [|right; eauto].
  destruct (isValid (performOperation ext (Some a) (Some b) op)) eqn:Hv;
    cbn [negb].
  - left. eexists. split; [reflexivity|]. simpl. auto 10.
  - right. destruct (performOperation_error _ _ _ Hv) as (msg & ->). eauto.
Qed.

End EngineOutcome.

(** X9. A combine has one of two outcomes and nothing in between: a result
    object with no error message, which draws exactly one identifier and is
    a childless custom mesh without rotation or pivot in the colour of the
    first operand; or an error message with no result, which draws no
    identifier. *)
Theorem combine_returns_result_or_error :
  forall (ext : External) (gen : nat -> string) (objA objB : SceneObject)
         (op : Operation) (n : nat),
    (exists result,
        executeBooleanOperation ext gen objA objB op n
        = (Some result, None, S n) /\
        id result = gen n /\ type result = custom /\ children result = None /\
        rotation result = vzero /\ pivot result = Some vzero /\
        color result = color objA) \/
    (exists msg,
        executeBooleanOperation ext gen objA objB op n = (None, Some msg, n)).
Proof. exact executeBooleanOperation_outcome. Qed.

(** X10. The boolean buttons are offered exactly when the command cannot
    fail on its preconditions.  When [canBoolean] holds the command reaches
    the engine, so a failure can only be one the engine reports, prefixed
    "Boolean operation failed: "; when it does not hold the engine is not
    called and the state only gets one of the three precondition
    messages. *)
Theorem canBoolean_guards_preconditions :
  forall (ext : External) (gen : nat -> string) (op : Operation)
         (st : AppState),
    (canBoolean st = true ->
     exists idA idB objA objB,
       selectedIds st = [idA; idB] /\
       findObjectRecursive (objects st) idA = Some objA /\
       findObjectRecursive (objects st) idB = Some objB /\
       ((exists result,
            executeBooleanOperation ext gen objA objB op (idCalls st)
            = (Some result, None, S (idCalls st)) /\
            objects (performBooleanOperation ext gen op st)
            = deleteObjectRecursive (objects st) [idA; idB] ++ [result]) \/
        (exists msg,
            performBooleanOperation ext gen op st
            = showNotification st ("Boolean operation failed: " ++ msg)%string
                               NotifyError))) /\
    (canBoolean st = false ->
     exists msg,
       In msg preconditionMessages /\
       performBooleanOperation ext gen op st
       = showNotification st msg NotifyError).
Proof.
  intros ext gen op st. unfold canBoolean, performBooleanOperation.
  destruct (selectedIds st) as [|idA [|idB [|? ?]]] eqn:Hsel;
    try (split; [discriminate|]; intros _; eexists; split;
         [left; reflexivity | reflexivity]).
  destruct (findObjectRecursive (objects st) idA) as [objA|] eqn:HA;
    [|split; [discriminate|]; intros _; eexists; split;
      [right; left; reflexivity | reflexivity]].
  destruct (findObjectRecursive (objects st) idB) as [objB|] eqn:HB;
    [|split; [discriminate|]; intros _; eexists; split;
      [right; left; reflexivity | reflexivity]].
  destruct (ShapeType_eqb (type objA) group) eqn:EA; cbn [orb negb andb].
  { split; [discriminate|]. intros _. eexists. split;
      [right; right; left; reflexivity | reflexivity]. }
  destruct (ShapeType_eqb (type objB) group) eqn:EB; cbn [orb negb andb].
  { split; [discriminate|]. intros _. eexists. split;
      [right; right; left; reflexivity | reflexivity]. }
  split; [|discriminate]. intros _.
  exists idA, idB, objA, objB.
  split; [reflexivity|]. split; [exact HA|]. split; [exact HB|].
  destruct (executeBooleanOperation_outcome ext gen objA objB op (idCalls st))
    as [(result & He & _) | (msg & He)]; rewrite He.
  - left. exists result. split; reflexivity.
  - right. destruct (msg =? "")%string eqn:Em.
    + exists "Unknown error". reflexivity.
    + exists msg. reflexivity.
Qed.

Lemma canBoolean_guards_preconditions_witness :
  (exists msg,
      performBooleanOperation (externalWith (Returned None)) counterId union
                              twoBoxState
      = showNotification twoBoxState
          ("Boolean operation failed: " ++ msg)%string NotifyError) /\
  (exists msg,
      In msg preconditionMessages /\
      performBooleanOperation (externalWith (Returned None)) counterId union
                              oneBoxState
      = showNotification oneBoxState msg NotifyError).
Proof.
  split.
  - destruct (proj1 (canBoolean_guards_preconditions
                       (externalWith (Returned None)) counterId union
                       twoBoxState) eq_refl)
      as (idA & idB & objA & objB & Hs & HA & HB & [(r & He & _)|Hm]).
    + injection Hs as <- <-. injection HA as <-. injection HB as <-.
      discriminate He.
    + exact Hm.
  - exact (proj2 (canBoolean_guards_preconditions
                    (externalWith (Returned None)) counterId union
                    oneBoxState) eq_refl).
Defined.

(* ================================================================== *)
(** * Engine and renderer side by side *)
(* ================================================================== *)

Lemma forallb_firstn {A : Type} (f : A -> bool) (k : nat) (l : list A) :
  forallb f l = true -> forallb f (firstn k l) = true.
Proof.
  revert k. induction l as [|a l IH]; intros [|k]; simpl; auto.
  intros H. apply andb_prop in H. destruct H as (-> & H). simpl. auto.
Qed.

Lemma validateGeometry_finite (g : BufferGeometry) :
  validateGeometry g = true ->
  exists arr, attributes_position g = Some arr /\
              9 <= List.length arr /\ forallb isFinite arr = true.
Proof.
  unfold validateGeometry.
  destruct (attributes_position g) as [arr|]; [|discriminate].
  destruct (List.length arr <? 9)%nat eqn:E; [discriminate|].
  intros H. exists arr. apply Nat.ltb_ge in E. auto.
Qed.

(** X11. Whenever the boolean engine makes a mesh of a node, the geometry
    of that mesh is the geometry the renderer computes for the node: the
    same primitive, the same parsed custom mesh, or the same fallback
    box.  The renderer's own check of the first thirty coordinates never
    rejects a geometry the engine accepted. *)
Theorem engine_uses_rendered_geometry :
  forall (ext : External) (obj : SceneObject) (m : Mesh),
    createMeshFromObject ext obj = Some m ->
    mesh_geometry m = nodeGeometry ext obj.
Proof.
  intros ext obj m. unfold createMeshFromObject.
  destruct (validateGeometry (objectGeometry ext obj)) eqn:Hv; simpl;
    [|discriminate].
  intros H. injection H as <-. simpl.
  unfold objectGeometry, nodeGeometry in *.
  destruct (type obj); try reflexivity.
  destruct (geometryData obj) as [data|]; [|reflexivity].
  destruct (parse data) as [geom|]; [|reflexivity].
  destruct (validateGeometry_finite geom Hv) as (arr & -> & _ & Hfin).
  now rewrite (forallb_firstn isFinite 30 arr Hfin).
Qed.

Lemma engine_uses_rendered_geometry_witness :
  exists m : Mesh,
    createMeshFromObject (externalWith (Returned None)) pivotBox = Some m /\
    mesh_geometry m = nodeGeometry (externalWith (Returned None)) pivotBox.
Proof.
  eexists. split; [reflexivity|].
  exact (engine_uses_rendered_geometry (externalWith (Returned None))
           pivotBox _ eq_refl).
Defined.

Section PlacementAgreement.

Local Open Scope R_scope.






End PlacementAgreement.


(* ================================================================== *)
(** * A result as an operand *)
(* ================================================================== *)

Lemma mapVertices_valid (f : Vector3 -> Vector3) :
  forall (k : nat) (l : list number),
    (List.length l <= k)%nat ->
    List.length (mapVertices f l) = List.length l /\
    (forallb isFinite l = true -> forallb isFinite (mapVertices f l) = true).
Proof.
  induction k as [|k IH]; intros l Hk.
  - destruct l; [simpl; auto | simpl in Hk; lia].
  - destruct l as [|x [|y [|z rest]]].
    + simpl; auto.
    + destruct x; simpl; auto.
    + destruct x, y; simpl; auto.
    + assert (Hr : (List.length rest <= k)%nat) by (simpl in Hk; lia).
      destruct (IH rest Hr) as (Hlen & Hfin).
      destruct x, y, z; simpl; rewrite Hlen; split; auto; try discriminate;
        rewrite ?andb_false_r; try discriminate.
Qed.

Lemma validateGeometry_translate (t : Vector3) (g : BufferGeometry) :
  validateGeometry g = true -> validateGeometry (translate t g) = true.
Proof.
  unfold validateGeometry, translate.
  destruct (attributes_position g) as [arr|]; [|discriminate]. simpl.
  destruct (mapVertices_valid (fun v => vadd v t) (List.length arr) arr
              (Nat.le_refl _)) as (Hlen & Hfin).
  rewrite Hlen. destruct (List.length arr <? 9)%nat; [discriminate|].
  exact Hfin.
Qed.

Lemma performOperation_valid (ext : External) (a b : option Mesh)
    (op : Operation) :
  isValid (performOperation ext a b op) = true ->
  validateGeometry (res_geometry (performOperation ext a b op)) = true.
Proof.
  unfold performOperation.
  destruct a as [a|]; [|discriminate].
  destruct b as [b|]; [|discriminate].
  destruct (negb _ || negb _); [discriminate|].
  destruct (csg ext op a b) as [[resultMesh|]|message]; try discriminate.
  destruct (validateGeometry (mesh_geometry resultMesh)) eqn:Hv;
    cbn [negb]; [|discriminate].
  intros _. exact Hv.
Qed.

(** X13. The node a successful combine returns is itself a valid operand:
    its stored geometry passes the engine's validation, so the engine makes
    a mesh of it (never [null]) with exactly that geometry, and the
    renderer shows the same geometry.  Buffer entries are finite values
    modelled as reals, so shifting a finite vertex keeps it finite. *)
Theorem combine_result_is_a_valid_operand (ext : External)
    (gen : nat -> string)
    (objA objB : SceneObject) (op : Operation) (n : nat)
    (result : SceneObject) (err : option string) (n' : nat) :
  executeBooleanOperation ext gen objA objB op n = (Some result, err, n') ->
  exists (g : BufferGeometry) (m : Mesh),
    geometryData result = Some (toJSON g) /\
    validateGeometry g = true /\
    createMeshFromObject ext result = Some m /\
    mesh_geometry m = g /\
    nodeGeometry ext result = g.
Proof.
  unfold executeBooleanOperation.
  destruct (createMeshFromObject ext objA) as [a|]; [|discriminate].
  destruct (createMeshFromObject ext objB) as [b|]; [|discriminate].
  destruct (isValid (performOperation ext (Some a) (Some b) op)) eqn:Hv;
    cbn [negb]; [|discriminate].
  apply performOperation_valid in Hv.
  set (r := performOperation ext (Some a) (Some b) op) in *.
  unfold createResultObject. intros H. injection H as <- _ _.
  match goal with
  | |- context [translate ?t0 (res_geometry r)] => set (t := t0)
  end.
  pose proof (validateGeometry_translate t _ Hv) as Hv'.
  exists (translate t (res_geometry r)).
  assert (Hobj : forall o,
             type o = custom ->
             geometryData o = Some (toJSON (translate t (res_geometry r))) ->
             objectGeometry ext o = translate t (res_geometry r)).
  { intros o Ht Hg. unfold objectGeometry. rewrite Ht, Hg. reflexivity. }
  match goal with
  | |- context [createMeshFromObject ext ?o] =>
      unfold createMeshFromObject; rewrite (Hobj o eq_refl eq_refl), Hv'
  end.
  cbn [negb].
  eexists. split; [reflexivity|]. split; [reflexivity|].
  split; [reflexivity|]. split; [reflexivity|].
  unfold nodeGeometry. cbn [type geometryData toJSON parse json_data].
  destruct (validateGeometry_finite _ Hv') as (arr & Harr & _ & Hfin).
  cbn [translate attributes_position] in *. rewrite Harr.
  rewrite (forallb_firstn isFinite 30 arr Hfin).
  now rewrite <- Harr.
Qed.

Lemma combine_result_is_a_valid_operand_witness :
  exists (result : SceneObject) (m : Mesh),
    executeBooleanOperation (externalWith (Returned (Some unionMesh)))
      counterId (boxAt "a" "Box 1" vzero vone)
      (boxAt "b" "Box 2" (vec3 4 0 0) vone) union 2
    = (Some result, None, 3) /\
    createMeshFromObject (externalWith (Returned (Some unionMesh))) result
    = Some m.
Proof.
  eexists.
  destruct (combine_result_is_a_valid_operand
              (externalWith (Returned (Some unionMesh))) counterId
              (boxAt "a" "Box 1" vzero vone)
              (boxAt "b" "Box 2" (vec3 4 0 0) vone) union 2 _ None 3
              (executeBooleanOperation_returned
                 (externalWith (Returned (Some unionMesh))) counterId
                 (boxAt "a" "Box 1" vzero vone)
                 (boxAt "b" "Box 2" (vec3 4 0 0) vone)
                 union 2 _ _ unionMesh eq_refl eq_refl eq_refl eq_refl))
    as (g & m & _ & _ & Hm & _).
  exists m. split; [|exact Hm].
  exact (executeBooleanOperation_returned
           (externalWith (Returned (Some unionMesh))) counterId
           (boxAt "a" "Box 1" vzero vone)
           (boxAt "b" "Box 2" (vec3 4 0 0) vone)
           union 2 _ _ unionMesh eq_refl eq_refl eq_refl eq_refl).
Defined.

(* ================================================================== *)
(** * Grouping and ungrouping *)
(* ================================================================== *)

Lemma group_kid_matrix (c : Vector3) (o : SceneObject) :
  multiplyMatrices (compose c (setFromEuler vzero) vone)
                   (wrapperMatrix (withPosition o (vsub (position o) c)))
  = wrapperMatrix o.
Proof.
  rewrite setFromEuler_zero.
  unfold wrapperMatrix, withPosition, multiplyMatrices, compose, vsub,
    qidentity, vone.
  cbn [position rotation scale vx vy vz qx qy qz qw
       n11 n12 n13 n14 n21 n22 n23 n24 n31 n32 n33 n34].
  f_equal; ring.
Qed.

Lemma handleGroup_result (gen : nat -> string) (st : AppState) :
  (2 <= List.length (selectedIds st))%nat ->
  selectedRoots st <> [] ->
  handleGroup gen st
  = mkState
      (otherRoots st ++
       [mkObject (gen (idCalls st)) group (centerOf (selectedRoots st))
                 vzero vone (Some vzero) "#ffffff"
                 ("Group " ++ string_of_nat (List.length (objects st) + 1))
                 (Some (map (fun o => withPosition o
                                        (vsub (position o)
                                              (centerOf (selectedRoots st))))
                            (selectedRoots st)))
                 None None])
      (past st ++ [objects st]) [] [gen (idCalls st)]
      (Some ("Objects grouped successfully.", NotifySuccess))
      (S (idCalls st)).
Proof.
  intros Hlen Hsel. unfold handleGroup.
  destruct (List.length (selectedIds st) <? 2)%nat eqn:E;
    [apply Nat.ltb_lt in E; lia|].
  fold (selectedRoots st). fold (otherRoots st).
  destruct (selectedRoots st) as [|o rest] eqn:Hs; [now elim Hsel|].
  reflexivity.
Qed.

Lemma kids_world_matrices (grp : SceneObject) (c : Vector3)
    (l : list SceneObject) :
  wrapperMatrix grp = compose c (setFromEuler vzero) vone ->
  Forall2 (fun o k => k = withPosition o (position k) /\
                      childWorldMatrix grp k = wrapperMatrix o)
          l (map (fun o => withPosition o (vsub (position o) c)) l).
Proof.
  intros Hg. unfold childWorldMatrix. rewrite Hg.
  induction l as [|o rest IH]; simpl; constructor; [|exact IH].
  split; [reflexivity|]. exact (group_kid_matrix c o).
Qed.

(** X14. Grouping at least two selected roots replaces them by one new
    group at the end of the root list that holds them in their order; each
    child differs from the root it comes from in its position only, and its
    world matrix inside the group, the group's matrix times its own, is the
    matrix the root had: nothing moves on the screen. *)
Theorem grouping_keeps_world_placement (gen : nat -> string)
    (st : AppState) :
  (2 <= List.length (selectedIds st))%nat ->
  selectedRoots st <> [] ->
  exists grp kids,
    objects (handleGroup gen st) = otherRoots st ++ [grp] /\
    selectedIds (handleGroup gen st) = [id grp] /\
    id grp = gen (idCalls st) /\ type grp = group /\
    children grp = Some kids /\
    Forall2 (fun o k => k = withPosition o (position k) /\
                        childWorldMatrix grp k = wrapperMatrix o)
            (selectedRoots st) kids.
Proof.
  intros Hlen Hsel. rewrite (handleGroup_result gen st Hlen Hsel).
  eexists. eexists. cbn [objects selectedIds id type children].
  repeat (split; [reflexivity|]).
  apply kids_world_matrices. reflexivity.
Qed.

Lemma grouping_keeps_world_placement_witness :
  exists grp kids,
    objects (handleGroup counterId twoBoxState) = [grp] /\
    children grp = Some kids /\
    Forall2 (fun o k => childWorldMatrix grp k = wrapperMatrix o)
            (objects twoBoxState) kids.
Proof.
  destruct (grouping_keeps_world_placement counterId twoBoxState)
    as (grp & kids & Ho & _ & _ & _ & Hk & Hall).
  - simpl. lia.
  - discriminate.
  - exists grp, kids. split; [exact Ho|]. split; [exact Hk|].
    revert Hall. apply Forall2_impl. intros o k (_ & H). exact H.
Defined.

Lemma find_fresh_last (objs : list SceneObject) (g : SceneObject) :
  ~ In (id g) (map id objs) ->
  find (fun o => id o =? id g) (objs ++ [g]) = Some g /\
  filter (fun o => negb (id o =? id g)) (objs ++ [g]) = objs.
Proof.
  induction objs as [|o rest IH]; simpl; intros Hn.
  - rewrite String.eqb_refl. simpl. auto.
  - assert (Hne : (id o =? id g) = false).
    { apply String.eqb_neq. intros E. apply Hn. now left. }
    rewrite Hne. simpl.
    destruct IH as (Hf & Hfil); [intros H; apply Hn; now right|].
    split; [exact Hf | now rewrite Hfil].
Qed.

Lemma filter_map_id_incl (f : SceneObject -> bool) (objs : list SceneObject)
    (i : string) :
  In i (map id (filter f objs)) -> In i (map id objs).
Proof.
  rewrite !in_map_iff. intros (o & <- & Ho). apply filter_In in Ho.
  exists o. tauto.
Qed.

Lemma ungroupChild_group_kid (ext : External) (c : Vector3) (o : SceneObject) :
  decomposesBack ext o -> pivot o <> None ->
  ungroupChild ext (compose c (setFromEuler vzero) vone)
               (withPosition o (vsub (position o) c)) = o.
Proof.
  intros Hd Hp. unfold ungroupChild, premultiply.
  change (compose (position (withPosition o (vsub (position o) c)))
            (setFromEuler (rotation (withPosition o (vsub (position o) c))))
            (scale (withPosition o (vsub (position o) c))))
    with (wrapperMatrix (withPosition o (vsub (position o) c))).
  rewrite group_kid_matrix, Hd.
  destruct o as [i t p r s [pv|] col nm ch gd bd]; [reflexivity|].
  now elim Hp.
Qed.

Lemma ungroup_kids (ext : External) (c : Vector3) (l : list SceneObject) :
  Forall (fun o => decomposesBack ext o /\ pivot o <> None) l ->
  map (ungroupChild ext (compose c (setFromEuler vzero) vone))
      (map (fun o => withPosition o (vsub (position o) c)) l) = l.
Proof.
  induction 1 as [|o rest (Hd & Hp) _ IH]; [reflexivity|].
  simpl. rewrite (ungroupChild_group_kid ext c o Hd Hp). now rewrite IH.
Qed.

Lemma handleUngroup_fresh_group (ext : External) (others : list SceneObject)
    (grp : SceneObject) (kids : list SceneObject)
    (olderStates : list (list SceneObject)) (fut : list (list SceneObject))
    (note : option (string * NotificationType)) (k : nat) :
  ~ In (id grp) (map id others) ->
  type grp = group -> children grp = Some kids ->
  handleUngroup ext (mkState (others ++ [grp]) olderStates fut [id grp] note k)
  = mkState (others ++ map (ungroupChild ext (wrapperMatrix grp)) kids)
            (olderStates ++ [others ++ [grp]]) []
            (map id (map (ungroupChild ext (wrapperMatrix grp)) kids))
            (Some ("Group ungrouped.", NotifySuccess)) k.
Proof.
  intros Hg Ht Hk.
  destruct (find_fresh_last others grp Hg) as (Hfind & Hfilter).
  unfold handleUngroup. cbn [selectedIds objects].
  rewrite Hfind, Ht, Hk. cbn [ShapeType_eqb].
  cbn [saveToHistory setObjects setSelectedIds showNotification
       objects past future selectedIds notification idCalls].
  rewrite Hfilter. reflexivity.
Qed.

(** X15. Ungrouping a group right after it was made gives the grouped
    roots back as they were, after the roots that were not grouped and
    selected again, with two snapshots on the undo stack; provided the
    identifier drawn for the group is not one of a root, the roots carry a
    pivot, and the matrix decomposition of the library reads each root's
    position, rotation and scale back from its matrix. *)
Theorem ungroup_after_group_restores_roots (ext : External)
    (gen : nat -> string) (st : AppState) :
  (2 <= List.length (selectedIds st))%nat ->
  selectedRoots st <> [] ->
  ~ In (gen (idCalls st)) (map id (objects st)) ->
  Forall (fun o => decomposesBack ext o /\ pivot o <> None)
         (selectedRoots st) ->
  objects (handleUngroup ext (handleGroup gen st))
  = otherRoots st ++ selectedRoots st /\
  selectedIds (handleUngroup ext (handleGroup gen st))
  = map id (selectedRoots st) /\
  past (handleUngroup ext (handleGroup gen st))
  = past st ++ [objects st; objects (handleGroup gen st)].
Proof.
  intros Hlen Hsel Hfresh Hall.
  rewrite (handleGroup_result gen st Hlen Hsel).
  set (c := centerOf (selectedRoots st)).
  set (grp := mkObject (gen (idCalls st)) group c vzero vone (Some vzero)
                       "#ffffff" _ _ None None).
  assert (Hg : ~ In (id grp) (map id (otherRoots st))).
  { intros H. apply Hfresh. exact (filter_map_id_incl _ _ _ H). }
  change (gen (idCalls st)) with (id grp).
  rewrite (handleUngroup_fresh_group ext (otherRoots st) grp _ _ _ _ _
             Hg eq_refl eq_refl).
  change (wrapperMatrix grp) with (compose c (setFromEuler vzero) vone).
  rewrite (ungroup_kids ext c _ Hall).
  cbn [objects selectedIds past].
  split; [reflexivity|]. split; [reflexivity|].
  rewrite <- app_assoc. reflexivity.
Qed.

Lemma ungroup_after_group_restores_roots_witness :
  objects (handleUngroup (externalWith (Returned None))
                         (handleGroup counterId twoBoxState))
  = objects twoBoxState.
Proof.
  refine (proj1 (ungroup_after_group_restores_roots
                   (externalWith (Returned None)) counterId twoBoxState
                   _ _ _ _)).
  - simpl. lia.
  - discriminate.
  - simpl. intros [H|[H|[]]]; discriminate H.
  - repeat constructor; discriminate.
Defined.

(* ================================================================== *)
(** * Importing a mesh *)
(* ================================================================== *)

Section ImportedMesh.

Local Open Scope R_scope.

Lemma vertices_mapVertices (f : Vector3 -> Vector3) :
  forall (k : nat) (l : list number),
    (List.length l <= k)%nat ->
    forallb isFinite l = true ->
    vertices (mapVertices f l) = map f (vertices l).
Proof.
  induction k as [|k IH]; intros l Hk Hfin.
  - destruct l; [reflexivity | simpl in Hk; lia].
  - destruct l as [|x [|y [|z rest]]].
    + reflexivity.
    + destruct x; reflexivity.
    + destruct x, y; reflexivity.
    + destruct x, y, z; simpl in Hfin; try discriminate.
      simpl. rewrite IH by (simpl in Hk; lia || assumption).
      now destruct (f (vec3 x x0 x1)).
Qed.

Lemma Rmin_translate (a b t : R) : Rmin (a + t) (b + t) = Rmin a b + t.
Proof. unfold Rmin. repeat destruct (Rle_dec _ _); lra. Qed.

Lemma Rmax_translate (a b t : R) : Rmax (a + t) (b + t) = Rmax a b + t.
Proof. unfold Rmax. repeat destruct (Rle_dec _ _); lra. Qed.

Lemma expandByPoint_translate (b : Box3) (p t : Vector3) :
  expandByPoint (box_translate b t) (vadd p t)
  = box_translate (expandByPoint b p) t.
Proof.
  destruct b as [[lo hi]|]; [|reflexivity].
  unfold expandByPoint, box_translate, vadd; simpl.
  rewrite !Rmin_translate, !Rmax_translate. reflexivity.
Qed.

Lemma fold_expand_translate (t : Vector3) (ps : list Vector3) :
  forall b : Box3,
    fold_left expandByPoint (map (fun v => vadd v t) ps) (box_translate b t)
    = box_translate (fold_left expandByPoint ps b) t.
Proof.
  induction ps as [|p ps IH]; intros b; [reflexivity|].
  simpl. rewrite expandByPoint_translate. apply IH.
Qed.

Lemma computeBoundingBox_translate (t : Vector3) (g : BufferGeometry)
    (arr : list number) :
  attributes_position g = Some arr -> forallb isFinite arr = true ->
  computeBoundingBox (translate t g) = box_translate (computeBoundingBox g) t /\
  geometryVertices (translate t g)
  = map (fun v => vadd v t) (geometryVertices g).
Proof.
  intros Ha Hfin.
  unfold computeBoundingBox, geometryVertices, translate, setFromPoints.
  rewrite Ha. cbn [attributes_position option_map].
  rewrite (vertices_mapVertices _ (List.length arr) arr (Nat.le_refl _) Hfin).
  split; [|reflexivity].
  exact (fold_expand_translate t (vertices arr) None).
Qed.

Lemma fold_expand_some (ps : list Vector3) (lo hi : Vector3) :
  exists lo' hi',
    fold_left expandByPoint ps (Some (lo, hi)) = Some (lo', hi').
Proof.
  revert lo hi. induction ps as [|p ps IH]; intros lo hi; simpl; eauto.
Qed.

Lemma fold_expand_grows (qs : list Vector3) :
  forall lo0 hi0 lo hi : Vector3,
    fold_left expandByPoint qs (Some (lo0, hi0)) = Some (lo, hi) ->
    (vx lo <= vx lo0 /\ vy lo <= vy lo0 /\ vz lo <= vz lo0) /\
    (vx hi0 <= vx hi /\ vy hi0 <= vy hi /\ vz hi0 <= vz hi).
Proof.
  induction qs as [|q qs IHq]; intros lo0 hi0 lo hi H.
  - injection H as <- <-. repeat split; lra.
  - simpl in H. apply IHq in H. simpl in H.
    destruct H as ((H1 & H2 & H3) & (H4 & H5 & H6)).
    pose proof (Rmin_l (vx lo0) (vx q)). pose proof (Rmin_l (vy lo0) (vy q)).
    pose proof (Rmin_l (vz lo0) (vz q)). pose proof (Rmax_l (vx hi0) (vx q)).
    pose proof (Rmax_l (vy hi0) (vy q)). pose proof (Rmax_l (vz hi0) (vz q)).
    repeat split; lra.
Qed.

Lemma fold_expand_bounds (ps : list Vector3) :
  forall (b : Box3) (lo hi : Vector3),
    fold_left expandByPoint ps b = Some (lo, hi) ->
    forall v, In v ps -> containsPoint lo hi v.
Proof.
  induction ps as [|p ps IH]; intros b lo hi H v Hin; [now elim Hin|].
  simpl in H. destruct Hin as [<-|Hin]; [|exact (IH _ _ _ H v Hin)].
  destruct b as [[lo0 hi0]|]; simpl in H.
  - apply fold_expand_grows in H. simpl in H.
    destruct H as ((H1 & H2 & H3) & (H4 & H5 & H6)).
    pose proof (Rmin_r (vx lo0) (vx p)). pose proof (Rmin_r (vy lo0) (vy p)).
    pose proof (Rmin_r (vz lo0) (vz p)). pose proof (Rmax_r (vx hi0) (vx p)).
    pose proof (Rmax_r (vy hi0) (vy p)). pose proof (Rmax_r (vz hi0) (vz p)).
    unfold containsPoint. repeat split; lra.
  - apply fold_expand_grows in H.
    destruct H as ((H1 & H2 & H3) & (H4 & H5 & H6)).
    unfold containsPoint. repeat split; lra.
Qed.

Lemma computeBoundingBox_nonempty (g : BufferGeometry) (arr : list number) :
  attributes_position g = Some arr -> (3 <= List.length arr)%nat ->
  exists lo hi, computeBoundingBox g = Some (lo, hi).
Proof.
  intros Ha Hlen. unfold computeBoundingBox, setFromPoints. rewrite Ha.
  destruct arr as [|x [|y [|z rest]]]; simpl in Hlen; try lia.
  simpl. apply fold_expand_some.
Qed.

Lemma computeBoundingBox_contains (g : BufferGeometry) (lo hi : Vector3) :
  computeBoundingBox g = Some (lo, hi) ->
  forall v, In v (geometryVertices g) -> containsPoint lo hi v.
Proof.
  unfold computeBoundingBox, geometryVertices, setFromPoints.
  destruct (attributes_position g) as [arr|]; [|discriminate].
  intros H. exact (fold_expand_bounds _ _ _ _ H).
Qed.

Lemma center_centred (g : BufferGeometry) (arr : list number) :
  attributes_position g = Some arr -> forallb isFinite arr = true ->
  (3 <= List.length arr)%nat ->
  exists lo hi,
    computeBoundingBox (center g) = Some (lo, hi) /\
    vadd lo hi = vzero /\
    getSize (computeBoundingBox (center g)) = getSize (computeBoundingBox g) /\
    List.length (geometryVertices (center g))
    = List.length (geometryVertices g).
Proof.
  intros Ha Hfin Hlen.
  destruct (computeBoundingBox_nonempty g arr Ha Hlen) as (lo & hi & Hb).
  unfold center.
  destruct (computeBoundingBox_translate
              (vec3 (- vx (getCenter (computeBoundingBox g)))
                    (- vy (getCenter (computeBoundingBox g)))
                    (- vz (getCenter (computeBoundingBox g)))) g arr Ha Hfin)
    as (-> & ->).
  rewrite Hb. cbn [box_translate getCenter].
  eexists. eexists. split; [reflexivity|].
  split; [|split].
  - destruct lo, hi. unfold vadd, vzero; simpl. f_equal; lra.
  - destruct lo, hi. unfold getSize, vsub, vadd; simpl. f_equal; lra.
  - apply length_map.
Qed.

(** X16. An imported mesh with at least one vertex and finite coordinates
    is appended as a node whose stored geometry is centred, the corners of
    its bounding box being opposite, and keeps the extents of the file; the
    node has no rotation and unit scale and is lifted by half its height,
    so that the renderer draws the bottom of the bounding box at height 0
    and no vertex below the ground plane. *)
Theorem imported_mesh_rests_on_the_ground (gen : nat -> string)
    (fileName stem : string)
    (loaded : BufferGeometry) (newColor : string) (st : AppState)
    (arr : list number) :
  attributes_position loaded = Some arr ->
  forallb isFinite arr = true ->
  (3 <= List.length arr)%nat ->
  exists (node : SceneObject) (g : BufferGeometry) (lo hi : Vector3),
    objects (handleImportModel gen fileName stem (ImportGeometry loaded)
                               newColor st)
    = objects st ++ [node] /\
    geometryData node = Some (toJSON g) /\
    computeBoundingBox g = Some (lo, hi) /\
    vadd lo hi = vzero /\
    getSize (computeBoundingBox g) = getSize (computeBoundingBox loaded) /\
    (forall v, renderVertex node v = vec3 (vx v) (vy v) (vz v - vz lo)) /\
    (forall v, In v (geometryVertices g) -> 0 <= vz (renderVertex node v)).
Proof.
  intros Ha Hfin Hlen.
  destruct (center_centred loaded arr Ha Hfin Hlen)
    as (lo & hi & Hb & Hc & Hs & _).
  unfold handleImportModel.
  cbn [saveToHistory setObjects setSelectedIds showNotification setIdCalls
       objects].
  eexists. exists (center loaded), lo, hi.
  split; [reflexivity|]. split; [reflexivity|]. split; [exact Hb|].
  split; [exact Hc|]. split; [exact Hs|].
  assert (Hr : forall v,
             renderVertex
               (mkObject (gen (idCalls st)) custom
                  (vec3 0 0 (vz (getSize (computeBoundingBox (center loaded))) / 2))
                  vzero vone (Some vzero) newColor stem None
                  (Some (toJSON (center loaded)))
                  (Some (vec3 (or1 (vx (getSize (computeBoundingBox (center loaded)))))
                              (or1 (vy (getSize (computeBoundingBox (center loaded)))))
                              (or1 (vz (getSize (computeBoundingBox (center loaded))))))))
               v
             = vec3 (vx v) (vy v) (vz v - vz lo)).
  { intros v. rewrite render_vertex.
    unfold wrapperMatrix, pivotOf.
    cbn [position rotation scale pivot]. rewrite setFromEuler_zero, Hb.
    destruct lo as [l1 l2 l3], hi as [h1 h2 h3], v as [v1 v2 v3].
    unfold vadd, vzero in Hc. simpl in Hc. injection Hc as H1 H2 H3.
    unfold applyMatrix4, compose, vadd, qidentity, vzero, vone, getSize, vsub;
      simpl.
    f_equal; lra. }
  split; [exact Hr|].
  intros v Hin. rewrite Hr.
  pose proof (computeBoundingBox_contains _ _ _ Hb v Hin) as (_ & _ & Hz).
  simpl. lra.
Qed.

End ImportedMesh.

Lemma imported_mesh_rests_on_the_ground_witness :
  exists (node : SceneObject) (g : BufferGeometry),
    objects (handleImportModel counterId "part.stl" "part"
               (ImportGeometry unionGeometry) "#336699" emptyState)
    = [node] /\
    geometryData node = Some (toJSON g) /\
    forall v, In v (geometryVertices g) -> (0 <= vz (renderVertex node v))%R.
Proof.
  destruct (imported_mesh_rests_on_the_ground counterId "part.stl" "part"
              unionGeometry "#336699" emptyState _ eq_refl eq_refl)
    as (node & g & lo & hi & Ho & Hg & _ & _ & _ & _ & Hz).
  - simpl. lia.
  - exists node, g. split; [exact Ho|]. split; [exact Hg | exact Hz].
Defined.

(* ================================================================== *)
(** * The fields of the properties panel *)
(* ================================================================== *)

Section PanelFields.

Local Open Scope R_scope.

Lemma axisOf_setAxis (v : Vector3) (i j : Axis) (x : R) :
  axisOf (setAxis v i x) j = if Axis_eqb i j then x else axisOf v j.
Proof. destruct i, j; reflexivity. Qed.

Lemma edit_finds_patched (st : AppState) (o : SceneObject)
    (updates : Partial) :
  primarySelectedObject st = Some o ->
  p_id updates = None ->
  primarySelectedObject (handleUpdateObject (id o) updates st)
  = Some (applyUpdates o updates) /\
  past (handleUpdateObject (id o) updates st) = past st ++ [objects st] /\
  selectedIds (handleUpdateObject (id o) updates st) = selectedIds st.
Proof.
  unfold primarySelectedObject, handleUpdateObject.
  cbn [saveToHistory setObjects objects selectedIds past].
  destruct (selectedIds st) as [|i [|? ?]]; try discriminate.
  intros Hf Hid.
  destruct (findObjectRecursive_found _ _ _ Hf) as (Hi & _). rewrite Hi.
  rewrite (findObjectRecursive_updated _ _ _ Hid), Hf.
  repeat split.
Qed.


Lemma Int_part_IZR (z : Z) : Int_part (IZR z) = z.
Proof. symmetry. apply Int_part_spec. lra. Qed.

Lemma Math_round_IZR (z : Z) : Math_round (IZR z) = IZR z.
Proof.
  unfold Math_round. f_equal. symmetry. apply Int_part_spec. lra.
Qed.

Lemma Int_part_div (d : Z) :
  Int_part (IZR d / 360) = (d / 360)%Z.
Proof.
  symmetry. apply Int_part_spec.
  pose proof (Z.div_mod d 360 ltac:(lia)) as Hd.
  pose proof (Z.mod_pos_bound d 360 ltac:(lia)) as (Hlo & Hhi).
  apply IZR_le in Hlo. apply IZR_lt in Hhi.
  assert (HR : IZR d = 360 * IZR (d / 360) + IZR (d mod 360)).
  { rewrite Hd at 1. rewrite plus_IZR, mult_IZR. reflexivity. }
  lra.
Qed.

Lemma remainder_range (r : R) :
  let m := remainder r 360 in
  0 <= (if Rlt_dec m 0 then m + 360 else m) < 360.
Proof.
  unfold remainder, Math_trunc. cbv zeta.
  destruct (Rle_dec 0 (r / 360)) as [Hpos|Hneg].
  - destruct (base_Int_part (r / 360)) as (H1 & H2).
    destruct (Rlt_dec _ 0); lra.
  - destruct (base_Int_part (- (r / 360))) as (H1 & H2).
    destruct (Rlt_dec _ 0); lra.
Qed.

Lemma remainder_IZR (d : Z) :
  let m := remainder (IZR d) 360 in
  (if Rlt_dec m 0 then m + 360 else m) = IZR (d mod 360).
Proof.
  unfold remainder, Math_trunc. cbv zeta.
  pose proof (Z.div_mod d 360 ltac:(lia)) as Hd.
  pose proof (Z.mod_pos_bound d 360 ltac:(lia)) as (Hlo & Hhi).
  destruct (Rle_dec 0 (IZR d / 360)) as [Hpos|Hneg].
  - rewrite Int_part_div.
    assert (HR : IZR d = 360 * IZR (d / 360) + IZR (d mod 360)).
    { rewrite Hd at 1. rewrite plus_IZR, mult_IZR. reflexivity. }
    apply IZR_le in Hlo.
    destruct (Rlt_dec _ 0); lra.
  - replace (- (IZR d / 360)) with (IZR (- d) / 360)
      by (rewrite opp_IZR; field).
    rewrite Int_part_div.
    pose proof (Z.div_mod (- d) 360 ltac:(lia)) as Hd'.
    pose proof (Z.mod_pos_bound (- d) 360 ltac:(lia)) as (Hlo' & Hhi').
    assert (HR : IZR d = - (360 * IZR (- d / 360) + IZR ((- d) mod 360))).
    { rewrite <- mult_IZR, <- plus_IZR, <- opp_IZR. f_equal. lia. }
    destruct (Rlt_dec _ 0) as [Hlt|Hge].
    + assert (Hm : (d mod 360 = 360 - (- d) mod 360)%Z).
      { assert (Hnz : ((- d) mod 360 <> 0)%Z).
        { intros E. rewrite E in HR. lra. }
        lia. }
      rewrite Hm, minus_IZR. lra.
    + assert (Hm : (d mod 360 = 0)%Z /\ ((- d) mod 360 = 0)%Z).
      { assert (Hz : ((- d) mod 360 = 0)%Z).
        { assert (H0 : IZR ((- d) mod 360) <= 0) by lra.
          apply le_IZR in H0. lia. }
        lia. }
      destruct Hm as (-> & Hz). rewrite Hz in HR. lra.
Qed.

Lemma toDegrees_range (rad : R) : 0 <= toDegrees rad < 360.
Proof. unfold toDegrees. apply remainder_range. Qed.

Lemma toDegrees_of_degrees (d : Z) :
  toDegrees (IZR d * PI / 180) = IZR (d mod 360).
Proof.
  unfold toDegrees.
  replace (IZR d * PI / 180 * 180 / PI * 100) with (IZR (d * 100))
    by (rewrite mult_IZR; field; apply PI_neq0).
  rewrite Math_round_IZR.
  replace (IZR (d * 100) / 100) with (IZR d) by (rewrite mult_IZR; field).
  apply remainder_IZR.
Qed.

Lemma rotation_round_trip (st : AppState) (o : SceneObject) (i : Axis)
    (d : Z) :
  primarySelectedObject st = Some o ->
  exists o',
    primarySelectedObject (editVector KeyRotation i (IZR d) st) = Some o' /\
    toDegrees (axisOf (rotation o') i) = IZR (d mod 360) /\
    (forall j, Axis_eqb i j = false ->
               axisOf (rotation o') j = axisOf (rotation o) j) /\
    position o' = position o /\ scale o' = scale o.
Proof.
  intros Hsel. unfold editVector. rewrite Hsel.
  unfold handleVectorChange.
  match goal with
  | |- context [handleUpdateObject (id o) ?u st] =>
      destruct (edit_finds_patched st o u Hsel eq_refl) as (Hp & _);
      exists (applyUpdates o u)
  end.
  split; [exact Hp|].
  unfold applyUpdates, orElse.
  cbn [rotation position scale p_rotation p_position p_scale].
  split; [|split; [|split; reflexivity]].
  - rewrite axisOf_setAxis.
    replace (Axis_eqb i i) with true by now destruct i.
    apply toDegrees_of_degrees.
  - intros j Hj. rewrite axisOf_setAxis, Hj. reflexivity.
Qed.

End PanelFields.


(** X18. The rotation fields show degrees in the range from 0 inclusive to
    360 exclusive, whatever angle is stored; and typing a whole number of
    degrees into the rotation field of an axis stores radians that the
    field shows as that number modulo 360, with the other two angles, the
    position and the scale of the node untouched.  Numbers are reals. *)
Theorem rotation_field_shows_degrees_modulo_360 :
  (forall rad : R, (0 <= toDegrees rad < 360)%R) /\
  (forall (st : AppState) (o : SceneObject) (i : Axis) (d : Z),
      primarySelectedObject st = Some o ->
      exists o',
        primarySelectedObject (editVector KeyRotation i (IZR d) st)
        = Some o' /\
        toDegrees (axisOf (rotation o') i) = IZR (d mod 360) /\
        (forall j, Axis_eqb i j = false ->
                   axisOf (rotation o') j = axisOf (rotation o) j) /\
        position o' = position o /\ scale o' = scale o).
Proof. split; [exact toDegrees_range | exact rotation_round_trip]. Qed.

Lemma rotation_field_shows_degrees_modulo_360_witness :
  exists o',
    primarySelectedObject (editVector KeyRotation AxisZ 450 selectedBoxState)
    = Some o' /\
    toDegrees (axisOf (rotation o') AxisZ) = 90%R.
Proof.
  destruct (proj2 rotation_field_shows_degrees_modulo_360 selectedBoxState
              (boxAt "a" "Box 1" (vec3 0 0 10) (vec3 20 20 20)) AxisZ 450%Z
              eq_refl)
    as (o' & Hp & Hd & _).
  exists o'. split; [exact Hp | exact Hd].
Defined.

(* ================================================================== *)
(** * The copy made by duplication *)
(* ================================================================== *)

Section DeepCopy.

Variable gen : nat -> string.

Lemma vec3_eta (p : Vector3) : vec3 (vx p) (vy p) (vz p) = p.
Proof. now destruct p. Qed.

Lemma deepClone_copy (newName : string) (obj : SceneObject) :
  forall (isRoot : bool) (n : nat),
    map appearance (nodesOf (fst (deepClone gen newName obj isRoot n)))
    = map appearance (nodesOf obj) /\
    map name (nodesOf (fst (deepClone gen newName obj isRoot n)))
    = (if isRoot then newName else name obj)
        :: tl (map name (nodesOf obj)) /\
    map position (nodesOf (fst (deepClone gen newName obj isRoot n)))
    = (if isRoot
       then vec3 (vx (position obj) + 5) (vy (position obj))
                 (vz (position obj) + 5)
       else position obj)
        :: tl (map position (nodesOf obj)).
Proof.
  induction obj as [obj IH] using SceneObject_nested_ind.
  destruct obj as [oid t p r s pv c nm kids g b]; simpl in *.
  intros isRoot n. destruct kids as [cs|]; simpl.
  2: { unfold appearance, pivotOf; simpl. rewrite vec3_eta.
       destruct pv; repeat split; now destruct isRoot. }
  specialize (IH cs eq_refl).
  assert (Hall : forall k,
             let cs' := fst (mapWithCounter
                               (fun c0 k0 => deepClone gen newName c0 false k0)
                               cs k) in
             List.length cs' = List.length cs /\
             map appearance (flat_map nodesOf cs')
             = map appearance (flat_map nodesOf cs) /\
             map name (flat_map nodesOf cs') = map name (flat_map nodesOf cs) /\
             map position (flat_map nodesOf cs')
             = map position (flat_map nodesOf cs)).
  { clear -IH. induction IH as [|a l Ha _ IHl]; intros k; simpl.
    - repeat split.
    - destruct (Ha false k) as (Hap & Hnm & Hpos).
      destruct (deepClone gen newName a false k) as [a' k1]; simpl in *.
      destruct (IHl k1) as (Hlen & Hap' & Hnm' & Hpos').
      destruct (mapWithCounter _ l k1) as [l' k2]; simpl in *.
      rewrite !map_app, Hap, Hap', Hnm, Hnm', Hpos, Hpos', Hlen.
      repeat split.
      + destruct a; simpl. reflexivity.
      + destruct a; simpl. reflexivity. }
  destruct (Hall (S n)) as (Hlen & Hap & Hnm & Hpos).
  destruct (mapWithCounter _ cs (S n)) as [cs' n']; simpl in *.
  rewrite Hap, Hnm, Hpos.
  unfold appearance, pivotOf; simpl. rewrite Hlen, vec3_eta.
  destruct pv; repeat split; now destruct isRoot.
Qed.

End DeepCopy.

(** X19. The copy [handleDuplicateObject] makes of a node is a tree of the
    same shape: node for node, parents first, it has the type, rotation,
    scale, pivot, colour, geometry, base dimensions and number of children
    of the original; below the root also the names and positions; the
    root carries the new name and stands 5 further along x and z; and the
    identifiers are those of consecutive calls of the generator, in that
    order, one per node. *)
Theorem duplicate_is_a_faithful_copy :
  forall (gen : nat -> string) (newName : string) (obj : SceneObject)
         (n : nat),
    let copy := fst (deepClone gen newName obj true n) in
    map appearance (nodesOf copy) = map appearance (nodesOf obj) /\
    map name (nodesOf copy) = newName :: tl (map name (nodesOf obj)) /\
    map position (nodesOf copy)
    = vec3 (vx (position obj) + 5) (vy (position obj))
           (vz (position obj) + 5)
        :: tl (map position (nodesOf obj)) /\
    idsOf copy = map gen (seq n (List.length (idsOf obj))) /\
    snd (deepClone gen newName obj true n) = n + List.length (idsOf obj).
Proof.
  intros gen newName obj n copy.
  destruct (deepClone_copy gen newName obj true n) as (Ha & Hn & Hp).
  destruct (deepClone_ids gen newName obj true n) as (Hi & Hc).
  repeat split; assumption.
Qed.

(* ================================================================== *)
(** * Deleting the selection *)
(* ================================================================== *)

Lemma includes_app (a b : list string) (x : string) :
  includes (a ++ b) x = includes a x || includes b x.
Proof. unfold includes. apply existsb_app. Qed.

Lemma deleteInObject_id (ids : list string) (obj : SceneObject) :
  id (deleteInObject ids obj) = id obj.
Proof. destruct obj as [oid t p r s pv c n [cs|] g b]; reflexivity. Qed.

Lemma filterMap_twice (a b : list string) (cs : list SceneObject) :
  Forall (fun obj =>
            deleteInObject b (deleteInObject a obj)
            = deleteInObject (a ++ b) obj) cs ->
  filterMap b (deleteInObject b) (filterMap a (deleteInObject a) cs)
  = filterMap (a ++ b) (deleteInObject (a ++ b)) cs.
Proof.
  intros Hall. induction Hall as [|o l Ho _ IHl]; simpl; [reflexivity|].
  rewrite includes_app.
  destruct (includes a (id o)) eqn:Ea; simpl; [exact IHl|].
  rewrite deleteInObject_id.
  destruct (includes b (id o)); [exact IHl|].
  now rewrite Ho, IHl.
Qed.

Lemma deleteInObject_twice (a b : list string) (obj : SceneObject) :
  deleteInObject b (deleteInObject a obj) = deleteInObject (a ++ b) obj.
Proof.
  induction obj as [obj IH] using SceneObject_nested_ind.
  destruct obj as [oid t p r s pv c n kids g bd]; simpl in *.
  destruct kids as [cs|]; [|reflexivity].
  unfold withChildren. cbn [deleteInObject children withChildren id type
    position rotation scale pivot color name geometryData baseDimensions].
  rewrite (filterMap_twice a b cs (IH cs eq_refl)). reflexivity.
Qed.

Lemma deleteObjectRecursive_twice (a b : list string)
    (objs : list SceneObject) :
  deleteObjectRecursive (deleteObjectRecursive objs a) b
  = deleteObjectRecursive objs (a ++ b).
Proof.
  unfold deleteObjectRecursive. apply filterMap_twice.
  apply Forall_forall. intros o _. apply deleteInObject_twice.
Qed.

Lemma deleteObjectRecursive_nil (objs : list SceneObject) :
  deleteObjectRecursive objs [] = objs.
Proof.
  unfold deleteObjectRecursive. apply filterMap_unchanged.
  - intros x [].
  - apply Forall_forall. intros o _. apply deleteInObject_unchanged.
Qed.

Lemma fold_delete (sel acc : list string) (objs : list SceneObject) :
  fold_left (fun os i => deleteObjectRecursive os [i]) sel
            (deleteObjectRecursive objs acc)
  = deleteObjectRecursive objs (acc ++ sel).
Proof.
  revert acc. induction sel as [|i sel IH]; intros acc; simpl.
  - now rewrite app_nil_r.
  - rewrite deleteObjectRecursive_twice, IH, <- app_assoc. reflexivity.
Qed.

Lemma fold_deselect (ids sel : list string) :
  fold_left (fun s i => filter (fun sid => negb (sid =? i)) s) ids sel
  = filter (fun sid => negb (includes ids sid)) sel.
Proof.
  revert sel. induction ids as [|i ids IH]; intros sel; simpl.
  - induction sel as [|x sel IHs]; simpl; [reflexivity | now rewrite <- IHs].
  - rewrite IH. clear IH.
    induction sel as [|x sel IHs]; simpl; [reflexivity|].
    destruct (x =? i) eqn:E; simpl; [exact IHs|].
    destruct (includes ids x); simpl; [exact IHs | now rewrite IHs].
Qed.

Lemma filter_none {A : Type} (f : A -> bool) (l : list A) :
  (forall x, In x l -> f x = false) -> filter f l = [].
Proof.
  induction l as [|a l IH]; simpl; intros H; [reflexivity|].
  rewrite (H a (or_introl eq_refl)). apply IH. auto.
Qed.

Lemma onDeleteSelected_result (st : AppState) :
  objects (onDeleteSelected st)
  = deleteObjectRecursive (objects st) (selectedIds st) /\
  selectedIds (onDeleteSelected st) = [] /\
  (forall i, In i (selectedIds st) ->
             findObjectRecursive (objects (onDeleteSelected st)) i = None).
Proof.
  assert (Hobj : objects (onDeleteSelected st)
                 = deleteObjectRecursive (objects st) (selectedIds st)).
  { unfold onDeleteSelected. cbn [objects].
    rewrite <- (deleteObjectRecursive_nil (objects st)) at 1.
    apply fold_delete. }
  split; [exact Hobj|]. split.
  - unfold onDeleteSelected. cbn [selectedIds]. rewrite fold_deselect.
    apply filter_none. intros x Hx.
    apply (proj2 (includes_In _ _)) in Hx. now rewrite Hx.
  - intros i Hi. rewrite Hobj. apply findObjectRecursive_absent.
    unfold deleteObjectRecursive, allIds.
    apply filterMap_removed; [exact Hi|].
    apply Forall_forall. intros o _. now apply deleteInObject_removed.
Qed.

(** X20. Deleting the selection, one [handleDeleteObject] per selected
    identifier, comes to one deletion of all of them: the forest left is
    the one [deleteObjectRecursive] gives for the whole selection, the
    selection is empty afterwards, and none of the selected identifiers is
    found any more.  Deleting in two steps is deleting both lists at
    once. *)
Theorem delete_selected_is_one_deletion :
  forall (st : AppState),
    (objects (onDeleteSelected st)
     = deleteObjectRecursive (objects st) (selectedIds st) /\
     selectedIds (onDeleteSelected st) = [] /\
     (forall i, In i (selectedIds st) ->
                findObjectRecursive (objects (onDeleteSelected st)) i = None)) /\
    (forall (objs : list SceneObject) (a b : list string),
        deleteObjectRecursive (deleteObjectRecursive objs a) b
        = deleteObjectRecursive objs (a ++ b)).
Proof.
  intros st. split; [apply onDeleteSelected_result|].
  intros objs a b. apply deleteObjectRecursive_twice.
Qed.

Lemma delete_selected_is_one_deletion_witness :
  findObjectRecursive (objects (onDeleteSelected nestedState)) "b" = None.
Proof.
  apply (proj2 (proj2 (proj1 (delete_selected_is_one_deletion nestedState)))).
  simpl. right. now left.
Defined.

(* ================================================================== *)
(** * Grouping commands and nested nodes *)
(* ================================================================== *)

Lemma find_root_none (objs : list SceneObject) (i : string) :
  ~ In i (map id objs) -> find (fun o => id o =? i) objs = None.
Proof.
  induction objs as [|o rest IH]; simpl; intros Hn; [reflexivity|].
  destruct (id o =? i) eqn:E.
  - apply String.eqb_eq in E. elim Hn. now left.
  - apply IH. intros H. apply Hn. now right.
Qed.

Lemma filter_roots_none (sel : list string) (objs : list SceneObject) :
  (forall i, In i sel -> ~ In i (map id objs)) ->
  filter (fun obj => includes sel (id obj)) objs = [].
Proof.
  intros H. apply filter_none. intros o Ho.
  apply includes_not_In. intros Hin. apply (H _ Hin). now apply in_map.
Qed.

(** X21. Grouping and ungrouping look at the roots only.  When none of the
    selected identifiers is the identifier of a root (the selection
    consists of nodes inside groups), grouping two or more of them stores
    a snapshot for undo and changes nothing else, no group is made and no
    identifier drawn; and ungrouping does nothing at all, even if the
    selected node is a group. *)
Theorem grouping_ignores_nested_selection (ext : External)
    (gen : nat -> string)
    (st : AppState) :
  (forall i, In i (selectedIds st) -> ~ In i (map id (objects st))) ->
  ((2 <= List.length (selectedIds st))%nat ->
   handleGroup gen st = saveToHistory st) /\
  handleUngroup ext st = st.
Proof.
  intros Hnested. split.
  - intros Hlen. unfold handleGroup.
    destruct (List.length (selectedIds st) <? 2)%nat eqn:E;
      [apply Nat.ltb_lt in E; lia|].
    now rewrite (filter_roots_none _ _ Hnested).
  - unfold handleUngroup.
    destruct (selectedIds st) as [|i [|? ?]]; try reflexivity.
    rewrite find_root_none; [reflexivity|].
    apply Hnested. now left.
Qed.

Lemma grouping_ignores_nested_selection_witness :
  handleGroup counterId nestedState = saveToHistory nestedState /\
  handleUngroup (externalWith (Returned None)) nestedState = nestedState.
Proof.
  destruct (grouping_ignores_nested_selection
              (externalWith (Returned None)) counterId nestedState)
    as (Hg & Hu).
  - simpl. intros i [<-|[<-|[]]] [H|[]]; discriminate H.
  - split; [apply Hg; simpl; lia | exact Hu].
Defined.

(* ================================================================== *)
(** * An imported mesh as an operand *)
(* ================================================================== *)

Lemma validateGeometry_finite_length (g : BufferGeometry) (arr : list number) :
  attributes_position g = Some arr -> forallb isFinite arr = true ->
  validateGeometry g = negb (List.length arr <? 9)%nat.
Proof.
  intros Ha Hfin. unfold validateGeometry. rewrite Ha, Hfin.
  now destruct (List.length arr <? 9)%nat.
Qed.

Lemma center_positions (g : BufferGeometry) (arr : list number) :
  attributes_position g = Some arr -> forallb isFinite arr = true ->
  exists arr',
    attributes_position (center g) = Some arr' /\
    List.length arr' = List.length arr /\ forallb isFinite arr' = true.
Proof.
  intros Ha Hfin. unfold center, translate. rewrite Ha.
  cbn [option_map attributes_position]. eexists. split; [reflexivity|].
  destruct (mapVertices_valid
              (fun v => vadd v (vec3 (- vx (getCenter (computeBoundingBox g)))
                                     (- vy (getCenter (computeBoundingBox g)))
                                     (- vz (getCenter (computeBoundingBox g)))))
              (List.length arr) arr (Nat.le_refl _)) as (Hlen & Hf).
  split; [exact Hlen | exact (Hf Hfin)].
Qed.

(** X22. The importer is more liberal than the boolean engine.  A mesh
    with finite coordinates is imported whatever its size; the engine makes
    a mesh of the imported node, with the centred geometry, exactly when
    the position buffer holds nine entries (three vertices) or more, and
    otherwise has no mesh for it, so that every combine with the node as
    first operand fails with "Failed to create meshes from scene
    objects". *)
Theorem imported_mesh_as_operand (ext : External) (gen : nat -> string)
    (fileName stem : string) (loaded : BufferGeometry) (newColor : string)
    (st : AppState) (arr : list number) :
  attributes_position loaded = Some arr ->
  forallb isFinite arr = true ->
  exists node,
    objects (handleImportModel gen fileName stem (ImportGeometry loaded)
                               newColor st)
    = objects st ++ [node] /\
    (9 <= List.length arr ->
     exists m, createMeshFromObject ext node = Some m /\
               mesh_geometry m = center loaded) /\
    (List.length arr < 9 ->
     createMeshFromObject ext node = None /\
     forall other op n,
       executeBooleanOperation ext gen node other op n
       = (None, Some "Failed to create meshes from scene objects", n)).
Proof.
  intros Ha Hfin.
  destruct (center_positions loaded arr Ha Hfin) as (arr' & Ha' & Hlen & Hfin').
  pose proof (validateGeometry_finite_length _ _ Ha' Hfin') as Hv.
  rewrite Hlen in Hv.
  unfold handleImportModel.
  cbn [saveToHistory setObjects setSelectedIds showNotification setIdCalls
       objects].
  eexists. split; [reflexivity|].
  match goal with
  | |- context [createMeshFromObject ext ?o] =>
      assert (Hg : objectGeometry ext o = center loaded)
        by (unfold objectGeometry, center, translate; reflexivity);
      assert (Hm : createMeshFromObject ext o
                   = if negb (negb (List.length arr <? 9)%nat) then None
                     else Some (mkMesh (center loaded)
                                  (vadd (position o) vzero)
                                  (setFromEuler vzero)
                                  (vec3 (scaleFloor 1) (scaleFloor 1)
                                        (scaleFloor 1))))
        by (unfold createMeshFromObject; rewrite Hg, Hv; reflexivity)
  end.
  split.
  - intros H9. apply Nat.ltb_ge in H9. rewrite H9 in Hm. cbn [negb] in Hm.
    eexists. split; [exact Hm | reflexivity].
  - intros H9. apply Nat.ltb_lt in H9. rewrite H9 in Hm. cbn [negb] in Hm.
    split; [exact Hm|]. intros other op n.
    unfold executeBooleanOperation. rewrite Hm. reflexivity.
Qed.

Lemma imported_mesh_as_operand_witness :
  exists node,
    objects (handleImportModel counterId "part.stl" "part"
               (ImportGeometry (mkGeometry (Some [Fin 0; Fin 0; Fin 0])))
               "#336699" emptyState)
    = [node] /\
    createMeshFromObject (externalWith (Returned None)) node = None.
Proof.
  destruct (imported_mesh_as_operand (externalWith (Returned None)) counterId
              "part.stl" "part" (mkGeometry (Some [Fin 0; Fin 0; Fin 0]))
              "#336699" emptyState _ eq_refl eq_refl)
    as (node & Ho & _ & Hn).
  exists node. split; [exact Ho|]. apply Hn. simpl. lia.
Defined.
